(** * devalue: a shallow embedding of [src/index.ts] and its specification

    The program turns a JavaScript value graph into the text of a JavaScript
    expression.  It runs in two passes over a heap of objects with identity:
    [walk] counts how often every value is met (and splices the results of
    [toJSON] into the parent), then [stringify] and the final assembly of
    [devalue] render the text, binding every value met more than once to a
    short name.

    Conventions of the embedding
    - a JavaScript string is the list of its UTF-16 code units ([jsstring]);
    - the heap is a list of objects, a location is an index into it;
    - [walk] is a state-and-exception computation over the heap, the two
      tables [counts] and [mapObjToJSON], the limiter [logNum] and the
      diagnostics handed to consola;
    - recursion that JavaScript bounds only by its call stack takes fuel;
    - numbers are the integers below 2^53 in size, which a double holds
      exactly and [String] prints digit by digit, the two zeros, NaN and the
      infinities (the rendering of a fractional double, and of an integral
      one above 2^53, where [String] rounds to the shortest digits and
      switches to an exponent from 10^21, is outside the embedding);
    - an index of [getName] is below 54 * 2^31, as every index of an array
      is: there [~~] is the integer part (beyond, it wraps at 32 bits);
    - own properties are enumerable data properties; accessors, proxies,
      frozen objects and a patched [Object.prototype] are outside it. *)

From Stdlib Require Import ZArith NArith List String Ascii Lia Bool Sorted.
From stdpp Require Import base option list.
Import ListNotations.

Local Open Scope N_scope.

(** ** Strings as UTF-16 code units *)

Definition jsstring := list N.

(** The code units of an ASCII literal. *)
Definition js (s : string) : jsstring :=
  List.map N_of_ascii (list_ascii_of_string s).
Arguments js : simpl never.

Definition quote : N := 34.
Definition backslash : N := 92.

Fixpoint jsstring_eqb (a b : jsstring) : bool :=
  match a, b with
  | [], [] => true
  | x :: a', y :: b' => (x =? y) && jsstring_eqb a' b'
  | _, _ => false
  end.

(** [Array.prototype.join] on strings. *)
Fixpoint join (sep : jsstring) (parts : list jsstring) : jsstring :=
  match parts with
  | [] => []
  | [p] => p
  | p :: rest => p ++ sep ++ join sep rest
  end.

(** Digits of [n] in base [base], most significant first, as the do-while
    loops of number formatting produce them; [fuel] bounds the digit count. *)
Fixpoint digits_loop (fuel : nat) (base : N) (digit : N -> N) (n : N)
    (acc : jsstring) : jsstring :=
  let acc' := digit (n mod base) :: acc in
  match fuel with
  | O => acc'
  | S fuel' =>
      if n / base =? 0 then acc'
      else digits_loop fuel' base digit (n / base) acc'
  end.

Definition digit_char (d : N) : N := 48 + d.
Definition hex_upper_char (d : N) : N := if d <? 10 then 48 + d else 55 + d.
Definition hex_lower_char (d : N) : N := if d <? 10 then 48 + d else 87 + d.

Definition decimal (n : N) : jsstring :=
  digits_loop (N.to_nat (N.size n)) 10 digit_char n [].

(** [code.toString(16).toUpperCase()] *)
Definition hex_upper (n : N) : jsstring :=
  digits_loop (N.to_nat (N.size n)) 16 hex_upper_char n [].

Definition hex_lower (n : N) : jsstring :=
  digits_loop (N.to_nat (N.size n)) 16 hex_lower_char n [].

Definition decimal_Z (z : Z) : jsstring :=
  match z with
  | Zneg p => 45 :: decimal (Npos p)
  | _ => decimal (Z.to_N z)
  end.

(** ** The constants of the module (lines 2-18) *)

Definition chars : jsstring :=
  js "abcdefghijklmnopqrstuvwxyzABCDEFGHIJKLMNOPQRSTUVWXYZ_$".

(** The character class of the regular expression [unsafeChars]: the two
    angle brackets, backspace, form feed, line feed, carriage return, tab,
    NUL, and the separators U+2028 and U+2029. *)
Definition unsafeChars (c : N) : bool :=
  (c =? 60) || (c =? 62) || (c =? 8) || (c =? 12) || (c =? 10) || (c =? 13)
  || (c =? 9) || (c =? 0) || (c =? 8232) || (c =? 8233).

Definition reserved_words : list string :=
  [ "do"; "if"; "in"; "for"; "int"; "let"; "new"; "try"; "var"; "byte";
    "case"; "char"; "else"; "enum"; "goto"; "long"; "this"; "void"; "with";
    "await"; "break"; "catch"; "class"; "const"; "final"; "float"; "short";
    "super"; "throw"; "while"; "yield"; "delete"; "double"; "export";
    "import"; "native"; "return"; "switch"; "throws"; "typeof"; "boolean";
    "default"; "extends"; "finally"; "package"; "private"; "abstract";
    "continue"; "debugger"; "function"; "volatile"; "interface";
    "protected"; "transient"; "implements"; "instanceof"; "synchronized" ]%string.

(** [reserved.test(name)] *)
Definition reserved (name : jsstring) : bool :=
  existsb (fun w => jsstring_eqb (js w) name) reserved_words.

(** The table [escaped]: [escaped c] is [escaped[c]], [None] when [c] is
    not a key of the table.  [bs s] is a backslash followed by [s]. *)
Definition bs (s : string) : jsstring := backslash :: js s.

Definition escaped (c : N) : option jsstring :=
  if c =? 60 then Some (bs "u003C")
  else if c =? 62 then Some (bs "u003E")
  else if c =? 47 then Some (bs "u002F")
  else if c =? 92 then Some [backslash; backslash]
  else if c =? 8 then Some (bs "b")
  else if c =? 12 then Some (bs "f")
  else if c =? 10 then Some (bs "n")
  else if c =? 13 then Some (bs "r")
  else if c =? 9 then Some (bs "t")
  else if c =? 0 then Some (bs "0")
  else if c =? 8232 then Some (bs "u2028")
  else if c =? 8233 then Some (bs "u2029")
  else None.

(** ** String helpers (lines 261-333) *)

(** The loop of [getName].  [~~(num / chars.length)] is the integer part
    of the quotient as long as that is below 2^31, that is for [num] below
    [54 * 2^31]; the code is run on the indices of an array, which are
    below 2^32 - 1.  Beyond that bound [~~] wraps at 32 bits and the
    embedding does not follow it. *)
Fixpoint getName_loop (fuel : nat) (num : N) (name : jsstring) : jsstring :=
  let name' := nth (N.to_nat (num mod 54)) chars 0 :: name in
  match fuel with
  | O => name'
  | S fuel' =>
      (* num = ~~(num / chars.length) - 1; while (num >= 0) *)
      if num / 54 =? 0 then name'
      else getName_loop fuel' (num / 54 - 1) name'
  end.

Definition getName (num : N) : jsstring :=
  let name := getName_loop (N.to_nat (N.size num)) num [] in
  if reserved name then name ++ js "0" else name.

Definition escapeUnsafeChar (c : N) : jsstring :=
  match escaped c with
  | Some e => e
  | None => [c]
  end.

Definition escapeUnsafeChars (str : jsstring) : jsstring :=
  flat_map (fun c => if unsafeChars c then escapeUnsafeChar c else [c]) str.

Definition is_surrogate (code : N) : bool := (55296 <=? code) && (code <=? 57343).
Definition is_high_surrogate (code : N) : bool := (55296 <=? code) && (code <=? 56319).
Definition is_low_surrogate (code : N) : bool := (56320 <=? code) && (code <=? 57343).

(** The body of the loop of [stringifyString]: one step per code unit, two
    for a surrogate pair ([str[++i]]). *)
Fixpoint stringifyString_loop (str : jsstring) : jsstring :=
  match str with
  | [] => []
  | char :: rest =>
      if char =? quote then [backslash; quote] ++ stringifyString_loop rest
      else match escaped char with
      | Some e => e ++ stringifyString_loop rest
      | None =>
          if is_surrogate char then
            match rest with
            | next :: rest' =>
                if (char <=? 56319) && is_low_surrogate next
                then char :: next :: stringifyString_loop rest'
                else bs "u" ++ hex_upper char ++ stringifyString_loop rest
            | [] => bs "u" ++ hex_upper char ++ stringifyString_loop rest
            end
          else char :: stringifyString_loop rest
      end
  end.

Definition stringifyString (str : jsstring) : jsstring :=
  [quote] ++ stringifyString_loop str ++ [quote].

Definition ident_start (c : N) : bool :=
  (c =? 95) || (c =? 36) || ((97 <=? c) && (c <=? 122)) || ((65 <=? c) && (c <=? 90)).

Definition ident_part (c : N) : bool :=
  ident_start c || ((48 <=? c) && (c <=? 57)).

(** [/^[_$a-zA-Z][_$a-zA-Z0-9]*$/.test(key)] *)
Definition is_identifier (key : jsstring) : bool :=
  match key with
  | [] => false
  | c :: rest => ident_start c && forallb ident_part rest
  end.

(** The host's [JSON.stringify] on a string (ECMAScript QuoteJSONString):
    short escapes, [\u00xx] for the other control characters, [\udxxx] for
    a lone surrogate, everything else as it is. *)
Fixpoint JSON_quote_loop (str : jsstring) : jsstring :=
  match str with
  | [] => []
  | c :: rest =>
      if c =? quote then [backslash; quote] ++ JSON_quote_loop rest
      else if c =? backslash then [backslash; backslash] ++ JSON_quote_loop rest
      else if c =? 8 then bs "b" ++ JSON_quote_loop rest
      else if c =? 12 then bs "f" ++ JSON_quote_loop rest
      else if c =? 10 then bs "n" ++ JSON_quote_loop rest
      else if c =? 13 then bs "r" ++ JSON_quote_loop rest
      else if c =? 9 then bs "t" ++ JSON_quote_loop rest
      else if c <? 16 then bs "u000" ++ hex_lower c ++ JSON_quote_loop rest
      else if c <? 32 then bs "u00" ++ hex_lower c ++ JSON_quote_loop rest
      else if is_surrogate c then
        match rest with
        | next :: rest' =>
            if is_high_surrogate c && is_low_surrogate next
            then c :: next :: JSON_quote_loop rest'
            else bs "u" ++ hex_lower c ++ JSON_quote_loop rest
        | [] => bs "u" ++ hex_lower c ++ JSON_quote_loop rest
        end
      else c :: JSON_quote_loop rest
  end.

Definition JSON_stringify_string (str : jsstring) : jsstring :=
  [quote] ++ JSON_quote_loop str ++ [quote].

Definition safeKey (key : jsstring) : jsstring :=
  if is_identifier key then key
  else escapeUnsafeChars (JSON_stringify_string key).

Definition safeProp (key : jsstring) : jsstring :=
  if is_identifier key then js "." ++ key
  else js "[" ++ escapeUnsafeChars (JSON_stringify_string key) ++ js "]".


Local Close Scope N_scope.

(** ** Values, objects and the heap *)

(** A location is an index into the heap. *)
Abbreviation loc := nat (only parsing).

Inductive number :=
| NInt (z : Z)
| NNegZero
| NNaN
| NInfinity
| NNegInfinity.

Inductive value :=
| VUndefined
| VNull
| VBoolean (b : bool)
| VNumber (n : number)
| VString (s : jsstring)
| VSymbol (id : nat) (description : option jsstring)
| VBigInt (z : Z)
| VObject (l : loc).

(** What the code asks of [Object.getPrototypeOf(thing)]: whether it is
    [Object.prototype], [null], or something else; for something else,
    whether its own property names are those of [Object.prototype]
    ([standard_names]), the text of [thing.constructor.name] ([None] when
    [thing.constructor] is undefined, so that [.name] throws), and the
    [toJSON] member the object inherits. *)
Inductive prototype :=
| ObjectPrototype
| NullPrototype
| OtherPrototype (standard_names : bool) (constructor_name : option jsstring)
    (inherited_toJSON : value).

(** The class of an object with its internal slots.  [Function] is what
    [typeof] calls a function: [name] is [thing.name], [call] the value a
    call without arguments returns ([None]: the call throws).  [Plain]
    stands for every class that [getType] maps to none of the names of the
    switch. *)
Inductive class :=
| Function (name : jsstring) (call : option value)
| BoxedNumber (n : number)
| BoxedString (s : jsstring)
| BoxedBoolean (b : bool)
| Date (time : number)
| RegExp (text : jsstring)
| Array (elements : list (option value))
| Set_ (members : list value)
| Map_ (entries : list (value * value))
| Plain.

(** An object: its class, its prototype, its own enumerable string-keyed
    properties in the order of [Object.keys], and its own symbol keys, each
    as the text of [symbol.toString()].  The elements of an array live in
    its class, an absent slot is [None]. *)
Record object := Object {
  cls : class;
  proto : prototype;
  properties : list (jsstring * value);
  symbols : list jsstring
}.

Abbreviation heap := (list object) (only parsing).

Definition array_prototype : prototype :=
  OtherPrototype false (Some (js "Array")) VUndefined.

Definition plain (props : list (jsstring * value)) : object :=
  Object Plain ObjectPrototype props [].

Definition array (elements : list (option value)) : object :=
  Object (Array elements) array_prototype [] [].

(** A reference into the heap; a location outside the heap reads as an
    empty plain object (well-formed inputs have none). *)
Definition obj_at (h : heap) (l : loc) : object :=
  default (plain []) (h !! l).

(** *** Equality of values: SameValueZero, as [Map] compares its keys *)

Definition number_eqb (a b : number) : bool :=
  match a, b with
  | NInt x, NInt y => (x =? y)%Z
  | NNegZero, NNegZero | NNaN, NNaN | NInfinity, NInfinity
  | NNegInfinity, NNegInfinity => true
  | _, _ => false
  end.

Definition value_eqb (a b : value) : bool :=
  match a, b with
  | VUndefined, VUndefined | VNull, VNull => true
  | VBoolean x, VBoolean y => Bool.eqb x y
  | VNumber x, VNumber y => number_eqb x y
  | VString x, VString y => jsstring_eqb x y
  | VSymbol x _, VSymbol y _ => Nat.eqb x y
  | VBigInt x, VBigInt y => (x =? y)%Z
  | VObject x, VObject y => Nat.eqb x y
  | _, _ => false
  end.

(** [Map.prototype.set] stores the key -0 as +0. *)
Definition norm_key (v : value) : value :=
  match v with
  | VNumber NNegZero => VNumber (NInt 0)
  | _ => v
  end.

Definition same_value_zero (a b : value) : bool :=
  value_eqb (norm_key a) (norm_key b).

(** *** A JavaScript [Map]: entries in insertion order *)

Section JSMap.
Context {V : Type}.

Fixpoint map_get (m : list (value * V)) (k : value) : option V :=
  match m with
  | [] => None
  | (k', v) :: m' => if same_value_zero k' k then Some v else map_get m' k
  end.

Definition map_has (m : list (value * V)) (k : value) : bool :=
  match map_get m k with Some _ => true | None => false end.

(** An existing key keeps its place, a new one goes last. *)
Fixpoint map_set (m : list (value * V)) (k : value) (v : V) : list (value * V) :=
  match m with
  | [] => [(norm_key k, v)]
  | (k', v') :: m' =>
      if same_value_zero k' k then (k', v) :: m'
      else (k', v') :: map_set m' k v
  end.

Fixpoint map_delete (m : list (value * V)) (k : value) : list (value * V) :=
  match m with
  | [] => []
  | (k', v') :: m' =>
      if same_value_zero k' k then m' else (k', v') :: map_delete m' k
  end.
End JSMap.

(** *** Reading and writing properties *)

Definition typeof_function (h : heap) (thing : value) : bool :=
  match thing with
  | VObject l => match cls (obj_at h l) with Function _ _ => true | _ => false end
  | _ => false
  end.

(** [thing.name] of a function. *)
Definition function_name (h : heap) (thing : value) : jsstring :=
  match thing with
  | VObject l => match cls (obj_at h l) with Function name _ => name | _ => [] end
  | _ => []
  end.

(** [isPrimitive(thing)]: [Object(thing) !== thing]. *)
Definition isPrimitive (thing : value) : bool :=
  match thing with VObject _ => false | _ => true end.

Fixpoint assoc (props : list (jsstring * value)) (key : jsstring) : option value :=
  match props with
  | [] => None
  | (k, v) :: rest => if jsstring_eqb k key then Some v else assoc rest key
  end.

(** [thing[key]] for an own key of an object ([undefined] otherwise). *)
Definition get_property (h : heap) (l : loc) (key : jsstring) : value :=
  default VUndefined (assoc (properties (obj_at h l)) key).

(** [thing.toJSON]: the own property, else the inherited member. *)
Definition get_toJSON (o : object) : value :=
  match assoc (properties o) (js "toJSON") with
  | Some v => v
  | None =>
      match proto o with
      | OtherPrototype _ _ inherited => inherited
      | _ => VUndefined
      end
  end.

(** ToBoolean. *)
Definition truthy (v : value) : bool :=
  match v with
  | VUndefined | VNull => false
  | VBoolean b => b
  | VNumber (NInt z) => negb (z =? 0)%Z
  | VNumber NNegZero | VNumber NNaN => false
  | VNumber _ => true
  | VString s => match s with [] => false | _ => true end
  | VBigInt z => negb (z =? 0)%Z
  | VSymbol _ _ | VObject _ => true
  end.

(** The value of an array index written as a property key: a decimal
    numeral without a leading zero, below 2^32 - 1. *)
Definition array_index (key : jsstring) : option N :=
  let n := fold_left (fun acc c => 10 * acc + (c - 48))%N key 0%N in
  if jsstring_eqb (decimal n) key && (n <? 4294967295)%N then Some n else None.

(** Where a new own key goes: array indices first, in ascending order,
    then the other keys in the order of their creation. *)
Fixpoint insert_property (props : list (jsstring * value)) (key : jsstring)
    (v : value) : list (jsstring * value) :=
  match props with
  | [] => [(key, v)]
  | (k, w) :: rest =>
      match array_index key, array_index k with
      | Some n, Some m =>
          if (n <? m)%N then (key, v) :: props else (k, w) :: insert_property rest key v
      | Some _, None => (key, v) :: props
      | None, _ => (k, w) :: insert_property rest key v
      end
  end.

Fixpoint update_property (props : list (jsstring * value)) (key : jsstring)
    (v : value) : list (jsstring * value) :=
  match props with
  | [] => []
  | (k, w) :: rest =>
      if jsstring_eqb k key then (k, v) :: rest
      else (k, w) :: update_property rest key v
  end.

Definition set_own_property (props : list (jsstring * value)) (key : jsstring)
    (v : value) : list (jsstring * value) :=
  match assoc props key with
  | Some _ => update_property props key v
  | None => insert_property props key v
  end.

Definition with_properties (o : object) (props : list (jsstring * value)) : object :=
  Object (cls o) (proto o) props (symbols o).

Definition with_elements (o : object) (elements : list (option value)) : object :=
  Object (Array elements) (proto o) (properties o) (symbols o).

(** [object[key] = v] on the object at [l]. *)
Definition put_property (h : heap) (l : loc) (key : jsstring) (v : value) : heap :=
  let o := obj_at h l in
  <[l := with_properties o (set_own_property (properties o) key v)]> h.

(** [elements[i] = v]: an index past the end lengthens the array, the
    slots in between stay absent. *)
Definition set_element (elements : list (option value)) (i : nat) (v : value)
    : list (option value) :=
  if (i <? length elements) then <[i := Some v]> elements
  else elements ++ replicate (i - length elements) None ++ [Some v].

(** [target[index] = v] in strict code: a TypeError ([None]) when the
    target is a primitive, or a string wrapper whose character [index] is
    read-only; an element of an array; an own property of anything else. *)
Definition put_index (h : heap) (target : value) (index : nat) (v : value)
    : option heap :=
  match target with
  | VObject l =>
      let o := obj_at h l in
      match cls o with
      | Array elements => Some (<[l := with_elements o (set_element elements index v)]> h)
      | BoxedString s =>
          if (index <? length s) then None
          else Some (put_property h l (decimal (N.of_nat index)) v)
      | _ => Some (put_property h l (decimal (N.of_nat index)) v)
      end
  | _ => None
  end.

(** ** Primitive rendering (lines 276-283) *)

(** [String(n)] for a number of the embedding.  [NInt z] stands for the
    double of value [z], [z] at most 2^53 in size: [String] then writes
    every digit.  (A larger integral double is written with the fewest
    digits that read back as the same double, followed by zeros, and from
    10^21 with an exponent; [NInt] is not meant for those.) *)
Definition number_to_string (n : number) : jsstring :=
  match n with
  | NInt z => decimal_Z z
  | NNegZero => js "0"
  | NNaN => js "NaN"
  | NInfinity => js "Infinity"
  | NNegInfinity => js "-Infinity"
  end.

(** [str.replace(/^(-)?0\./, '$1.')] *)
Definition strip_leading_zero (str : jsstring) : jsstring :=
  match str with
  | 48 :: 46 :: rest => 46 :: rest
  | 45 :: 48 :: 46 :: rest => 45 :: 46 :: rest
  | _ => str
  end%N.

(** [stringifyPrimitive]; an object never reaches it. *)
Definition stringifyPrimitive (thing : value) : jsstring :=
  match thing with
  | VString s => stringifyString s
  | VUndefined => js "void 0"
  | VNumber NNegZero => js "-0"
  | VNumber n => strip_leading_zero (number_to_string n)
  | VNull => js "null"
  | VBoolean true => js "true"
  | VBoolean false => js "false"
  | VSymbol _ None => js "Symbol()"
  | VSymbol _ (Some d) => js "Symbol(" ++ d ++ js ")"
  | VBigInt z => decimal_Z z
  | VObject _ => js "[object Object]"
  end.

(** ** The result of [JSON.parse] *)

(** The host's parser is a parameter of the embedding: it maps a text to
    the tree it denotes, or fails (SyntaxError).  [alloc_json] builds the
    fresh objects of such a tree in the heap. *)
#[warnings="-register-all"]
Inductive json :=
| JNull
| JBoolean (b : bool)
| JNumber (n : number)
| JString (s : jsstring)
| JArray (items : list json)
| JObject (members : list (jsstring * json)).

Fixpoint alloc_json (j : json) (h : heap) : value * heap :=
  match j with
  | JNull => (VNull, h)
  | JBoolean b => (VBoolean b, h)
  | JNumber n => (VNumber n, h)
  | JString s => (VString s, h)
  | JArray items =>
      let '(vs, h') :=
        (fix go (items : list json) (h : heap) : list (option value) * heap :=
           match items with
           | [] => ([], h)
           | x :: xs =>
               let '(v, h1) := alloc_json x h in
               let '(vs, h2) := go xs h1 in
               (Some v :: vs, h2)
           end) items h in
      (VObject (length h'), h' ++ [array vs])
  | JObject members =>
      let '(ps, h') :=
        (fix go (members : list (jsstring * json)) (h : heap)
             : list (jsstring * value) * heap :=
           match members with
           | [] => ([], h)
           | (k, x) :: xs =>
               let '(v, h1) := alloc_json x h in
               let '(ps, h2) := go xs h1 in
               ((k, v) :: ps, h2)
           end) members h in
      (VObject (length h'), h' ++ [plain ps])
  end.

(** [getType(json) === 'String'] holds of a primitive string and of a
    string wrapper; [JSON.parse] reads the text of either. *)
Definition string_text (h : heap) (v : value) : option jsstring :=
  match v with
  | VString s => Some s
  | VObject l => match cls (obj_at h l) with BoxedString s => Some s | _ => None end
  | _ => None
  end.

(** [thing.toJSON()] for a truthy member [f]: the value the function
    returns; [None] when the call throws, or [f] is not a function. *)
Definition call_toJSON (h : heap) (f : value) : option value :=
  match f with
  | VObject l => match cls (obj_at h l) with Function _ call => call | _ => None end
  | _ => None
  end.

(** ** The traversal pass: state, effects and [walk] (lines 26-131) *)

(** A count of the table [counts]: [None] is NaN, which [undefined + 1]
    would produce. *)
Definition count := option nat.

Record state := State {
  st_heap : heap;
  counts : list (value * count);
  mapObjToJSON : list (value * value);
  logNum : nat;
  emitted : list jsstring;      (* the messages handed to consola[level] *)
  invoked : list value          (* ghost: the objects whose toJSON walk called *)
}.

Definition initial_state (h : heap) : state := State h [] [] 0 [] [].

Definition set_heap (h : heap) (st : state) : state :=
  State h (counts st) (mapObjToJSON st) (logNum st) (emitted st) (invoked st).
Definition set_counts (c : list (value * count)) (st : state) : state :=
  State (st_heap st) c (mapObjToJSON st) (logNum st) (emitted st) (invoked st).
Definition set_mapObjToJSON (m : list (value * value)) (st : state) : state :=
  State (st_heap st) (counts st) m (logNum st) (emitted st) (invoked st).
Definition add_invoked (thing : value) (st : state) : state :=
  State (st_heap st) (counts st) (mapObjToJSON st) (logNum st) (emitted st)
        (invoked st ++ [thing]).

Inductive outcome (A : Type) :=
| Returned (a : A)
| Thrown
| OutOfFuel.
Arguments Returned {A} a.
Arguments Thrown {A}.
Arguments OutOfFuel {A}.

(** A computation of the traversal: it ends with an outcome and the state
    it reached (also when it throws). *)
Definition M (A : Type) := state -> outcome A * state.

Definition ret {A} (a : A) : M A := fun st => (Returned a, st).
Definition throw {A} : M A := fun st => (Thrown, st).
Definition out_of_fuel {A} : M A := fun st => (OutOfFuel, st).
Definition bind {A B} (m : M A) (f : A -> M B) : M B :=
  fun st =>
    match m st with
    | (Returned a, st') => f a st'
    | (Thrown, st') => (Thrown, st')
    | (OutOfFuel, st') => (OutOfFuel, st')
    end.
Definition gets {A} (f : state -> A) : M A := fun st => (Returned (f st), st).
Definition modify (f : state -> state) : M unit := fun st => (Returned tt, f st).

Declare Scope walk_scope.
Delimit Scope walk_scope with walk.
Notation "x <- m ;; k" := (bind m (fun x => k))
  (at level 100, m at next level, right associativity) : walk_scope.
Notation "m ;; k" := (bind m (fun _ => k))
  (at level 100, right associativity) : walk_scope.
Local Open Scope walk_scope.

(** [consola[level](message)] *)
Definition consola (message : jsstring) : M unit :=
  modify (fun st => State (st_heap st) (counts st) (mapObjToJSON st) (logNum st)
                          (emitted st ++ [message]) (invoked st)).

(** [list.forEach(f)] over a list fixed before the loop starts. *)
Fixpoint forEach {A} (f : A -> M unit) (xs : list A) : M unit :=
  match xs with
  | [] => ret tt
  | x :: xs' => f x ;; forEach f xs'
  end.

(** The element of the array at [l] at index [i], when the slot is there. *)
Definition array_get (h : heap) (l : loc) (i : nat) : option value :=
  match cls (obj_at h l) with
  | Array elements => mjoin (elements !! i)
  | _ => None
  end.

(** [thing.forEach(f)] on the array at [l]: the indices [i, i + n), each
    slot read when the loop reaches it, absent slots skipped. *)
Fixpoint forEach_array (f : value -> nat -> M unit) (l : loc) (i n : nat) : M unit :=
  match n with
  | O => ret tt
  | S n' =>
      h <- gets st_heap;;
      match array_get h l i with
      | Some item => f item i ;; forEach_array f l (S i) n'
      | None => forEach_array f l (S i) n'
      end
  end.

(** [Object.keys(thing).forEach(key => f(thing[key], key))]: the keys are
    fixed before the loop, each value is read when its turn comes. *)
Fixpoint forEach_key (f : value -> jsstring -> M unit) (l : loc)
    (keys : list jsstring) : M unit :=
  match keys with
  | [] => ret tt
  | key :: keys' =>
      h <- gets st_heap;;
      f (get_property h l key) key ;; forEach_key f l keys'
  end.

(** [Array.from(map)]: one fresh two-element array per entry. *)
Fixpoint alloc_pairs (entries : list (value * value)) : M (list value) :=
  match entries with
  | [] => ret []
  | (k, v) :: rest =>
      h <- gets st_heap;;
      modify (set_heap (h ++ [array [Some k; Some v]]));;
      items <- alloc_pairs rest;;
      ret (VObject (length h) :: items)
  end.

Definition increment (c : option count) : count :=
  match c with
  | Some (Some n) => Some (S n)
  | _ => None
  end.

Section Devalue.
(** The configuration read at start-up and the host's [JSON.parse]. *)
Variable logLimit : Z.
Variable JSON_parse : jsstring -> option json.

(** [log]: at most [logLimit] messages go through (lines 31-36). *)
Definition log (message : jsstring) : M unit :=
  n <- gets logNum;;
  if (Z.of_nat n <? logLimit)%Z then
    consola message;;
    modify (fun st => State (st_heap st) (counts st) (mapObjToJSON st)
                            (S (logNum st)) (emitted st) (invoked st))
  else ret tt.

(** Lines 104-107: the write of the converted value into the parent. *)
Definition splice (parent : option loc) (key : option jsstring)
    (index : option nat) (converted : value) : M unit :=
  match parent with
  | None => throw
  | Some p =>
      let k := default (js "undefined") key in
      h <- gets st_heap;;
      match index with
      | Some i =>
          match put_index h (get_property h p k) i converted with
          | Some h' => modify (set_heap h')
          | None => throw
          end
      | None => modify (set_heap (put_property h p k converted))
      end
  end.

(** Lines 73-109: the branch of an object with a truthy [toJSON]. *)
Definition walk_toJSON (thing : value) (o : object) (parent : option loc)
    (key : option jsstring) (index : option nat) : M unit :=
  modify (fun st => set_counts (map_delete (counts st) thing) st);;
  cache <- gets mapObjToJSON;;
  converted <-
    match map_get cache thing with
    | Some converted =>
        modify (fun st =>
          set_counts (map_set (counts st) converted
                        (increment (map_get (counts st) converted))) st);;
        ret converted
    | None =>
        h <- gets st_heap;;
        (if typeof_function h (get_toJSON o) then modify (add_invoked thing)
         else ret tt);;
        match call_toJSON h (get_toJSON o) with
        | None => throw
        | Some result =>
            converted <-
              match string_text h result with
              | Some text =>
                  match JSON_parse text with
                  | Some tree =>
                      let '(v, h') := alloc_json tree h in
                      modify (set_heap h');; ret v
                  | None => ret thing
                  end
              | None => ret result
              end;;
            modify (fun st => set_mapObjToJSON (map_set (mapObjToJSON st) thing converted) st);;
            modify (fun st => set_counts (map_set (counts st) converted (Some 1)) st);;
            ret converted
        end
    end;;
  splice parent key index converted.

Definition message_function (name : jsstring) : jsstring :=
  js "Cannot stringify a function " ++ name.
Definition message_non_POJO (name : jsstring) : jsstring :=
  js "Cannot stringify arbitrary non-POJOs " ++ name.
Definition message_symbols (syms : list jsstring) : jsstring :=
  js "Cannot stringify POJOs with symbolic keys " ++ join (js ",") syms.

(** Lines 111-125: an object of the default case without a [toJSON]. *)
Definition walk_object (rec : value -> option loc -> option jsstring -> option nat -> M unit)
    (l : loc) (o : object) : M unit :=
  match proto o with
  | OtherPrototype false ctor _ =>
      (* typeof thing.toJSON !== "function" holds: the member is falsy *)
      match ctor with
      | Some name => log (message_non_POJO name)
      | None => throw
      end
  | _ =>
      match symbols o with
      | _ :: _ => log (message_symbols (symbols o))
      | [] =>
          forEach_key (fun v key => rec v (Some l) (Some key) None) l
                      (List.map fst (properties o))
      end
  end.

Fixpoint walk (fuel : nat) (thing : value) (parent : option loc)
    (key : option jsstring) (index : option nat) : M unit :=
  match fuel with
  | O => out_of_fuel
  | S fuel' =>
      h <- gets st_heap;;
      if typeof_function h thing then
        consola (message_function (function_name h thing))
      else
        seen <- gets counts;;
        if map_has seen thing then
          modify (set_counts (map_set seen thing (increment (map_get seen thing))))
        else
          modify (set_counts (map_set seen thing (Some 1)));;
          match thing with
          | VObject l =>
              let o := obj_at h l in
              match cls o with
              | BoxedNumber _ | BoxedString _ | BoxedBoolean _
              | Date _ | RegExp _ => ret tt
              | Array elements =>
                  forEach_array (fun item i => walk fuel' item parent key (Some i))
                                l 0 (length elements)
              | Set_ members =>
                  forEach (fun item => walk fuel' item parent key None) members
              | Map_ entries =>
                  items <- alloc_pairs entries;;
                  forEach (fun item => walk fuel' item parent key None) items
              | Function _ _ | Plain =>
                  if truthy (get_toJSON o) then walk_toJSON thing o parent key index
                  else walk_object (walk fuel') l o
              end
          | _ => ret tt
          end
  end.
End Devalue.

(** ** The naming pass (lines 133-139) *)

(** [entries.filter(entry => entry[1] > 1)]; NaN is not above 1. *)
Definition repeated (entry : value * count) : bool :=
  match snd entry with
  | Some n => (1 <? n)
  | None => false
  end.

Definition count_of (entry : value * count) : nat := default 0 (snd entry).

(** [sort((a, b) => b[1] - a[1])]: descending counts, entries of equal
    count in their former order (the sort is stable).  [insert_by_count e]
    puts [e], which stood before every entry of [sorted], in its place:
    before the first entry whose count is not above its own. *)
Fixpoint insert_by_count (e : value * count) (sorted : list (value * count))
    : list (value * count) :=
  match sorted with
  | [] => [e]
  | x :: rest =>
      if (count_of x <=? count_of e) then e :: sorted
      else x :: insert_by_count e rest
  end.

Definition sort_by_count (entries : list (value * count)) : list (value * count) :=
  fold_right insert_by_count [] entries.

Fixpoint number_from (i : N) (entries : list (value * count)) : list (value * jsstring) :=
  match entries with
  | [] => []
  | e :: rest => (fst e, getName i) :: number_from (i + 1)%N rest
  end.

Definition assign_names (table : list (value * count)) : list (value * jsstring) :=
  number_from 0%N (sort_by_count (filter (fun e => repeated e = true) table)).

(** ** The rendering pass (lines 141-259) *)

Definition obind {A B} (x : outcome A) (f : A -> outcome B) : outcome B :=
  match x with
  | Returned a => f a
  | Thrown => Thrown
  | OutOfFuel => OutOfFuel
  end.

Declare Scope outcome_scope.
Delimit Scope outcome_scope with outcome.
Notation "x <- m ;; k" := (obind m (fun x => k))
  (at level 100, m at next level, right associativity) : outcome_scope.

(** [list.map(f)] when [f] may throw: the first failure ends the loop. *)
Fixpoint traverse {A B} (f : A -> outcome B) (xs : list A) : outcome (list B) :=
  match xs with
  | [] => Returned []
  | x :: xs' =>
      (y <- f x;; ys <- traverse f xs';; Returned (y :: ys))%outcome
  end.

(** Is the last slot of the array absent?  Then the literal needs one more
    comma. *)
Definition tail (elements : list (option value)) : jsstring :=
  match last elements with
  | Some None => js ","
  | _ => []
  end.

Section Emit.
Variable JSON_parse : jsstring -> option json.
Variable names : list (value * jsstring).

Local Open Scope outcome_scope.

(** The array case of [stringify], for the renderer [rec] of elements. *)
Definition stringify_array (rec : value -> outcome jsstring)
    (elements : list (option value)) : outcome jsstring :=
  members <- traverse (fun slot => match slot with
                               | Some v => rec v
                               | None => Returned []
                               end) elements;;
  Returned (js "[" ++ join (js ",") members ++ tail elements ++ js "]").

Fixpoint stringify (fuel : nat) (h : heap) (thing : value) : outcome jsstring :=
  match fuel with
  | O => OutOfFuel
  | S fuel' =>
      match map_get names thing with
      | Some name => Returned name
      | None =>
          match thing with
          | VObject l =>
              let o := obj_at h l in
              match cls o with
              | BoxedNumber n =>
                  s <- stringify fuel' h (VNumber n);;
                  Returned (js "Object(" ++ s ++ js ")")
              | BoxedString str =>
                  s <- stringify fuel' h (VString str);;
                  Returned (js "Object(" ++ s ++ js ")")
              | BoxedBoolean b =>
                  s <- stringify fuel' h (VBoolean b);;
                  Returned (js "Object(" ++ s ++ js ")")
              | RegExp text => Returned text
              | Date time =>
                  Returned (js "new Date(" ++ number_to_string time ++ js ")")
              | Array elements => stringify_array (stringify fuel' h) elements
              | Set_ members =>
                  ms <- traverse (stringify fuel' h) members;;
                  Returned (js "new Set([" ++ join (js ",") ms ++ js "])")
              | Map_ entries =>
                  (* Array.from(thing): each entry is a fresh array *)
                  ms <- traverse (fun e : value * value =>
                                stringify fuel' (h ++ [array [Some (fst e); Some (snd e)]])
                                          (VObject (length h))) entries;;
                  Returned (js "new Map([" ++ join (js ",") ms ++ js "])")
              | Function _ _ | Plain =>
                  if truthy (get_toJSON o) then
                    match call_toJSON h (get_toJSON o) with
                    | None => Thrown
                    | Some result =>
                        match string_text h result with
                        | Some text =>
                            match JSON_parse text with
                            | Some tree =>
                                let '(v, h') := alloc_json tree h in
                                stringify fuel' h' v
                            | None => stringify fuel' h result
                            end
                        | None => stringify fuel' h result
                        end
                    end
                  else
                    match proto o, properties o with
                    | NullPrototype, [] => Returned (js "Object.create(null)")
                    | NullPrototype, props =>
                        ms <- traverse (fun p : jsstring * value =>
                                      s <- stringify fuel' h (snd p);;
                                      Returned (safeKey (fst p)
                                                ++ js ":{writable:true,enumerable:true,value:"
                                                ++ s ++ js "}")) props;;
                        Returned (js "Object.create(null,{" ++ join (js ",") ms ++ js "})")
                    | _, props =>
                        ms <- traverse (fun p : jsstring * value =>
                                      s <- stringify fuel' h (snd p);;
                                      Returned (safeKey (fst p) ++ js ":" ++ s)) props;;
                        Returned (js "{" ++ join (js ",") ms ++ js "}")
                    end
              end
          | _ => Returned (stringifyPrimitive thing)
          end
      end
  end.

(** The elements of an array with their indices, absent slots left out:
    what [thing.forEach((v, i) => ...)] visits. *)
Fixpoint indexed (i : nat) (elements : list (option value)) : list (nat * value) :=
  match elements with
  | [] => []
  | Some v :: rest => (i, v) :: indexed (S i) rest
  | None :: rest => indexed (S i) rest
  end.

(** One turn of [names.forEach] (lines 203-251): the argument that
    creates the value bound to [name], and the statements that fill it. *)
Definition binding (fuel : nat) (h : heap) (thing : value) (name : jsstring)
    : outcome (jsstring * list jsstring) :=
  match thing with
  | VObject l =>
      let o := obj_at h l in
      match cls o with
      | BoxedNumber n =>
          s <- stringify fuel h (VNumber n);;
          Returned (js "Object(" ++ s ++ js ")", [])
      | BoxedString str =>
          s <- stringify fuel h (VString str);;
          Returned (js "Object(" ++ s ++ js ")", [])
      | BoxedBoolean b =>
          s <- stringify fuel h (VBoolean b);;
          Returned (js "Object(" ++ s ++ js ")", [])
      | RegExp text => Returned (text, [])
      | Date time => Returned (js "new Date(" ++ number_to_string time ++ js ")", [])
      | Array elements =>
          stmts <- traverse (fun iv : nat * value =>
                           s <- stringify fuel h (snd iv);;
                           Returned (name ++ js "[" ++ decimal (N.of_nat (fst iv))
                                     ++ js "]=" ++ s)) (indexed 0 elements);;
          Returned (js "Array(" ++ decimal (N.of_nat (length elements)) ++ js ")", stmts)
      | Set_ members =>
          calls <- traverse (fun v => s <- stringify fuel h v;;
                                  Returned (js "add(" ++ s ++ js ")")) members;;
          Returned (js "new Set", [name ++ js "." ++ join (js ".") calls])
      | Map_ entries =>
          calls <- traverse (fun e : value * value =>
                           k <- stringify fuel h (fst e);;
                           v <- stringify fuel h (snd e);;
                           Returned (js "set(" ++ k ++ js ", " ++ v ++ js ")")) entries;;
          Returned (js "new Map", [name ++ js "." ++ join (js ".") calls])
      | Function _ _ | Plain =>
          stmts <- traverse (fun p : jsstring * value =>
                           s <- stringify fuel h (snd p);;
                           Returned (name ++ safeProp (fst p) ++ js "=" ++ s))
                        (properties o);;
          Returned (match proto o with
                    | NullPrototype => js "Object.create(null)"
                    | _ => js "{}"
                    end, stmts)
      end
  | _ => Returned (stringifyPrimitive thing, [])
  end.

(** Lines 196-258: the text of the value, wrapped in a function that
    binds the names when there are any. *)
Definition assemble (fuel : nat) (h : heap) (value : value) : outcome jsstring :=
  str <- stringify fuel h value;;
  match names with
  | [] => Returned str
  | _ =>
      bindings <- traverse (fun entry => binding fuel h (fst entry) (snd entry)) names;;
      let params := List.map snd names in
      let values := List.map fst bindings in
      let statements := flat_map snd bindings ++ [js "return " ++ str] in
      Returned (js "(function(" ++ join (js ",") params ++ js "){"
                ++ join (js ";") statements ++ js "}("
                ++ join (js ",") values ++ js "))")
  end.
End Emit.

(** ** [devalue] (line 25) *)

(** The text, or the failure, together with the state the traversal
    reached: its heap is the input as the call leaves it, [emitted] the
    diagnostics of the call. *)
Definition devalue (logLimit : Z) (JSON_parse : jsstring -> option json)
    (fuel : nat) (h : heap) (value : value) : outcome jsstring * state :=
  match walk logLimit JSON_parse fuel value None None None (initial_state h) with
  | (Returned _, st) =>
      (assemble JSON_parse (assign_names (counts st)) fuel (st_heap st) value, st)
  | (Thrown, st) => (Thrown, st)
  | (OutOfFuel, st) => (OutOfFuel, st)
  end.

(** The text [devalue] returns, when it returns. *)
Definition serialize (logLimit : Z) (JSON_parse : jsstring -> option json)
    (fuel : nat) (h : heap) (value : value) : outcome jsstring :=
  fst (devalue logLimit JSON_parse fuel h value).

(** * Predicates of the specification *)

Module Escaping.
Local Open Scope N_scope.

(** The code units that must not occur as they are in the output: the
    angle brackets, the slash, the six control characters of the table
    and the two separators. *)
Definition raw_unsafe (c : N) : bool :=
  (c =? 60) || (c =? 62) || (c =? 47) || (c =? 8) || (c =? 12) || (c =? 10)
  || (c =? 13) || (c =? 9) || (c =? 0) || (c =? 8232) || (c =? 8233).

(** The letters that may follow a backslash in the output. *)
Definition escape_letter (c : N) : bool :=
  (c =? quote) || (c =? backslash) || (c =? 98) || (c =? 102) || (c =? 110)
  || (c =? 114) || (c =? 116) || (c =? 48) || (c =? 117).

(** A scan of a literal's body: a backslash takes the next code unit
    with it, and a quote is only ever met that way. *)
Fixpoint escapes_ok (body : jsstring) : bool :=
  match body with
  | [] => true
  | c :: rest =>
      if c =? backslash then
        match rest with
        | e :: rest' => escape_letter e && escapes_ok rest'
        | [] => false
        end
      else negb (c =? quote) && escapes_ok rest
  end.

(** Every surrogate of the text is half of a pair: high, then low. *)
Fixpoint surrogates_paired (body : jsstring) : bool :=
  match body with
  | [] => true
  | c :: rest =>
      if is_surrogate c then
        match rest with
        | next :: rest' =>
            is_high_surrogate c && is_low_surrogate next && surrogates_paired rest'
        | [] => false
        end
      else surrogates_paired rest
  end.

Definition upper_hex_digit (c : N) : bool :=
  ((48 <=? c) && (c <=? 57)) || ((65 <=? c) && (c <=? 70)).

(** The escapes the specification lists, written out. *)
Definition listed_escapes : list (N * jsstring) :=
  [ (34, [backslash; quote]); (60, bs "u003C"); (62, bs "u003E"); (47, bs "u002F");
    (92, [backslash; backslash]); (8, bs "b"); (12, bs "f"); (10, bs "n");
    (13, bs "r"); (9, bs "t"); (0, bs "0"); (8232, bs "u2028");
    (8233, bs "u2029") ].

(** What holds of the body of every literal [stringifyString] writes. *)
Definition body_ok (body : jsstring) : Prop :=
  forallb (fun c => negb (raw_unsafe c)) body = true
  /\ escapes_ok body = true
  /\ surrogates_paired body = true.
End Escaping.

(** * The inputs of the scenarios *)

Definition num (z : Z) : value := VNumber (NInt z).

Definition function_prototype : prototype :=
  OtherPrototype false (Some (js "Function")) VUndefined.

Definition function_object (name : jsstring) (call : option value) : object :=
  Object (Function name call) function_prototype [] [].

Definition set_object (members : list value) : object :=
  Object (Set_ members) (OtherPrototype false (Some (js "Set")) VUndefined) [] [].

(** [{a: 1, b: [1, 2, 3]}] *)
Definition scenario_heap : heap :=
  [ plain [(js "a", num 1); (js "b", VObject 1)];
    array [Some (num 1); Some (num 2); Some (num 3)] ].

(** [const s = new Set(); [s, s]] *)
Definition shared_empty_set_heap : heap :=
  [ array [Some (VObject 1); Some (VObject 1)]; set_object [] ].

(** [{ toJSON() { return 1 } }] *)
Definition root_toJSON_heap : heap :=
  [ plain [(js "toJSON", VObject 1)];
    function_object (js "toJSON") (Some (num 1)) ].

(** An array whose [n] elements are all the function at location 1. *)
Definition functions_heap (n : nat) (name : jsstring) (call : option value) : heap :=
  [ array (replicate n (Some (VObject 1))); function_object name call ].

Definition add_emitted (messages : list jsstring) (st : state) : state :=
  State (st_heap st) (counts st) (mapObjToJSON st) (logNum st)
        (emitted st ++ messages) (invoked st).

(** [class Point { x; y }] with both fields the same empty record: an
    instance of a class without [toJSON]. *)
Definition point_prototype : prototype :=
  OtherPrototype false (Some (js "Point")) VUndefined.

Definition custom_record_heap : heap :=
  [ Object Plain point_prototype [(js "x", VObject 1); (js "y", VObject 1)] [];
    plain [] ].

(** [{a: t}] where [t.toJSON()] returns the record [{x: s, y: s}] and [s]
    is an empty record. *)
Definition converting_prototype (toJSON : value) : prototype :=
  OtherPrototype false (Some (js "T")) toJSON.

Definition converted_children_heap : heap :=
  [ plain [(js "a", VObject 1)];
    Object Plain (converting_prototype (VObject 2)) [] [];
    function_object (js "toJSON") (Some (VObject 3));
    plain [(js "x", VObject 4); (js "y", VObject 4)];
    plain [] ].

(** [{a: t, b: t}] where [t.toJSON()] returns the object [converted]; the
    heap goes on with [rest]. *)
Definition converted_twice_heap (converted : object) (rest : heap) : heap :=
  [ plain [(js "a", VObject 1); (js "b", VObject 1)];
    Object Plain (converting_prototype (VObject 2)) [] [];
    function_object (js "toJSON") (Some (VObject 3));
    converted ] ++ rest.

(** * Invariants of the traversal *)

(** [m], run from [st], ends in a state where [J] holds, and where [I]
    holds when it returns. *)
Definition ok_at (I J : state -> Prop) {A : Type} (m : M A) (st : state) : Prop :=
  J (snd (m st)) /\ (forall a, fst (m st) = Returned a -> I (snd (m st))).

(** The values an object refers to: its elements, members or entries, and
    the values of its own properties. *)
Definition children (o : object) : list value :=
  match cls o with
  | Array elements => omap id elements
  | Set_ members => members
  | Map_ entries => flat_map (fun e => [fst e; snd e]) entries
  | _ => []
  end ++ List.map snd (properties o).

(** The value graph of an input: what can be reached from the root. *)
Inductive reachable (h : heap) (root : value) : value -> Prop :=
| reachable_root : reachable h root root
| reachable_child (l : loc) (v : value) :
    reachable h root (VObject l) ->
    In v (children (obj_at h l)) ->
    reachable h root v.

(** No object of the graph takes the [toJSON] branch of [walk]: the
    objects of the default case have no truthy [toJSON] member.  (The
    member is not looked at on the other classes: a date has one.) *)
Definition no_toJSON (h : heap) (root : value) : Prop :=
  forall l, reachable h root (VObject l) ->
            cls (obj_at h l) = Plain ->
            truthy (get_toJSON (obj_at h l)) = false.

(** A two-element array as [Array.from(map)] creates them. *)
Definition is_pair (o : object) : Prop :=
  exists k v, o = array [Some k; Some v].

(** [new Map([[1, {}]])] *)
Definition map_heap : heap :=
  [ Object (Map_ [(num 1, VObject 1)])
           (OtherPrototype false (Some (js "Map")) VUndefined) [] [];
    plain [] ].

(** Every object whose [toJSON] was called was called once, and its
    result is in the cache. *)
Definition converted_once (st : state) : Prop :=
  NoDup (invoked st)
  /\ forall v, In v (invoked st) -> map_has (mapObjToJSON st) v = true.

Definition invoked_once (st : state) : Prop := NoDup (invoked st).

(** * A record that refers to itself *)


(** The shell the wrapper passes for a record, which the statements of
    the wrapper then fill. *)
Definition shell_of (p : prototype) : jsstring :=
  match p with
  | NullPrototype => js "Object.create(null)"
  | _ => js "{}"
  end.


(** * Further definitions: names, keys, diagnostics *)

(** The indices on which the embedding of [getName] follows the code:
    those whose quotient by 54 is below 2^31. *)
Definition name_index_bound : N := (54 * 2 ^ 31)%N.

(** [~~x] for an integer [x] that is not negative: ToInt32, the integer
    taken modulo 2^32 into the signed range. *)
Definition to_int32 (x : N) : Z :=
  ((Z.of_N x + 2 ^ 31) mod 2 ^ 32 - 2 ^ 31)%Z.

(** [getName] with [~~] as the code computes it, wrapping at 32 bits.
    (The quotient by 54 of a double below 2^53 is rounded, but never
    across an integer: its integer part is that of the exact quotient.) *)
Fixpoint getName_wrapping_loop (fuel : nat) (num : N) (name : jsstring) : jsstring :=
  let name' := nth (N.to_nat (num mod 54)) chars 0%N :: name in
  match fuel with
  | O => name'
  | S fuel' =>
      let next := (to_int32 (num / 54) - 1)%Z in
      if (next <? 0)%Z then name'
      else getName_wrapping_loop fuel' (Z.to_N next) name'
  end.

Definition getName_wrapping (num : N) : jsstring :=
  let name := getName_wrapping_loop (N.to_nat (N.size num)) num [] in
  if reserved name then name ++ js "0" else name.

(** The integers a double holds exactly and [String] writes in full. *)
Definition safe_integer (z : Z) : Prop := (Z.abs z <= 2 ^ 53)%Z.

(** The name [getName] builds before it tests for reserved words. *)
Definition getName_base (num : N) : jsstring :=
  getName_loop (N.to_nat (N.size num)) num [].

(** The position of a code unit in [chars] (54 when it is not there). *)
Fixpoint index_in (c : N) (s : jsstring) : N :=
  match s with
  | [] => 0
  | x :: s' => if N.eqb x c then 0 else N.succ (index_in c s')
  end.

(** The number a name stands for in the bijective numeration of base 54
    that [getName] writes: every digit counts from one. *)
Definition name_value (name : jsstring) : N :=
  fold_left (fun acc c => acc * 54 + index_in c chars + 1)%N name 0%N.

(** Does [s] begin with [p]? *)
Fixpoint starts_with (p s : jsstring) : bool :=
  match p, s with
  | [], _ => true
  | x :: p', y :: s' => N.eqb x y && starts_with p' s'
  | _ :: _, [] => false
  end.

(** The diagnostic of line 41, which is handed to consola directly. *)
Definition is_function_message (message : jsstring) : bool :=
  starts_with (js "Cannot stringify a function ") message.

(** The messages that went through [log]. *)
Definition logged (st : state) : list jsstring :=
  filter (fun message => is_function_message message = false) (emitted st).

(** The limiter of lines 31-36 at work: [logNum] counts the logged
    messages and stays within the cap. *)
Definition limited (logLimit : Z) (st : state) : Prop :=
  length (logged st) = logNum st
  /\ (Z.of_nat (logNum st) <= Z.max 0 logLimit)%Z.

(** A [Map] holds no key twice (keys compare by SameValueZero). *)
Fixpoint distinct_keys {V : Type} (m : list (value * V)) : Prop :=
  match m with
  | [] => True
  | (k, _) :: m' => map_has m' k = false /\ distinct_keys m'
  end.

(** * Reading a literal back

    The inverse of the escapes [stringifyString] writes, and of those of
    a quoted key: a backslash announces one of the short escapes or [u]
    and four hexadecimal digits, of either case; every other code unit
    stands for itself. *)
Definition hex_value (d : N) : N :=
  (if d <? 58 then d - 48 else if d <? 71 then d - 55 else d - 87)%N.

Definition short_escape (c : N) : N :=
  (if c =? 98 then 8          (* b *)
   else if c =? 102 then 12   (* f *)
   else if c =? 110 then 10   (* n *)
   else if c =? 114 then 13   (* r *)
   else if c =? 116 then 9    (* t *)
   else if c =? 48 then 0     (* 0 *)
   else c)%N.

Fixpoint unescape (body : jsstring) : jsstring :=
  match body with
  | [] => []
  | c :: rest =>
      if (c =? backslash)%N then
        match rest with
        | [] => []
        | e :: rest' =>
            if (e =? 117)%N then
              match rest' with
              | d3 :: d2 :: d1 :: d0 :: rest'' =>
                  (((hex_value d3 * 16 + hex_value d2) * 16 + hex_value d1) * 16
                   + hex_value d0)%N :: unescape rest''
              | _ => []
              end
            else short_escape e :: unescape rest'
        end
      else c :: unescape rest
  end.

(** * Text without unsafe characters

    [clean s]: none of the characters of the class [unsafeChars] occurs
    in [s].  A symbol brings its description into the output, a regular
    expression its source; a heap is clean when those are. *)
Definition clean (s : jsstring) : bool :=
  forallb (fun c => negb (unsafeChars c)) s.

Definition value_clean (v : value) : bool :=
  match v with
  | VSymbol _ (Some description) => clean description
  | _ => true
  end.

Definition slot_clean (slot : option value) : bool :=
  match slot with
  | Some v => value_clean v
  | None => true
  end.

Definition object_clean (o : object) : bool :=
  match cls o with
  | RegExp text => clean text
  | Array elements => forallb slot_clean elements
  | Set_ members => forallb value_clean members
  | Map_ entries =>
      forallb (fun e : value * value => value_clean (fst e) && value_clean (snd e))
              entries
  | Function _ (Some result) => value_clean result
  | _ => true
  end
  && forallb (fun p : jsstring * value => value_clean (snd p)) (properties o).

Definition heap_clean (h : heap) : bool := forallb object_clean h.

(** Induction on a tree of [JSON.parse], through its lists. *)
Definition json_induction (P : json -> Prop)
    (HNull : P JNull) (HBoolean : forall b, P (JBoolean b))
    (HNumber : forall n, P (JNumber n)) (HString : forall s, P (JString s))
    (HArray : forall items, List.Forall P items -> P (JArray items))
    (HObject : forall members, List.Forall (fun m => P (snd m)) members ->
                               P (JObject members)) : forall j, P j :=
  fix rec (j : json) : P j :=
    match j with
    | JNull => HNull
    | JBoolean b => HBoolean b
    | JNumber n => HNumber n
    | JString s => HString s
    | JArray items =>
        HArray items
          ((fix all (items : list json) : List.Forall P items :=
              match items with
              | [] => @List.Forall_nil _ P
              | x :: xs => @List.Forall_cons _ P x xs (rec x) (all xs)
              end) items)
    | JObject members =>
        HObject members
          ((fix all (members : list (jsstring * json))
              : List.Forall (fun m => P (snd m)) members :=
              match members with
              | [] => @List.Forall_nil _ (fun m => P (snd m))
              | m :: ms => @List.Forall_cons _ (fun m => P (snd m)) m ms (rec (snd m)) (all ms)
              end) members)
    end.

(** The heap is clean, and so are the values a [toJSON] has returned and
    the values counted. *)
Definition state_clean (st : state) : Prop :=
  heap_clean (st_heap st) = true
  /\ (forall k v, In (k, v) (mapObjToJSON st) -> value_clean v = true)
  /\ (forall k c, In (k, c) (counts st) -> value_clean k = true).

(** * Inputs on which the traversal is followed to its end

    A heap is closed when every reference in it is to one of its objects;
    it is free of [toJSON] when no object of the default case has a truthy
    [toJSON] member; its constructors are named when [thing.constructor]
    is there wherever line 119 reads its name. *)
Definition in_range (h : heap) (v : value) : bool :=
  match v with
  | VObject l => l <? length h
  | _ => true
  end.

Definition closed (h : heap) : bool :=
  forallb (fun o => forallb (in_range h) (children o)) h.

Definition toJSON_free (h : heap) : bool :=
  forallb (fun o => match cls o with
                    | Plain => negb (truthy (get_toJSON o))
                    | _ => true
                    end) h.

Definition constructors_named (h : heap) : bool :=
  forallb (fun o => match proto o with
                    | OtherPrototype false None _ => false
                    | _ => true
                    end) h.

(** How many of the objects below [n] the table of counts does not hold. *)
Fixpoint count_unvisited (table : list (value * count)) (n : nat) : nat :=
  match n with
  | O => 0
  | S n' =>
      (if map_has table (VObject n') then 0 else 1) + count_unvisited table n'
  end.

(** An outcome that is not a loop, and a failure only where one may be. *)
Definition fine (may_throw : Prop) {A : Type} (o : outcome A) : Prop :=
  match o with
  | Returned _ => True
  | Thrown => may_throw
  | OutOfFuel => False
  end.

Definition runs (may_throw : Prop) (I : state -> Prop) {A : Type} (m : M A)
    (st : state) : Prop :=
  I (snd (m st)) /\ fine may_throw (fst (m st)).

(** * The order of discovery

    The table of counts keeps its keys in the order [walk] met them.
    [prefix_before table k] is what was counted before [k];
    [height h table k] is how many objects of the input [h] were still
    to be met when [k] was: it goes down along the traversal. *)
Fixpoint prefix_before {V : Type} (m : list (value * V)) (k : value)
    : list (value * V) :=
  match m with
  | [] => []
  | (k', v) :: m' =>
      if same_value_zero k' k then [] else (k', v) :: prefix_before m' k
  end.

Definition height (h : heap) (table : list (value * count)) (k : value) : nat :=
  count_unvisited (prefix_before table k) (length h).

(** The values [walk] goes on to from an object, which are also the
    values [stringify] renders inside it. *)
Definition walked_children (o : object) : list value :=
  match cls o with
  | Array elements => omap id elements
  | Set_ members => members
  | Map_ entries => flat_map (fun e : value * value => [fst e; snd e]) entries
  | Plain => List.map snd (properties o)
  | _ => []
  end.

Fixpoint distinct_names (keys : list jsstring) : bool :=
  match keys with
  | [] => true
  | k :: keys' => negb (existsb (jsstring_eqb k) keys') && distinct_names keys'
  end.

(** Every object is one [walk] follows to its end: no function, and the
    objects of the default case are plain records (the prototype is
    [Object.prototype], [null] or has the standard names) without
    symbolic keys, each key once. *)
Definition traversable (h : heap) : bool :=
  forallb (fun o =>
             match cls o with
             | Function _ _ => false
             | Plain =>
                 match proto o with
                 | OtherPrototype false _ _ => false
                 | _ => true
                 end
                 && match symbols o with [] => true | _ => false end
                 && distinct_names (List.map fst (properties o))
             | _ => true
             end) h.

(** A run that returns, in a state where [Q] holds. *)
Definition ends (Q : state -> Prop) {A : Type} (m : M A) (st : state) : Prop :=
  (exists a, fst (m st) = Returned a) /\ Q (snd (m st)).

(** [c] is counted, as every object is once the traversal has met it. *)
Definition ready (table : list (value * count)) (c : value) : Prop :=
  match c with
  | VObject _ => map_has table c = true
  | _ => True
  end.

(** The child [c] of the object at [X] is either counted twice, so that it
    gets a name, or was met after [X]. *)
Definition child_ok (h : heap) (table : list (value * count)) (X : loc)
    (c : value) : Prop :=
  match c with
  | VObject _ =>
      map_has table (VObject X) = true
      /\ exists m, map_get table c = Some (Some m)
                   /\ (2 <= m \/ height h table c < height h table (VObject X))
  | _ => True
  end.

(** Every count is a number, one at least. *)
Definition positive (table : list (value * count)) : Prop :=
  forall k c, map_get table k = Some c -> exists m, c = Some m /\ 1 <= m.

(** * The state of a traversal under way

    The heap is the input followed by the arrays [Array.from(map)] has
    created; every object counted is in it; the objects counted and not
    in [S] (those [walk] is still inside) are done: their children are
    counted twice or were met after them. *)
Definition pair_of (h : heap) (o : object) : Prop :=
  exists k v, o = array [Some k; Some v]
              /\ in_range h k = true /\ in_range h v = true.

Definition extends_with_pairs (h : heap) (st : state) : Prop :=
  exists fresh, st_heap st = h ++ fresh /\ List.Forall (pair_of h) fresh.

Definition explored (h : heap) (S : list loc) (st : state) : Prop :=
  extends_with_pairs h st
  /\ (forall l, map_has (counts st) (VObject l) = true -> l < length (st_heap st))
  /\ positive (counts st)
  /\ (forall l, l < length h -> map_has (counts st) (VObject l) = true ->
        ~ In l S ->
        forall c, In c (walked_children (obj_at h l)) -> child_ok h (counts st) l c)
  /\ (forall l k v, length h <= l -> map_has (counts st) (VObject l) = true ->
        ~ In l S -> obj_at (st_heap st) l = array [Some k; Some v] ->
        ready (counts st) k /\ ready (counts st) v).

(** The keys a traversal may add while [F] is to be kept: objects of the
    input and arrays created from [b] on. *)
Definition allowed (h : heap) (b : nat) (k : value) : Prop :=
  match k with
  | VObject l => l < length h \/ b <= l
  | _ => True
  end.

Definition stable (h : heap) (b : nat) (F : list (value * count) -> Prop) : Prop :=
  (forall t k m, F t -> map_get t k = Some (Some m) -> F (map_set t k (Some (S m))))
  /\ (forall t k, F t -> map_has t k = false -> allowed h b k ->
                  F (map_set t k (Some 1))).

(** ... with at most [n] objects of the input still to be met, a heap
    that begins with [H0], and a table of which [F] holds. *)
Definition exploring (h : heap) (n : nat) (H0 : heap) (S : list loc)
    (F : list (value * count) -> Prop) (st : state) : Prop :=
  explored h S st
  /\ (exists more, st_heap st = H0 ++ more)
  /\ count_unvisited (counts st) (length h) <= n
  /\ F (counts st).

(** What a call of [walk] on [Y] from the table [t] leaves in [t']. *)
Definition reached (h : heap) (t t' : list (value * count)) (Y : value) : Prop :=
  ready t' Y
  /\ forall X, X < length h -> map_has t (VObject X) = true -> child_ok h t' X Y.

(** * The literal of a record

    What [stringify] writes for an object of the default case without a
    name and with a prototype that is not [null]: between braces, every
    own key as [safeKey] writes it, a colon, and the text of its value. *)
Definition members_text (props : list (jsstring * value)) (texts : list jsstring)
    : list jsstring :=
  zip_with (fun (p : jsstring * value) s => safeKey (fst p) ++ js ":" ++ s) props texts.

Definition record_literal (props : list (jsstring * value)) (texts : list jsstring)
    : jsstring :=
  js "{" ++ join (js ",") (members_text props texts) ++ js "}".

(** The default case of [getType]: what is neither a wrapper, a date, a
    regular expression, an array, a set nor a map; functions are there. *)
Definition default_case (o : object) : bool :=
  match cls o with
  | Function _ _ | Plain => true
  | _ => false
  end.

(** * Functions and the table of counts *)

(** What makes the object a function: its name and what a call returns. *)
Definition function_part (o : object) : option (jsstring * option value) :=
  match cls o with
  | Function name call => Some (name, call)
  | _ => None
  end.

(** No function of the heap returns a function when it is called without
    arguments, as a [toJSON] member is. *)
Definition returns_no_function (h : heap) : bool :=
  forallb (fun o => match cls o with
                    | Function _ (Some result) => negb (typeof_function h result)
                    | _ => true
                    end) h.

(** A traversal of [h] that has counted no function: the functions are
    where they were and what they were, none is a key of [counts], none
    is a conversion kept in [mapObjToJSON]. *)
Definition function_free (h : heap) (st : state) : Prop :=
  (forall l, function_part (obj_at (st_heap st) l) = function_part (obj_at h l))
  /\ (forall k c, In (k, c) (counts st) -> typeof_function h k = false)
  /\ (forall k v, In (k, v) (mapObjToJSON st) -> typeof_function h v = false).

(** * The objects of a traversal *)



(** * Theorems *)

(** ** The string helpers *)

Section StringifyString.
Import Escaping.
Local Open Scope N_scope.

Lemma surrogate_range_check :
  forallb (fun k => let c := 55296 + N.of_nat k in
                    Nat.eqb (length (hex_upper c)) 4
                    && forallb upper_hex_digit (hex_upper c))
          (seq 0 2048) = true.
Proof. vm_compute. reflexivity. Qed.

Lemma hex_upper_surrogate (c : N) :
  is_surrogate c = true ->
  length (hex_upper c) = 4%nat /\ forallb upper_hex_digit (hex_upper c) = true.
Proof.
  unfold is_surrogate. intros H.
  apply andb_prop in H as [Hlo Hhi].
  apply N.leb_le in Hlo, Hhi.
  pose proof surrogate_range_check as Hall.
  rewrite forallb_forall in Hall.
  specialize (Hall (N.to_nat (c - 55296))).
  cbv zeta in Hall.
  replace (55296 + N.of_nat (N.to_nat (c - 55296))) with c in Hall by lia.
  assert (Hin : In (N.to_nat (c - 55296)) (seq 0 2048)).
  { apply in_seq. lia. }
  apply Hall in Hin. apply andb_prop in Hin as [Hlen Hhex].
  apply Nat.eqb_eq in Hlen. auto.
Qed.

(** The four digits of a surrogate are the digits of its code: read as a
    number in base 16 they give the code unit back. *)
Lemma surrogate_hex_range :
  forallb (fun i => match hex_upper (55296 + N.of_nat i) with
                    | [d3; d2; d1; d0] =>
                        ((hex_value d3 * 16 + hex_value d2) * 16 + hex_value d1) * 16
                        + hex_value d0 =? 55296 + N.of_nat i
                    | _ => false
                    end)
          (seq 0 2048) = true.
Proof. vm_compute. reflexivity. Qed.

Lemma hex_upper_surrogate_value (c : N) :
  is_surrogate c = true ->
  exists d3 d2 d1 d0 : N,
    hex_upper c = [d3; d2; d1; d0]
    /\ ((hex_value d3 * 16 + hex_value d2) * 16 + hex_value d1) * 16 + hex_value d0 = c.
Proof.
  unfold is_surrogate. intros [Hlo Hhi]%andb_prop.
  apply N.leb_le in Hlo, Hhi.
  pose proof surrogate_hex_range as H.
  rewrite forallb_forall in H.
  specialize (H (N.to_nat (c - 55296))).
  replace (55296 + N.of_nat (N.to_nat (c - 55296))) with c in H by lia.
  destruct (hex_upper c) as [|d3 [|d2 [|d1 [|d0 [|? ?]]]]];
    try (discriminate H; apply in_seq; lia).
  exists d3, d2, d1, d0. split; [reflexivity|].
  apply N.eqb_eq, H, in_seq. lia.
Qed.

Lemma upper_hex_digit_plain (x : N) :
  upper_hex_digit x = true ->
  raw_unsafe x = false /\ (x =? backslash) = false /\ (x =? quote) = false
  /\ is_surrogate x = false.
Proof.
  unfold upper_hex_digit, raw_unsafe, is_surrogate, backslash, quote.
  intros H.
  assert (Hr : (48 <= x <= 57) \/ (65 <= x <= 70)).
  { apply orb_prop in H as [H|H]; apply andb_prop in H as [H1 H2];
      apply N.leb_le in H1, H2; lia. }
  repeat split.
  - repeat apply orb_false_intro; apply N.eqb_neq; lia.
  - apply N.eqb_neq; lia.
  - apply N.eqb_neq; lia.
  - apply andb_false_iff. left. apply N.leb_gt. lia.
Qed.

Lemma escaped_None (c : N) :
  escaped c = None -> raw_unsafe c = false /\ (c =? backslash) = false.
Proof.
  unfold escaped, raw_unsafe, backslash.
  repeat match goal with
         | |- context [c =? ?k] => destruct (c =? k) eqn:?; [discriminate|]
         end.
  intros _. split; reflexivity.
Qed.

Lemma surrogate_plain (c : N) :
  is_surrogate c = true ->
  raw_unsafe c = false /\ (c =? backslash) = false /\ (c =? quote) = false.
Proof.
  unfold is_surrogate, raw_unsafe, backslash, quote. intros H.
  apply andb_prop in H as [Hlo _]. apply N.leb_le in Hlo.
  repeat split; repeat apply orb_false_intro; apply N.eqb_neq; lia.
Qed.

Lemma low_surrogate_is_surrogate (c : N) :
  is_low_surrogate c = true -> is_surrogate c = true.
Proof.
  unfold is_low_surrogate, is_surrogate. intros H.
  apply andb_prop in H as [H1 H2]. apply N.leb_le in H1, H2.
  apply andb_true_intro; split; apply N.leb_le; lia.
Qed.

Lemma body_ok_hex (c : N) (body : jsstring) :
  is_surrogate c = true -> body_ok body -> body_ok (bs "u" ++ hex_upper c ++ body).
Proof.
  intros Hc (Hraw & Hesc & Hsur).
  destruct (hex_upper_surrogate c Hc) as [Hlen Hhex].
  destruct (hex_upper c) as [|d1 [|d2 [|d3 [|d4 [|]]]]]; try discriminate.
  cbn [forallb] in Hhex.
  repeat (apply andb_prop in Hhex as [?%upper_hex_digit_plain Hhex]).
  repeat match goal with H : _ /\ _ |- _ => destruct H end.
  change (bs "u") with [backslash; 117]. unfold body_ok.
  cbn -[raw_unsafe is_surrogate N.eqb].
  repeat match goal with H : _ = false |- _ => rewrite H end.
  cbn. auto.
Qed.

Lemma body_ok_escaped (c : N) (e body : jsstring) :
  escaped c = Some e -> body_ok body -> body_ok (e ++ body).
Proof.
  unfold escaped. intros He (Hraw & Hesc & Hsur).
  repeat match type of He with
         | context [c =? ?k] =>
             destruct (c =? k); [injection He as <-; unfold body_ok; cbn; auto|]
         end.
  discriminate.
Qed.

Lemma stringifyString_loop_ok (n : nat) :
  forall str : jsstring, (length str <= n)%nat -> body_ok (stringifyString_loop str).
Proof.
  induction n as [|n IH]; intros [|char rest] Hlen; cbn [length] in Hlen;
    try (unfold body_ok; cbn; auto; fail); try lia.
  assert (Hrest : body_ok (stringifyString_loop rest)) by (apply IH; lia).
  cbn [stringifyString_loop].
  destruct (char =? quote) eqn:Hq.
  { destruct Hrest as (Hraw & Hesc & Hsur). unfold body_ok. cbn. auto. }
  destruct (escaped char) as [e|] eqn:He.
  { eapply body_ok_escaped; eauto. }
  apply escaped_None in He as [Hunsafe Hbs].
  destruct (is_surrogate char) eqn:Hs.
  - destruct rest as [|next rest'].
    + now apply body_ok_hex.
    + destruct ((char <=? 56319) && is_low_surrogate next) eqn:Hpair.
      * apply andb_prop in Hpair as [Hhigh Hlow].
        assert (Hrest' : body_ok (stringifyString_loop rest')).
        { apply IH. cbn [length] in Hlen. lia. }
        destruct Hrest' as (Hraw & Hesc & Hsur).
        pose proof (low_surrogate_is_surrogate _ Hlow) as Hns.
        destruct (surrogate_plain _ Hns) as (Hu2 & Hb2 & Hq2).
        assert (Hh : is_high_surrogate char = true).
        { unfold is_high_surrogate. unfold is_surrogate in Hs.
          apply andb_prop in Hs as [-> _]. exact Hhigh. }
        unfold body_ok.
        cbn [forallb escapes_ok surrogates_paired].
        rewrite Hunsafe, Hu2, Hbs, Hb2, Hq, Hq2, Hs, Hh, Hlow. cbn. auto.
      * now apply body_ok_hex.
  - destruct Hrest as (Hraw & Hesc & Hsur). unfold body_ok.
    cbn [forallb escapes_ok surrogates_paired].
    rewrite Hunsafe, Hbs, Hq, Hs. cbn. auto.
Qed.
End StringifyString.

Lemma serialize_string (logLimit : Z) (JSON_parse : jsstring -> option json)
    (fuel : nat) (h : heap) (str : jsstring) :
  serialize logLimit JSON_parse (S fuel) h (VString str)
  = Returned (stringifyString str).
Proof. reflexivity. Qed.

Lemma stringifyString_no_raw_unsafe (str : jsstring) (c : N) :
  In c (stringifyString str) -> Escaping.raw_unsafe c = false.
Proof.
  destruct (stringifyString_loop_ok (length str) str (le_n _)) as (Hraw & _ & _).
  unfold stringifyString. rewrite in_app_iff, in_app_iff.
  rewrite forallb_forall in Hraw.
  intros [[<-|[]]|[Hin|[<-|[]]]]; try reflexivity.
  apply Hraw in Hin. now apply negb_true_iff in Hin.
Qed.

(** C9: a text value is rendered by [stringifyString]: between two double
    quotes, with no angle bracket, slash, listed control character or
    separator left as it is, every quote and backslash of the body part of
    an escape, every surrogate left in the body half of a pair; each listed
    character becomes its escape wherever it stands; a lone surrogate
    becomes a backslash, [u] and four upper-case hexadecimal digits, which
    are the digits of its code: read in base 16 they give the code unit
    back; so no output contains the two characters [</], and the text of
    the string [</script>] is the one displayed. *)
Theorem C9_text_literals_are_escaped :
  forall (logLimit : Z) (JSON_parse : jsstring -> option json) (fuel : nat)
         (h : heap) (str : jsstring),
    serialize logLimit JSON_parse (S fuel) h (VString str)
      = Returned ([quote] ++ stringifyString_loop str ++ [quote])
    /\ Escaping.body_ok (stringifyString_loop str)
    /\ (forall c e rest,
          In (c, e) Escaping.listed_escapes ->
          stringifyString_loop (c :: rest) = e ++ stringifyString_loop rest)
    /\ (forall c rest,
          is_surrogate c = true ->
          is_high_surrogate c
            && match rest with next :: _ => is_low_surrogate next | [] => false end
            = false ->
          stringifyString_loop (c :: rest)
            = bs "u" ++ hex_upper c ++ stringifyString_loop rest
          /\ length (hex_upper c) = 4
          /\ forallb Escaping.upper_hex_digit (hex_upper c) = true
          /\ exists d3 d2 d1 d0 : N,
               hex_upper c = [d3; d2; d1; d0]
               /\ (((hex_value d3 * 16 + hex_value d2) * 16 + hex_value d1) * 16
                   + hex_value d0)%N = c)
    /\ (forall pre post, stringifyString str <> pre ++ js "</" ++ post)
    /\ serialize logLimit JSON_parse (S fuel) h (VString (js "</script>"))
       = Returned ([quote] ++ bs "u003C" ++ bs "u002Fscript" ++ bs "u003E" ++ [quote]).
Proof.
  intros logLimit JSON_parse fuel h str.
  split; [apply serialize_string|].
  split; [apply (stringifyString_loop_ok (length str)); lia|].
  split.
  { intros c e rest Hin. cbn in Hin.
    repeat (destruct Hin as [Hin|Hin]; [injection Hin as <- <-; reflexivity|]).
    destruct Hin. }
  split.
  { intros c rest Hs Hlone.
    split; [|destruct (hex_upper_surrogate c Hs) as [Hlen Hhex];
             split; [exact Hlen|]; split; [exact Hhex|];
             now apply hex_upper_surrogate_value].
    destruct (surrogate_plain c Hs) as (Hu & Hb & Hq).
    cbn [stringifyString_loop]. rewrite Hq.
    assert (He : escaped c = None).
    { unfold escaped. unfold is_surrogate in Hs.
      apply andb_prop in Hs as [Hlo _]. apply N.leb_le in Hlo.
      repeat match goal with
             | |- context [(c =? ?k)%N] => destruct (N.eqb_spec c k) as [->|_]; [lia|]
             end.
      reflexivity. }
    rewrite He. assert (Hs' := Hs). rewrite Hs.
    destruct rest as [|next rest']; [reflexivity|].
    unfold is_high_surrogate in Hlone. unfold is_surrogate in Hs'.
    apply andb_prop in Hs' as [Hlo _]. rewrite Hlo in Hlone. cbn [andb] in Hlone.
    rewrite Hlone. reflexivity. }
  split.
  { intros pre post Heq.
    assert (Hin : In 60%N (stringifyString str)).
    { rewrite Heq. apply in_or_app. right. now left. }
    apply stringifyString_no_raw_unsafe in Hin. discriminate. }
  reflexivity.
Qed.

(** ** Scenarios *)

Example shared_record_binds_one_name :
  forall (logLimit : Z) (JSON_parse : jsstring -> option json) (fuel : nat),
    serialize logLimit JSON_parse (3 + fuel)
              [ plain [(js "p", VObject 1); (js "q", VObject 1)];
                plain [(js "x", num 1)] ]
              (VObject 0)
    = Returned (js "(function(a){a.x=1;return {p:a,q:a}}({}))").
Proof. intros. vm_compute. reflexivity. Qed.

Example sparse_array_keeps_its_hole :
  forall (logLimit : Z) (JSON_parse : jsstring -> option json) (fuel : nat),
    serialize logLimit JSON_parse (2 + fuel)
              [array [Some (num 1); None; Some (num 3)]] (VObject 0)
    = Returned (js "[1,,3]")
    /\ serialize logLimit JSON_parse (2 + fuel)
                 [array [Some (num 1); None]] (VObject 0)
       = Returned (js "[1,,]").
Proof. intros. vm_compute. auto. Qed.

Example numeric_edge_cases :
  forall (logLimit : Z) (JSON_parse : jsstring -> option json) (fuel : nat) (h : heap),
    serialize logLimit JSON_parse (1 + fuel) h (VNumber NNegZero) = Returned (js "-0")
    /\ serialize logLimit JSON_parse (1 + fuel) h VUndefined = Returned (js "void 0")
    /\ strip_leading_zero (js "0.5") = js ".5"
    /\ strip_leading_zero (js "-0.5") = js "-.5".
Proof. intros. vm_compute. auto. Qed.

Example names_follow_counts_then_first_encounter :
  forall (logLimit : Z) (JSON_parse : jsstring -> option json) (fuel : nat),
    serialize logLimit JSON_parse (2 + fuel)
              [array [Some (num 1); Some (num 1); Some (num 2); Some (num 2);
                      Some (num 3); Some (num 2)]] (VObject 0)
    = Returned (js "(function(a,b){return [b,b,a,a,3,a]}(2,1))").
Proof. intros. vm_compute. reflexivity. Qed.

Example reserved_name_gets_a_suffix : getName 230 = js "do0".
Proof. vm_compute. reflexivity. Qed.

(** C3, as the specification states it, fails: whatever the configuration
    and the depth allowed, the text returned for [{a: 1, b: [1, 2, 3]}] is
    not the plain literal. *)
Lemma C3_counterexample :
  ~ exists (logLimit : Z) (JSON_parse : jsstring -> option json) (fuel : nat),
      serialize logLimit JSON_parse fuel scenario_heap (VObject 0)
      = Returned (js "{a:1,b:[1,2,3]}").
Proof.
  intros (logLimit & JSON_parse & fuel & H).
  destruct fuel as [|[|[|fuel]]]; vm_compute in H; discriminate.
Qed.

(** C3 (amended): the number 1 is met twice in [{a: 1, b: [1, 2, 3]}], as
    the value of [a] and as the first element of [b], so the traversal
    counts it twice, it is bound to the name [a], and the text is the
    self-invoking function displayed. *)
Theorem C3_scenario_binds_repeated_number :
  forall (logLimit : Z) (JSON_parse : jsstring -> option json) (fuel : nat),
    let result := devalue logLimit JSON_parse (3 + fuel) scenario_heap (VObject 0) in
    fst result = Returned (js "(function(a){return {a:a,b:[a,2,3]}}(1))")
    /\ map_get (counts (snd result)) (num 1) = Some (Some 2)
    /\ assign_names (counts (snd result)) = [(num 1, js "a")].
Proof.
  intros logLimit JSON_parse fuel. vm_compute. auto.
Qed.

(** C1: the text for an empty set that is met twice is not an expression. *)
Theorem C1_shared_empty_set :
  forall (logLimit : Z) (JSON_parse : jsstring -> option json) (fuel : nat),
    serialize logLimit JSON_parse (2 + fuel) shared_empty_set_heap (VObject 0)
    = Returned (js "(function(a){a.;return [a,a]}(new Set))").
Proof.
  intros logLimit JSON_parse fuel. vm_compute. reflexivity.
Qed.

(** C2: [serialize] does raise.  Whenever the root is an object of the
    default case with a truthy [toJSON], the traversal converts it and then
    writes the result into the parent, which is [undefined] at the root:
    the call ends in a TypeError. *)
Theorem C2_root_with_toJSON_throws :
  forall (logLimit : Z) (JSON_parse : jsstring -> option json) (fuel : nat)
         (h : heap) (l : loc),
    cls (obj_at h l) = Plain ->
    truthy (get_toJSON (obj_at h l)) = true ->
    serialize logLimit JSON_parse (S fuel) h (VObject l) = Thrown.
Proof.
  intros logLimit JSON_parse fuel h l Hcls Htruthy.
  unfold serialize, devalue.
  cbn [walk]. unfold bind at 1. cbn [gets initial_state st_heap].
  unfold typeof_function. rewrite Hcls.
  unfold bind at 1. cbn [gets counts map_has map_get].
  unfold bind at 1. cbn [modify].
  cbn [initial_state counts map_has map_get]. rewrite Htruthy.
  unfold walk_toJSON, splice, bind, modify, gets, ret, throw.
  cbn -[obj_at get_toJSON typeof_function call_toJSON string_text alloc_json assemble].
  destruct (typeof_function h (get_toJSON (obj_at h l)));
    (destruct (call_toJSON h (get_toJSON (obj_at h l))) as [result|]; [|reflexivity]);
    (destruct (string_text h result) as [text|]; [|reflexivity]);
    (destruct (JSON_parse text) as [tree|]; [|reflexivity]);
    destruct (alloc_json tree h); reflexivity.
Qed.

Lemma C2_root_with_toJSON_throws_witness :
  cls (obj_at root_toJSON_heap 0) = Plain
  /\ truthy (get_toJSON (obj_at root_toJSON_heap 0)) = true
  /\ serialize 99 (fun _ => None) 1 root_toJSON_heap (VObject 0) = Thrown.
Proof.
  split; [reflexivity|]. split; [reflexivity|].
  apply (C2_root_with_toJSON_throws 99 (fun _ => None) 0 root_toJSON_heap 0);
    reflexivity.
Defined.


(** ** The traversal: diagnostics *)

Lemma devalue_state (logLimit : Z) (JSON_parse : jsstring -> option json)
    (fuel : nat) (h : heap) (v : value) :
  snd (devalue logLimit JSON_parse fuel h v)
  = snd (walk logLimit JSON_parse fuel v None None None (initial_state h)).
Proof.
  unfold devalue.
  destruct (walk logLimit JSON_parse fuel v None None None (initial_state h))
    as [[u| |] st]; reflexivity.
Qed.

Lemma add_emitted_app (xs ys : list jsstring) (st : state) :
  add_emitted ys (add_emitted xs st) = add_emitted (xs ++ ys) st.
Proof. unfold add_emitted. cbn. now rewrite <- app_assoc. Qed.

Lemma add_emitted_nil (st : state) : add_emitted [] st = st.
Proof. destruct st. unfold add_emitted. cbn. now rewrite app_nil_r. Qed.

(** A function is only reported: the call to consola is all [walk] does. *)
Lemma walk_function (logLimit : Z) (JSON_parse : jsstring -> option json)
    (fuel : nat) (thing : value) (parent : option loc) (key : option jsstring)
    (index : option nat) (st : state) :
  typeof_function (st_heap st) thing = true ->
  walk logLimit JSON_parse (S fuel) thing parent key index st
  = (Returned tt,
     add_emitted [message_function (function_name (st_heap st) thing)] st).
Proof.
  intros H. cbn [walk]. unfold bind at 1. cbn [gets]. rewrite H. reflexivity.
Qed.

Lemma forEach_array_functions (logLimit : Z) (JSON_parse : jsstring -> option json)
    (fuel : nat) (parent : option loc) (key : option jsstring) (l f : loc) (n : nat) :
  forall (i : nat) (st : state),
    typeof_function (st_heap st) (VObject f) = true ->
    (forall j, i <= j < i + n -> array_get (st_heap st) l j = Some (VObject f)) ->
    forEach_array (fun item i => walk logLimit JSON_parse (S fuel) item parent key (Some i))
                  l i n st
    = (Returned tt,
       add_emitted (replicate n (message_function (function_name (st_heap st) (VObject f)))) st).
Proof.
  induction n as [|n IH]; intros i st Hf Hget.
  - cbn. now rewrite add_emitted_nil.
  - cbn [forEach_array]. unfold bind at 1. cbn [gets].
    rewrite (Hget i) by lia.
    unfold bind at 1. rewrite walk_function by exact Hf.
    rewrite IH.
    + cbn [add_emitted st_heap]. rewrite add_emitted_app. reflexivity.
    + exact Hf.
    + intros j Hj. cbn [add_emitted st_heap]. apply Hget. lia.
Qed.

(** C5: the diagnostic of a function does not pass through [log].  An
    array of [n] references to a function makes the call emit [n]
    messages, whatever the cap: 100 of them under the default cap of 99. *)
Theorem C5_function_diagnostics_are_not_capped :
  forall (logLimit : Z) (JSON_parse : jsstring -> option json) (fuel n : nat)
         (name : jsstring) (call : option value),
    emitted (snd (devalue logLimit JSON_parse (2 + fuel)
                          (functions_heap n name call) (VObject 0)))
    = replicate n (message_function name)
    /\ length (emitted (snd (devalue 99 JSON_parse (2 + fuel)
                                     (functions_heap 100 name call) (VObject 0))))
       = 100.
Proof.
  intros logLimit JSON_parse fuel n name call.
  assert (Hgen : forall L m,
             emitted (snd (devalue L JSON_parse (2 + fuel)
                                   (functions_heap m name call) (VObject 0)))
             = replicate m (message_function name)).
  { intros L m. rewrite devalue_state.
    change (2 + fuel) with (S (S fuel)). remember (S fuel) as fuel' eqn:Hfuel.
    cbn [walk]. subst fuel'. unfold bind at 1. cbn [gets initial_state st_heap].
    cbn -[walk forEach_array replicate message_function].
    unfold bind, gets, modify.
    cbn -[walk forEach_array replicate message_function].
    rewrite forEach_array_functions with (f := 1).
    - rewrite length_replicate. reflexivity.
    - reflexivity.
    - intros j Hj. cbn. rewrite length_replicate in Hj.
      unfold array_get. cbn. rewrite lookup_replicate_2 by lia. reflexivity. }
  split; [apply Hgen|].
  rewrite Hgen. apply length_replicate.
Qed.

(** ** Functions in the output *)

(** C4, as the specification states it, fails: the text for [{a: f}],
    [f] a function, is never that of the record without [f]. *)
Lemma C4_counterexample :
  ~ exists (logLimit : Z) (JSON_parse : jsstring -> option json) (fuel : nat),
      serialize logLimit JSON_parse fuel
                [plain [(js "a", VObject 1)]; function_object (js "f") None]
                (VObject 0)
      = Returned (js "{}").
Proof.
  intros (logLimit & JSON_parse & fuel & H).
  destruct fuel as [|[|fuel]]; vm_compute in H; discriminate.
Qed.

(** ** Records of a custom type *)

(** C7, as the specification states it, fails: the traversal does not
    descend into a record of a custom type, its children are never
    counted. *)
Lemma C7_counterexample :
  ~ exists (logLimit : Z) (JSON_parse : jsstring -> option json) (fuel : nat),
      map_has (counts (snd (devalue logLimit JSON_parse fuel
                                    custom_record_heap (VObject 0))))
              (VObject 1) = true.
Proof.
  intros (logLimit & JSON_parse & fuel & H).
  destruct logLimit; destruct fuel as [|[|fuel]]; vm_compute in H; discriminate.
Qed.

(** ** Invariants of the traversal *)

Section WalkInvariant.
Variable logLimit : Z.
Variable JSON_parse : jsstring -> option json.

(** [I] is the invariant, [J] what is left of it when a step throws or
    runs out of fuel, [R] what holds of every value [walk] is called on. *)
Variable I J : state -> Prop.
Variable R : value -> Prop.

Hypothesis I_J : forall st, I st -> J st.
Hypothesis I_frame : forall st st',
  st_heap st' = st_heap st -> mapObjToJSON st' = mapObjToJSON st ->
  invoked st' = invoked st -> I st -> I st'.
Hypothesis I_alloc : forall st k v,
  I st -> R k -> R v -> I (set_heap (st_heap st ++ [array [Some k; Some v]]) st).
Hypothesis R_fresh : forall st, I st -> R (VObject (length (st_heap st))).
Hypothesis R_element : forall st l i item,
  I st -> R (VObject l) -> array_get (st_heap st) l i = Some item -> R item.
Hypothesis R_member : forall st l members item,
  I st -> R (VObject l) -> cls (obj_at (st_heap st) l) = Set_ members ->
  In item members -> R item.
Hypothesis R_entry : forall st l entries k v,
  I st -> R (VObject l) -> cls (obj_at (st_heap st) l) = Map_ entries ->
  In (k, v) entries -> R k /\ R v.
Hypothesis R_property : forall st l key,
  I st -> R (VObject l) -> R (get_property (st_heap st) l key).
Hypothesis I_toJSON : forall l parent key index st,
  I st -> R (VObject l) -> cls (obj_at (st_heap st) l) = Plain ->
  truthy (get_toJSON (obj_at (st_heap st) l)) = true ->
  ok_at I J (walk_toJSON JSON_parse (VObject l) (obj_at (st_heap st) l) parent key index) st.

Lemma ok_at_returned {A : Type} (m : M A) (st : state) (a : A) :
  ok_at I J m st -> fst (m st) = Returned a -> I (snd (m st)).
Proof. intros [_ H]. apply H. Qed.

Lemma ok_at_ret {A : Type} (a : A) (st : state) : I st -> ok_at I J (ret a) st.
Proof. intros HI. split; cbn; auto. Qed.

Lemma ok_at_stop {A : Type} (o : outcome A) (st : state) :
  I st -> ok_at I J (fun st => (o, st)) st.
Proof. intros HI. split; cbn; auto. Qed.

Lemma ok_at_bind {A B : Type} (m : M A) (k : A -> M B) (st : state) :
  ok_at I J m st ->
  (forall a, fst (m st) = Returned a -> ok_at I J (k a) (snd (m st))) ->
  ok_at I J (bind m k) st.
Proof.
  intros [HJ HI] Hk. unfold ok_at, bind.
  destruct (m st) as [[a| |] st1] eqn:E; cbn in *.
  - apply (Hk a eq_refl).
  - split; [exact HJ | discriminate].
  - split; [exact HJ | discriminate].
Qed.

Lemma ok_at_gets {A B : Type} (f : state -> A) (k : A -> M B) (st : state) :
  ok_at I J (k (f st)) st -> ok_at I J (bind (gets f) k) st.
Proof. exact (fun H => H). Qed.

Lemma ok_at_modify {B : Type} (g : state -> state) (k : unit -> M B) (st : state) :
  ok_at I J (k tt) (g st) -> ok_at I J (bind (modify g) k) st.
Proof. exact (fun H => H). Qed.

Lemma ok_at_consola (message : jsstring) (st : state) :
  I st -> ok_at I J (consola message) st.
Proof.
  intros HI. assert (I (snd (consola message st))).
  { eapply I_frame; [| | |exact HI]; reflexivity. }
  split; auto.
Qed.

Lemma ok_at_log (message : jsstring) (st : state) :
  I st -> ok_at I J (log logLimit message) st.
Proof.
  intros HI. unfold log. apply ok_at_gets.
  destruct (Z.of_nat (logNum st) <? logLimit)%Z; [|now apply ok_at_ret].
  assert (I (snd (bind (consola message)
                       (fun _ => modify (fun st => State (st_heap st) (counts st)
                          (mapObjToJSON st) (S (logNum st)) (emitted st) (invoked st))) st))).
  { eapply I_frame; [| | |exact HI]; reflexivity. }
  split; auto.
Qed.

Lemma ok_at_forEach {A : Type} (f : A -> M unit) (xs : list A) :
  (forall x st, In x xs -> I st -> ok_at I J (f x) st) ->
  forall st, I st -> ok_at I J (forEach f xs) st.
Proof.
  induction xs as [|x xs IH]; intros Hf st HI; cbn [forEach].
  - now apply ok_at_ret.
  - apply ok_at_bind.
    + apply Hf; [now left | exact HI].
    + intros [] Hret. apply IH.
      * intros y st' Hy. apply Hf. now right.
      * exact (ok_at_returned _ _ _ (Hf x st (or_introl eq_refl) HI) Hret).
Qed.

Lemma ok_at_forEach_array (f : value -> nat -> M unit) (l : loc) (n : nat) :
  (forall item i st, array_get (st_heap st) l i = Some item -> I st ->
                     ok_at I J (f item i) st) ->
  forall i st, I st -> ok_at I J (forEach_array f l i n) st.
Proof.
  intros Hf. induction n as [|n IH]; intros i st HI; cbn [forEach_array].
  - now apply ok_at_ret.
  - apply ok_at_gets.
    destruct (array_get (st_heap st) l i) as [item|] eqn:E.
    + apply ok_at_bind.
      * now apply Hf.
      * intros [] Hret. apply IH.
        exact (ok_at_returned _ _ _ (Hf item i st E HI) Hret).
    + now apply IH.
Qed.

Lemma ok_at_forEach_key (f : value -> jsstring -> M unit) (l : loc)
    (keys : list jsstring) :
  (forall key st, I st -> ok_at I J (f (get_property (st_heap st) l key) key) st) ->
  forall st, I st -> ok_at I J (forEach_key f l keys) st.
Proof.
  intros Hf. induction keys as [|key keys IH]; intros st HI; cbn [forEach_key].
  - now apply ok_at_ret.
  - apply ok_at_gets. apply ok_at_bind.
    + now apply Hf.
    + intros [] Hret. apply IH.
      exact (ok_at_returned _ _ _ (Hf key st HI) Hret).
Qed.

Lemma ok_at_modify_end (g : state -> state) (st : state) :
  I (g st) -> ok_at I J (modify g) st.
Proof. intros HI. split; cbn; auto. Qed.

Lemma alloc_pairs_ok (entries : list (value * value)) :
  forall st, I st -> (forall k v, In (k, v) entries -> R k /\ R v) ->
    exists items, fst (alloc_pairs entries st) = Returned items
                  /\ I (snd (alloc_pairs entries st))
                  /\ Forall R items.
Proof.
  induction entries as [|[k v] entries IH]; intros st HI HR.
  - exists []. cbn. auto.
  - destruct (HR k v (or_introl eq_refl)) as [Rk Rv].
    pose proof (I_alloc st k v HI Rk Rv) as HI'.
    destruct (IH _ HI' (fun k' v' H => HR k' v' (or_intror H)))
      as (items & Hret & HIs & HRs).
    exists (VObject (length (st_heap st)) :: items).
    cbn [alloc_pairs]. unfold bind, gets, modify, ret.
    change (set_heap (st_heap st ++ [array [Some k; Some v]]) st)
      with (set_heap (st_heap st ++ [array [Some k; Some v]]) st) in *.
    destruct (alloc_pairs entries (set_heap _ st)) as [[items'| |] st'] eqn:E;
      cbn in Hret, HIs; try discriminate.
    injection Hret as ->. cbn. split; [reflexivity|]. split; [exact HIs|].
    constructor; [now apply R_fresh | exact HRs].
Qed.

Lemma walk_ok (fuel : nat) :
  forall thing parent key index st,
    I st -> R thing ->
    ok_at I J (walk logLimit JSON_parse fuel thing parent key index) st.
Proof.
  induction fuel as [|fuel IH]; intros thing parent key index st HI HR.
  { now apply ok_at_stop. }
  cbn [walk]. apply ok_at_gets.
  destruct (typeof_function (st_heap st) thing) eqn:Hty.
  { now apply ok_at_consola. }
  apply ok_at_gets.
  assert (Hcounts : forall c, I (set_counts c st)).
  { intros c. eapply I_frame; [| | |exact HI]; reflexivity. }
  destruct (map_has (counts st) thing).
  { apply ok_at_modify_end. apply Hcounts. }
  apply ok_at_modify.
  set (st1 := set_counts _ st). assert (HI1 : I st1) by apply Hcounts.
  destruct thing as [| | | | | | |l]; try (now apply ok_at_ret).
  change (st_heap st) with (st_heap st1).
  destruct (cls (obj_at (st_heap st1) l)) eqn:Hcls; try (now apply ok_at_ret).
  - unfold typeof_function in Hty. change (st_heap st) with (st_heap st1) in Hty.
    rewrite Hcls in Hty. discriminate.
  - apply ok_at_forEach_array; [|exact HI1].
    intros item i st' Hget HI'. apply IH; [exact HI'|].
    exact (R_element st' l i item HI' HR Hget).
  - apply ok_at_forEach; [|exact HI1].
    intros item st' Hin HI'. apply IH; [exact HI'|].
    exact (R_member st1 l members item HI1 HR Hcls Hin).
  - destruct (alloc_pairs_ok entries st1 HI1) as (items & Hret & HIs & HRs).
    { intros k v Hin. exact (R_entry st1 l entries k v HI1 HR Hcls Hin). }
    apply ok_at_bind.
    + split; [now apply I_J | intros; exact HIs].
    + intros items' Hret'. rewrite Hret in Hret'. injection Hret' as <-.
      apply ok_at_forEach; [|exact HIs].
      intros item st' Hin HI'. apply IH; [exact HI'|].
      rewrite Forall_forall in HRs. apply HRs. now apply list_elem_of_In.
  - destruct (truthy (get_toJSON (obj_at (st_heap st1) l))) eqn:Htj.
    { now apply I_toJSON. }
    unfold walk_object.
    destruct (proto (obj_at (st_heap st1) l)) as [| |[|] [name|] inherited];
      try (now apply ok_at_log); try (now apply ok_at_stop);
      (destruct (symbols (obj_at (st_heap st1) l)); [|now apply ok_at_log];
       apply ok_at_forEach_key; [|exact HI1];
       intros k st' HI'; apply IH; [exact HI'|]; now apply R_property).
Qed.
End WalkInvariant.

(** ** The input is left as it is *)

Section Frame.
Variable logLimit : Z.
Variable JSON_parse : jsstring -> option json.
Variable h : heap.
Variable root : value.
Hypothesis Hno : no_toJSON h root.

(** A value is in the graph, or it is one of the fresh arrays. *)
Let in_graph (v : value) : Prop :=
  match v with
  | VObject l => l < length h -> reachable h root (VObject l)
  | _ => True
  end.

(** The heap is the input followed by fresh pairs of values of the graph. *)
Let extends (st : state) : Prop :=
  exists fresh,
    st_heap st = h ++ fresh
    /\ Forall (fun o => exists k v, o = array [Some k; Some v]
                                    /\ in_graph k /\ in_graph v) fresh.

Lemma in_graph_child (l : loc) (v : value) :
  l < length h -> in_graph (VObject l) -> In v (children (obj_at h l)) -> in_graph v.
Proof.
  intros Hl Hreach Hin. destruct v; cbn; auto.
  intros _. eapply reachable_child; [exact (Hreach Hl) | exact Hin].
Qed.

Lemma extends_obj_at (st : state) (l : loc) :
  extends st ->
  (l < length h /\ obj_at (st_heap st) l = obj_at h l)
  \/ (length h <= l /\ obj_at (st_heap st) l = plain [])
  \/ (length h <= l /\ exists k v, obj_at (st_heap st) l = array [Some k; Some v]
                                    /\ in_graph k /\ in_graph v).
Proof.
  intros (fresh & Hheap & Hfresh). unfold obj_at. rewrite Hheap.
  destruct (Nat.lt_ge_cases l (length h)) as [Hlt|Hge].
  - left. split; [exact Hlt|]. now rewrite lookup_app_l.
  - right. rewrite lookup_app_r by exact Hge.
    destruct (fresh !! (l - length h)) as [o|] eqn:E.
    + right. split; [exact Hge|]. rewrite Forall_forall in Hfresh.
      apply (Hfresh o). eapply list_elem_of_lookup_2. exact E.
    + left. auto.
Qed.

Lemma extends_frame (st st' : state) :
  st_heap st' = st_heap st -> mapObjToJSON st' = mapObjToJSON st ->
  invoked st' = invoked st -> extends st -> extends st'.
Proof. intros Hh _ _ (fresh & Hheap & Hfresh). exists fresh. now rewrite Hh. Qed.

Lemma extends_alloc (st : state) (k v : value) :
  extends st -> in_graph k -> in_graph v ->
  extends (set_heap (st_heap st ++ [array [Some k; Some v]]) st).
Proof.
  intros (fresh & Hheap & Hfresh) Hk Hv.
  exists (fresh ++ [array [Some k; Some v]]). cbn. split.
  - now rewrite Hheap, app_assoc.
  - apply Forall_app. split; [exact Hfresh|]. constructor; [|constructor].
    exists k, v. auto.
Qed.

Lemma in_graph_fresh (st : state) :
  extends st -> in_graph (VObject (length (st_heap st))).
Proof.
  intros (fresh & Hheap & _). cbn. rewrite Hheap, length_app. lia.
Qed.

Lemma in_graph_element (st : state) (l i : nat) (item : value) :
  extends st -> in_graph (VObject l) ->
  array_get (st_heap st) l i = Some item -> in_graph item.
Proof.
  intros Hext Hl Hget. unfold array_get in Hget.
  destruct (extends_obj_at st l Hext)
    as [[Hlt Hobj] | [[Hge Hobj] | [Hge (k & v & Hobj & Hk & Hv)]]];
    rewrite Hobj in Hget.
  - apply (in_graph_child l item Hlt Hl). unfold children.
    destruct (cls (obj_at h l)); try discriminate.
    apply in_or_app. left. apply list_elem_of_In. apply list_elem_of_omap.
    exists (Some item). split; [|reflexivity].
    destruct (elements !! i) as [slot|] eqn:E; cbn in Hget; [|discriminate].
    subst slot. eapply list_elem_of_lookup_2. exact E.
  - discriminate.
  - cbn in Hget. destruct i as [|[|i]]; cbn in Hget; try discriminate;
      injection Hget as <-; assumption.
Qed.

Lemma in_graph_member (st : state) (l : nat) (members : list value) (item : value) :
  extends st -> in_graph (VObject l) ->
  cls (obj_at (st_heap st) l) = Set_ members -> In item members -> in_graph item.
Proof.
  intros Hext Hl Hcls Hin.
  destruct (extends_obj_at st l Hext)
    as [[Hlt Hobj] | [[Hge Hobj] | [Hge (k & v & Hobj & Hk & Hv)]]];
    rewrite Hobj in Hcls; try discriminate.
  apply (in_graph_child l item Hlt Hl). unfold children. rewrite Hcls.
  apply in_or_app. now left.
Qed.

Lemma in_graph_entry (st : state) (l : nat) (entries : list (value * value))
    (k v : value) :
  extends st -> in_graph (VObject l) ->
  cls (obj_at (st_heap st) l) = Map_ entries -> In (k, v) entries ->
  in_graph k /\ in_graph v.
Proof.
  intros Hext Hl Hcls Hin.
  destruct (extends_obj_at st l Hext)
    as [[Hlt Hobj] | [[Hge Hobj] | [Hge (k' & v' & Hobj & Hk & Hv)]]];
    rewrite Hobj in Hcls; try discriminate.
  assert (Hsub : forall x, In x [k; v] -> In x (children (obj_at h l))).
  { intros x Hx. unfold children. rewrite Hcls. apply in_or_app. left.
    apply in_flat_map. exists (k, v). auto. }
  split; apply (in_graph_child l _ Hlt Hl); apply Hsub; cbn; auto.
Qed.

Lemma assoc_In (props : list (jsstring * value)) (key : jsstring) (v : value) :
  assoc props key = Some v -> In v (List.map snd props).
Proof.
  induction props as [|[k w] props IH]; cbn; [discriminate|].
  destruct (jsstring_eqb k key); [intros [= ->]; now left | auto].
Qed.

Lemma in_graph_property (st : state) (l : nat) (key : jsstring) :
  extends st -> in_graph (VObject l) -> in_graph (get_property (st_heap st) l key).
Proof.
  intros Hext Hl. unfold get_property.
  destruct (extends_obj_at st l Hext)
    as [[Hlt Hobj] | [[Hge Hobj] | [Hge (k & v & Hobj & Hk & Hv)]]];
    rewrite Hobj; try exact Logic.I.
  destruct (assoc (properties (obj_at h l)) key) as [v|] eqn:E; [|exact Logic.I].
  apply (in_graph_child l v Hlt Hl). unfold children.
  apply in_or_app. right. eapply assoc_In. exact E.
Qed.

Lemma extends_no_toJSON (l : nat) (parent : option nat) (key : option jsstring)
    (index : option nat) (st : state) :
  extends st -> in_graph (VObject l) ->
  cls (obj_at (st_heap st) l) = Plain ->
  truthy (get_toJSON (obj_at (st_heap st) l)) = true ->
  ok_at extends extends
        (walk_toJSON JSON_parse (VObject l) (obj_at (st_heap st) l) parent key index) st.
Proof.
  intros Hext Hl Hcls Htj. exfalso.
  destruct (extends_obj_at st l Hext)
    as [[Hlt Hobj] | [[Hge Hobj] | [Hge (k & v & Hobj & Hk & Hv)]]];
    rewrite Hobj in Hcls, Htj; try discriminate.
  rewrite (Hno l (Hl Hlt) Hcls) in Htj. discriminate.
Qed.

Lemma walk_extends (fuel : nat) (parent : option nat) (key : option jsstring)
    (index : option nat) :
  extends (snd (walk logLimit JSON_parse fuel root parent key index (initial_state h))).
Proof.
  assert (Hinit : extends (initial_state h)).
  { exists []. cbn. split; [now rewrite app_nil_r | constructor]. }
  assert (Hroot : in_graph root).
  { destruct root; cbn; auto. intros _. constructor. }
  exact (proj1 (walk_ok logLimit JSON_parse extends extends in_graph
                  (fun st H => H) extends_frame extends_alloc in_graph_fresh
                  in_graph_element in_graph_member in_graph_entry
                  in_graph_property extends_no_toJSON
                  fuel root parent key index (initial_state h) Hinit Hroot)).
Qed.
End Frame.

(** C10: when no object of the input graph takes the [toJSON] branch, a
    call leaves the input as it was, however it ends (a text, an
    exception, or the depth allowed exhausted): the heap it leaves is the
    input heap followed by the two-element arrays that [Array.from] made of
    the entries of maps, so every object of the input is where it was,
    with the same elements, entries and properties. *)
Theorem C10_input_is_not_modified :
  forall (logLimit : Z) (JSON_parse : jsstring -> option json) (fuel : nat)
         (h : heap) (root : value),
    no_toJSON h root ->
    let final := st_heap (snd (devalue logLimit JSON_parse fuel h root)) in
    (exists fresh, final = h ++ fresh /\ Forall is_pair fresh)
    /\ (forall l o, h !! l = Some o -> final !! l = Some o).
Proof.
  intros logLimit JSON_parse fuel h root Hno final.
  assert (H : exists fresh, final = h ++ fresh /\ Forall is_pair fresh).
  { subst final. rewrite devalue_state.
    destruct (walk_extends logLimit JSON_parse h root Hno fuel None None None)
      as (fresh & Hheap & Hfresh).
    exists fresh. split; [exact Hheap|].
    eapply Forall_impl; [exact Hfresh|].
    intros o (k & v & -> & _). now exists k, v. }
  split; [exact H|].
  destruct H as (fresh & -> & _). intros l o Hl.
  rewrite lookup_app_l; [exact Hl | now apply lookup_lt_Some in Hl].
Qed.

Lemma map_heap_no_toJSON : no_toJSON map_heap (VObject 0).
Proof. intros l _ _. destruct l as [|[|l]]; reflexivity. Qed.

Lemma C10_input_is_not_modified_witness :
  no_toJSON map_heap (VObject 0)
  /\ let final := st_heap (snd (devalue 99 (fun _ => None) 4 map_heap (VObject 0))) in
     (exists fresh, final = map_heap ++ fresh /\ Forall is_pair fresh)
     /\ (forall l o, map_heap !! l = Some o -> final !! l = Some o).
Proof.
  split; [exact map_heap_no_toJSON|].
  exact (C10_input_is_not_modified 99 (fun _ => None) 4 map_heap (VObject 0)
           map_heap_no_toJSON).
Defined.

(** ** Conversion by [toJSON] *)

Lemma jsstring_eqb_refl (s : jsstring) : jsstring_eqb s s = true.
Proof. induction s as [|c s IH]; cbn; [reflexivity|]. now rewrite N.eqb_refl. Qed.

Lemma value_eqb_refl (v : value) : value_eqb v v = true.
Proof.
  destruct v as [| |b|n|s|id d|z|l]; cbn; auto using jsstring_eqb_refl,
    Nat.eqb_refl, Z.eqb_refl.
  - now destruct b.
  - destruct n; cbn; auto using Z.eqb_refl.
Qed.

Lemma norm_key_idem (v : value) : norm_key (norm_key v) = norm_key v.
Proof. destruct v as [| | |[]| | | |]; reflexivity. Qed.

Lemma same_value_zero_norm (k : value) : same_value_zero (norm_key k) k = true.
Proof. unfold same_value_zero. rewrite norm_key_idem. apply value_eqb_refl. Qed.

Lemma map_has_set_same {V : Type} (m : list (value * V)) (k : value) (v : V) :
  map_has (map_set m k v) k = true.
Proof.
  unfold map_has. induction m as [|[k' v'] m IH]; cbn.
  - now rewrite same_value_zero_norm.
  - destruct (same_value_zero k' k) eqn:E; cbn; rewrite E; [reflexivity|exact IH].
Qed.

Lemma map_has_set_other {V : Type} (m : list (value * V)) (k k' : value) (v : V) :
  map_has m k' = true -> map_has (map_set m k v) k' = true.
Proof.
  unfold map_has. induction m as [|[k0 v0] m IH]; cbn; [discriminate|].
  destruct (same_value_zero k0 k) eqn:E; cbn;
    destruct (same_value_zero k0 k'); auto.
Qed.

Lemma converted_once_fresh (st : state) (thing : value) :
  converted_once st -> map_get (mapObjToJSON st) thing = None ->
  ~ In thing (invoked st).
Proof.
  intros [_ Hcache] Hget Hin. apply Hcache in Hin.
  unfold map_has in Hin. rewrite Hget in Hin. discriminate.
Qed.

Lemma converted_once_frame (st st' : state) :
  mapObjToJSON st' = mapObjToJSON st ->
  invoked st' = invoked st -> converted_once st -> converted_once st'.
Proof. intros Hm Hi. unfold converted_once. now rewrite Hm, Hi. Qed.

Lemma converted_once_cached (st : state) (thing converted : value)
    (h : heap) (c : list (value * count)) (n : nat) (e : list jsstring) :
  converted_once st ->
  converted_once (State h c (map_set (mapObjToJSON st) thing converted) n e
                        (invoked st)).
Proof.
  intros [Hnd Hcache]. split; [exact Hnd|]. cbn.
  intros v Hin. apply map_has_set_other. now apply Hcache.
Qed.

Lemma converted_once_invoked (st : state) (thing converted : value)
    (h : heap) (c : list (value * count)) (n : nat) (e : list jsstring) :
  converted_once st -> ~ In thing (invoked st) ->
  converted_once (State h c (map_set (mapObjToJSON st) thing converted) n e
                        (invoked st ++ [thing])).
Proof.
  intros [Hnd Hcache] Hnotin. split; cbn.
  - apply NoDup_app. repeat split; auto.
    + intros x Hx [<-|[]]%list_elem_of_In. apply Hnotin. now apply list_elem_of_In.
    + apply NoDup_singleton.
  - intros v [Hin|[<-|[]]]%in_app_or.
    + apply map_has_set_other. now apply Hcache.
    + apply map_has_set_same.
Qed.

Lemma invoked_once_invoked (st : state) (thing : value)
    (h : heap) (c : list (value * count)) (m : list (value * value)) (n : nat)
    (e : list jsstring) :
  converted_once st -> ~ In thing (invoked st) ->
  invoked_once (State h c m n e (invoked st ++ [thing])).
Proof.
  intros [Hnd _] Hnotin. unfold invoked_once. cbn.
  apply NoDup_app. repeat split; auto.
  - intros x Hx [<-|[]]%list_elem_of_In. apply Hnotin. now apply list_elem_of_In.
  - apply NoDup_singleton.
Qed.

Lemma splice_converted_once (parent : option nat) (key : option jsstring)
    (index : option nat) (converted : value) (st : state) :
  converted_once st ->
  ok_at converted_once invoked_once (splice parent key index converted) st.
Proof.
  intros HI. assert (HJ : invoked_once st) by apply HI.
  assert (Hheap : forall h', converted_once (set_heap h' st)).
  { intros h'. eapply converted_once_frame; [| |exact HI]; reflexivity. }
  unfold splice, ok_at, bind, gets, modify, throw.
  destruct parent as [p|]; [|cbn; split; [exact HJ|discriminate]].
  destruct index as [i|]; cbn.
  - destruct (put_index _ _ i converted) as [h'|]; cbn.
    + split; [apply Hheap | intros; apply Hheap].
    + split; [exact HJ|discriminate].
  - split; [apply Hheap | intros; apply Hheap].
Qed.

Lemma walk_toJSON_converted_once (JSON_parse : jsstring -> option json)
    (l : nat) (parent : option nat) (key : option jsstring) (index : option nat)
    (st : state) :
  converted_once st -> True -> cls (obj_at (st_heap st) l) = Plain ->
  truthy (get_toJSON (obj_at (st_heap st) l)) = true ->
  ok_at converted_once invoked_once
        (walk_toJSON JSON_parse (VObject l) (obj_at (st_heap st) l) parent key index) st.
Proof.
  intros HI _ _ _. unfold walk_toJSON.
  apply ok_at_modify. apply ok_at_gets.
  set (st1 := set_counts _ st).
  assert (HI1 : converted_once st1).
  { eapply converted_once_frame; [| |exact HI]; reflexivity. }
  change (mapObjToJSON st1) with (mapObjToJSON st).
  destruct (map_get (mapObjToJSON st) (VObject l)) as [converted|] eqn:Hget.
  - (* the cached result *)
    unfold bind at 1, bind at 1, modify, ret.
    apply splice_converted_once.
    eapply converted_once_frame; [| |exact HI]; reflexivity.
  - (* the first conversion *)
    pose proof (converted_once_fresh st (VObject l) HI Hget) as Hnotin.
    set (o := obj_at (st_heap st) l).
    unfold ok_at, bind, gets, modify, ret, throw. cbn [st_heap st1 set_counts].
    destruct (typeof_function (st_heap st) (get_toJSON o));
      (destruct (call_toJSON (st_heap st) (get_toJSON o)) as [result|];
       [|cbn; split; [|discriminate];
         first [apply HI | exact (invoked_once_invoked st _ _ _ _ _ _ HI Hnotin)]]);
      (destruct (string_text (st_heap st) result) as [text|];
       [destruct (JSON_parse text) as [tree|];
        [destruct (alloc_json tree (st_heap st)) as [v h']|]|]);
      cbn -[splice];
      match goal with
      | |- context [splice parent key index ?c ?s] =>
          change (ok_at converted_once invoked_once (splice parent key index c) s);
          apply splice_converted_once;
          first [ exact (converted_once_invoked st _ _ _ _ _ _ HI Hnotin)
                | exact (converted_once_cached st _ _ _ _ _ _ HI) ]
      end.
Qed.



Lemma walk_invoked_once (logLimit : Z) (JSON_parse : jsstring -> option json)
    (fuel : nat) (h : heap) (root : value) :
  NoDup (invoked (snd (walk logLimit JSON_parse fuel root None None None
                            (initial_state h)))).
Proof.
  assert (Hinit : converted_once (initial_state h)).
  { split; cbn; [constructor | intros v []]. }
  assert (HJ : forall st, converted_once st -> invoked_once st).
  { intros st [H _]. exact H. }
  assert (Hframe : forall st st', st_heap st' = st_heap st ->
            mapObjToJSON st' = mapObjToJSON st -> invoked st' = invoked st ->
            converted_once st -> converted_once st').
  { intros st st' _. apply converted_once_frame. }
  assert (Halloc : forall st k v, converted_once st -> True -> True ->
            converted_once (set_heap (st_heap st ++ [array [Some k; Some v]]) st)).
  { intros st k v HI _ _. eapply converted_once_frame; [| |exact HI]; reflexivity. }
  exact (proj1 (walk_ok logLimit JSON_parse converted_once invoked_once
                  (fun _ => True) HJ Hframe Halloc
                  (fun _ _ => Logic.I) (fun _ _ _ _ _ _ _ => Logic.I)
                  (fun _ _ _ _ _ _ _ _ => Logic.I)
                  (fun _ _ _ _ _ _ _ _ _ => conj Logic.I Logic.I)
                  (fun _ _ _ _ _ => Logic.I)
                  (walk_toJSON_converted_once JSON_parse)
                  fuel root None None None (initial_state h) Hinit Logic.I)).
Qed.

(** C6, as the specification states it, fails: the children of a
    converted result are not counted. *)
Lemma C6_counterexample :
  ~ exists (logLimit : Z) (JSON_parse : jsstring -> option json) (fuel : nat),
      map_has (counts (snd (devalue logLimit JSON_parse fuel
                                    converted_children_heap (VObject 0))))
              (VObject 4) = true.
Proof.
  intros (logLimit & JSON_parse & fuel & H).
  destruct fuel as [|[|[|fuel]]]; vm_compute in H; discriminate.
Qed.

(** C6 (amended): during the traversal the [toJSON] of an object is called
    at most once, for every input; an object met again is looked up in the
    cache and the count of its converted result goes up by one.  The
    converted result is entered in the count table but not traversed: for
    [{a: t, b: t}], where [t.toJSON()] returns any object [converted]
    (other than a string wrapper), the table ends with the root once and
    the result twice and nothing else, whatever [converted] refers to, and
    both properties of the root hold the result. *)
Theorem C6_conversion_is_cached_not_traversed :
  forall (logLimit : Z) (JSON_parse : jsstring -> option json) (fuel : nat)
         (h : heap) (root : value) (converted : object) (rest : heap),
    (forall s, cls converted <> BoxedString s) ->
    NoDup (invoked (snd (devalue logLimit JSON_parse fuel h root)))
    /\ snd (devalue logLimit JSON_parse (2 + fuel)
                    (converted_twice_heap converted rest) (VObject 0))
       = State (plain [(js "a", VObject 3); (js "b", VObject 3)]
                  :: List.tl (converted_twice_heap converted rest))
               [(VObject 0, Some 1); (VObject 3, Some 2)]
               [(VObject 1, VObject 3)]
               0 [] [VObject 1].
Proof.
  intros logLimit JSON_parse fuel h root converted rest Hnot.
  split.
  - rewrite devalue_state. apply walk_invoked_once.
  - rewrite devalue_state.
    destruct converted as [c p props syms]. cbn in Hnot.
    destruct c; try (now destruct (Hnot s)); vm_compute; reflexivity.
Qed.

Lemma C6_conversion_is_cached_not_traversed_witness :
  (forall s, cls (plain [(js "x", VObject 4); (js "y", VObject 4)]) <> BoxedString s)
  /\ NoDup (invoked (snd (devalue 99 (fun _ => None) 1 converted_children_heap (VObject 0))))
  /\ snd (devalue 99 (fun _ => None) 3
                  (converted_twice_heap (plain [(js "x", VObject 4); (js "y", VObject 4)])
                                        [plain []])
                  (VObject 0))
     = State (plain [(js "a", VObject 3); (js "b", VObject 3)]
                :: List.tl (converted_twice_heap
                              (plain [(js "x", VObject 4); (js "y", VObject 4)])
                              [plain []]))
             [(VObject 0, Some 1); (VObject 3, Some 2)]
             [(VObject 1, VObject 3)]
             0 [] [VObject 1].
Proof.
  split; [intros s; discriminate|].
  exact (C6_conversion_is_cached_not_traversed 99 (fun _ => None) 1
           converted_children_heap (VObject 0)
           (plain [(js "x", VObject 4); (js "y", VObject 4)]) [plain []]
           (fun s => ltac:(discriminate))).
Defined.

(** ** Tables of counts and names *)

Lemma jsstring_eqb_eq (a b : jsstring) : jsstring_eqb a b = true -> a = b.
Proof.
  revert b. induction a as [|x a IH]; intros [|y b]; cbn; try discriminate; auto.
  intros [Hxy Hab]%andb_prop. apply N.eqb_eq in Hxy. f_equal; auto.
Qed.

Lemma same_value_zero_object (k : value) (l : nat) :
  same_value_zero k (VObject l) = true -> k = VObject l.
Proof.
  unfold same_value_zero. destruct k as [| | |[]| | | |l']; cbn; try discriminate.
  intros H. apply Nat.eqb_eq in H. now subst.
Qed.

Lemma assoc_entry (ps : list (jsstring * value)) (key : jsstring) (v : value) :
  assoc ps key = Some v -> In (key, v) ps.
Proof.
  induction ps as [|[k w] ps IH]; cbn; [discriminate|].
  destruct (jsstring_eqb k key) eqn:E; [|auto].
  intros [= ->]. left. now rewrite (jsstring_eqb_eq _ _ E).
Qed.

Lemma insert_by_count_In (e x : value * count) (sorted : list (value * count)) :
  In x (insert_by_count e sorted) <-> x = e \/ In x sorted.
Proof.
  induction sorted as [|y sorted IH]; cbn.
  - intuition congruence.
  - destruct (count_of y <=? count_of e); cbn; [intuition congruence|].
    rewrite IH. intuition congruence.
Qed.

Lemma sort_by_count_In (entries : list (value * count)) (x : value * count) :
  In x (sort_by_count entries) <-> In x entries.
Proof.
  unfold sort_by_count. induction entries as [|e entries IH]; cbn; [reflexivity|].
  rewrite insert_by_count_In, IH. intuition congruence.
Qed.

Lemma number_from_In (entries : list (value * count)) :
  forall (i : N) (k : value) (c : count),
    In (k, c) entries -> exists name, In (k, name) (number_from i entries).
Proof.
  induction entries as [|e entries IH]; intros i k c; cbn; [intros []|].
  intros [->|Hin].
  - exists (getName i). now left.
  - destruct (IH (i + 1)%N k c Hin) as [name Hname]. exists name. now right.
Qed.

Lemma number_from_keys (entries : list (value * count)) :
  forall (i : N) (k : value) (name : jsstring),
    In (k, name) (number_from i entries) -> exists c, In (k, c) entries.
Proof.
  induction entries as [|[k0 c0] entries IH]; intros i k name; cbn; [intros []|].
  intros [[= <- _]|Hin].
  - exists c0. now left.
  - destruct (IH _ _ _ Hin) as [c Hc]. exists c. now right.
Qed.

Lemma map_get_In {V : Type} (m : list (value * V)) (k : value) (v : V) :
  map_get m k = Some v -> exists k0, In (k0, v) m /\ same_value_zero k0 k = true.
Proof.
  induction m as [|[k1 v1] m IH]; cbn; [discriminate|].
  destruct (same_value_zero k1 k) eqn:E.
  - intros [= ->]. exists k1. auto.
  - intros H. destruct (IH H) as (k0 & Hin & Hk). exists k0. auto.
Qed.

Lemma In_map_get {V : Type} (m : list (value * V)) (k0 k : value) (v : V) :
  In (k0, v) m -> same_value_zero k0 k = true -> exists v', map_get m k = Some v'.
Proof.
  induction m as [|[k1 v1] m IH]; cbn; [intros []|].
  intros [[= -> ->]|Hin] Hk.
  - rewrite Hk. eauto.
  - destruct (same_value_zero k1 k); eauto.
Qed.


Lemma assign_names_keys (table : list (value * count)) (k : value) (name : jsstring) :
  In (k, name) (assign_names table) -> exists c, In (k, c) table.
Proof.
  intros Hin. apply number_from_keys in Hin as [c Hc].
  rewrite sort_by_count_In in Hc. apply list_elem_of_In in Hc.
  apply list_elem_of_filter in Hc as [_ Hc]. exists c. now apply list_elem_of_In.
Qed.

Lemma traverse_total {A B : Type} (f : A -> outcome B) (xs : list A) :
  (forall x, In x xs -> exists y, f x = Returned y) ->
  exists ys, traverse f xs = Returned ys.
Proof.
  induction xs as [|x xs IH]; intros Hf; cbn; [eauto|].
  destruct (Hf x (or_introl eq_refl)) as [y ->].
  destruct (IH (fun x' H => Hf x' (or_intror H))) as [ys ->].
  cbn. eauto.
Qed.

Lemma traverse_Forall2 {A B : Type} (f : A -> outcome B) (xs : list A) :
  forall ys, traverse f xs = Returned ys ->
             Forall2 (fun x y => f x = Returned y) xs ys.
Proof.
  induction xs as [|x xs IH]; cbn; intros ys.
  - intros [= <-]. constructor.
  - destruct (f x) as [y| |] eqn:E; cbn; try discriminate.
    destruct (traverse f xs) as [ys'| |]; cbn; try discriminate.
    intros [= <-]. constructor; auto.
Qed.


(** * Further properties of the code *)

(** ** [getName] (lines 261-270) *)

Section GetName.
Local Open Scope N_scope.

Lemma chars_check :
  forallb (fun d => ident_start (nth d chars 0) && (index_in (nth d chars 0) chars =? N.of_nat d))
          (seq 0 54) = true.
Proof. vm_compute. reflexivity. Qed.

Lemma chars_digit (d : N) :
  d < 54 ->
  ident_start (nth (N.to_nat d) chars 0) = true
  /\ index_in (nth (N.to_nat d) chars 0) chars = d.
Proof.
  intros Hd. pose proof chars_check as H. rewrite forallb_forall in H.
  specialize (H (N.to_nat d)).
  assert (Hin : In (N.to_nat d) (seq 0 54)) by (apply in_seq; lia).
  apply H in Hin. apply andb_prop in Hin as [H1 H2].
  apply N.eqb_eq in H2. split; [exact H1 | lia].
Qed.

Lemma name_value_app (x y : jsstring) (acc : N) :
  fold_left (fun acc c => acc * 54 + index_in c chars + 1) (x ++ y) acc
  = fold_left (fun acc c => acc * 54 + index_in c chars + 1) y
              (fold_left (fun acc c => acc * 54 + index_in c chars + 1) x acc).
Proof. apply fold_left_app. Qed.

(** The loop prepends to [name] the numeral of [num + 1], whose digits
    are characters of [chars]. *)
Lemma getName_loop_spec (fuel : nat) :
  forall (num : N) (name : jsstring),
    num < 2 ^ N.of_nat fuel ->
    exists pre,
      getName_loop fuel num name = pre ++ name
      /\ name_value pre = num + 1
      /\ pre <> []
      /\ Forall (fun c => ident_start c = true) pre.
Proof.
  induction fuel as [|fuel IH]; intros num name Hnum.
  - assert (num = 0) by (cbn in Hnum; lia). subst num.
    exists [nth 0 chars 0]. cbn [getName_loop]. repeat split; try discriminate.
    repeat constructor.
  - cbn [getName_loop].
    assert (Hmod : num mod 54 < 54) by (apply N.mod_lt; lia).
    destruct (chars_digit (num mod 54) Hmod) as [Hstart Hidx].
    destruct (N.eqb_spec (num / 54) 0) as [Hq|Hq].
    + exists [nth (N.to_nat (num mod 54)) chars 0].
      split; [reflexivity|]. split.
      * unfold name_value. cbn [fold_left]. rewrite Hidx.
        pose proof (N.div_mod num 54). lia.
      * split; [discriminate|]. repeat constructor. exact Hstart.
    + destruct (IH (num / 54 - 1) (nth (N.to_nat (num mod 54)) chars 0 :: name))
        as (pre & Heq & Hval & Hne & Hall).
      { assert (num / 54 < 2 ^ N.of_nat fuel).
        { apply N.Div0.div_lt_upper_bound.
          replace (N.of_nat (S fuel)) with (N.succ (N.of_nat fuel)) in Hnum by lia.
          rewrite N.pow_succ_r' in Hnum. lia. }
        lia. }
      exists (pre ++ [nth (N.to_nat (num mod 54)) chars 0]).
      split; [rewrite Heq, <- app_assoc; reflexivity|]. split.
      * unfold name_value in *. rewrite name_value_app, Hval. cbn [fold_left].
        rewrite Hidx. pose proof (N.div_mod num 54). lia.
      * split; [now destruct pre|].
        apply Forall_app. split; [exact Hall|]. repeat constructor. exact Hstart.
Qed.

Lemma getName_base_spec (num : N) :
  name_value (getName_base num) = num + 1
  /\ getName_base num <> []
  /\ Forall (fun c => ident_start c = true) (getName_base num).
Proof.
  unfold getName_base.
  destruct (getName_loop_spec (N.to_nat (N.size num)) num []) as (pre & Heq & H).
  { rewrite N2Nat.id. apply N.size_gt. }
  rewrite Heq, app_nil_r. exact H.
Qed.

Lemma getName_unfold (num : N) :
  getName num
  = if reserved (getName_base num) then getName_base num ++ js "0"
    else getName_base num.
Proof. reflexivity. Qed.

Lemma ident_start_part (c : N) : ident_start c = true -> ident_part c = true.
Proof. unfold ident_part. now intros ->. Qed.

Lemma is_identifier_letters (s suffix : jsstring) :
  s <> [] -> Forall (fun c => ident_start c = true) s ->
  Forall (fun c => ident_part c = true) suffix ->
  is_identifier (s ++ suffix) = true.
Proof.
  intros Hne Hs Hsuffix. destruct s as [|c s]; [congruence|].
  inversion Hs as [|? ? Hc Hrest]; subst. cbn. rewrite Hc. cbn.
  apply forallb_forall. intros x Hx. apply in_app_or in Hx as [Hx|Hx].
  - apply ident_start_part. rewrite Forall_forall in Hrest.
    apply Hrest. now apply list_elem_of_In.
  - rewrite Forall_forall in Hsuffix. apply Hsuffix. now apply list_elem_of_In.
Qed.

Lemma reserved_words_end_in_letters :
  forallb (fun w => match last (js w) with
                    | Some c => negb (c =? 48)
                    | None => false
                    end) reserved_words = true.
Proof. vm_compute. reflexivity. Qed.

Lemma reserved_suffixed (name : jsstring) : reserved (name ++ js "0") = false.
Proof.
  unfold reserved. apply not_true_is_false. intros H.
  apply existsb_exists in H as (w & Hw & Heq).
  apply jsstring_eqb_eq in Heq.
  pose proof reserved_words_end_in_letters as Hall.
  rewrite forallb_forall in Hall. specialize (Hall w Hw).
  rewrite Heq in Hall. change (js "0") with [48] in Hall.
  rewrite last_snoc in Hall. discriminate.
Qed.

Lemma getName_is_identifier (num : N) : is_identifier (getName num) = true.
Proof.
  rewrite getName_unfold.
  destruct (getName_base_spec num) as (_ & Hne & Hall).
  destruct (reserved (getName_base num)) eqn:Hres.
  - apply is_identifier_letters; auto. repeat constructor.
  - rewrite <- (app_nil_r (getName_base num)).
    apply is_identifier_letters; auto.
Qed.

(** Every name is an identifier and none is a reserved word. *)
Theorem getName_identifier_not_reserved :
  forall num : N,
    is_identifier (getName num) = true /\ reserved (getName num) = false.
Proof.
  intros num. split; [apply getName_is_identifier|].
  rewrite getName_unfold.
  destruct (reserved (getName_base num)) eqn:Hres.
  - apply reserved_suffixed.
  - exact Hres.
Qed.

Lemma getName_base_injective (n m : N) :
  getName_base n = getName_base m -> n = m.
Proof.
  intros H. destruct (getName_base_spec n) as (Hn & _).
  destruct (getName_base_spec m) as (Hm & _). rewrite H in Hn. lia.
Qed.

Lemma getName_base_no_digit (n : N) (name : jsstring) :
  getName_base n <> name ++ js "0".
Proof.
  intros H. destruct (getName_base_spec n) as (_ & _ & Hall).
  rewrite H in Hall. apply Forall_app in Hall as [_ Hall].
  inversion Hall as [|? ? Hc _]. discriminate.
Qed.

Lemma jsstring_eqb_neq (a b : jsstring) : a <> b -> jsstring_eqb a b = false.
Proof.
  intros H. apply not_true_is_false. intros E. apply H. now apply jsstring_eqb_eq.
Qed.

Lemma getName_eq_inv (n m : N) : getName n = getName m -> n = m.
Proof.
  rewrite !getName_unfold.
  destruct (reserved (getName_base n)), (reserved (getName_base m)); intros H.
  - apply app_inv_tail in H. now apply getName_base_injective in H.
  - symmetry in H. now apply getName_base_no_digit in H.
  - now apply getName_base_no_digit in H.
  - now apply getName_base_injective in H.
Qed.

(** Below [54 * 2^31] the 32 bits of [~~] hold the quotient: the loop
    that wraps is the loop that divides. *)
Lemma to_int32_small (q : N) : q < 2 ^ 31 -> to_int32 q = Z.of_N q.
Proof.
  intros Hq. unfold to_int32.
  assert (H : (0 <= Z.of_N q < 2 ^ 31)%Z).
  { split; [lia|]. change (2 ^ 31)%Z with (Z.of_N (2 ^ 31)). lia. }
  rewrite Z.mod_small; lia.
Qed.

Lemma getName_wrapping_loop_exact (fuel : nat) :
  forall (num : N) (name : jsstring),
    num < name_index_bound ->
    getName_wrapping_loop fuel num name = getName_loop fuel num name.
Proof.
  unfold name_index_bound.
  induction fuel as [|fuel IH]; intros num name Hnum; cbn [getName_wrapping_loop getName_loop];
    [reflexivity|].
  assert (Hq : num / 54 < 2 ^ 31).
  { apply N.Div0.div_lt_upper_bound. exact Hnum. }
  cbv zeta. rewrite (to_int32_small _ Hq).
  change (2 ^ 31) with 2147483648 in Hq.
  change (54 * 2 ^ 31) with 115964116992 in *.
  generalize dependent (num / 54). intros q Hq.
  destruct (N.eqb_spec q 0) as [E|E].
  - rewrite E. reflexivity.
  - destruct (Z.ltb_spec (Z.of_N q - 1) 0) as [Hlt|Hge]; [lia|].
    replace (Z.to_N (Z.of_N q - 1)) with (q - 1) by lia.
    apply IH. lia.
Qed.

Lemma getName_wrapping_exact (num : N) :
  num < name_index_bound -> getName_wrapping num = getName num.
Proof.
  intros H. unfold getName_wrapping, getName.
  now rewrite getName_wrapping_loop_exact.
Qed.

(** Two indices below [54 * 2^31] (as every index of an array is) have
    the same name only when they are the same index: there [~~] is the
    integer part, the loop that wraps at 32 bits computes the name of the
    embedding, and the names are the numerals of a bijective numeration. *)
Theorem getName_injective :
  forall n m : N,
    n < name_index_bound -> m < name_index_bound ->
    getName_wrapping n = getName n
    /\ jsstring_eqb (getName_wrapping n) (getName_wrapping m) = (n =? m).
Proof.
  intros n m Hn Hm. split; [now apply getName_wrapping_exact|].
  rewrite !getName_wrapping_exact by assumption.
  destruct (N.eqb_spec n m) as [->|Hnm].
  { apply jsstring_eqb_refl. }
  apply jsstring_eqb_neq. intros H. now apply getName_eq_inv in H.
Qed.

Lemma getName_injective_witness :
  getName_wrapping 53 = getName 53
  /\ jsstring_eqb (getName_wrapping 53) (getName_wrapping 54) = (53 =? 54).
Proof. apply (getName_injective 53 54); reflexivity. Defined.

(** The bound is the first index at which the names repeat. *)
Example getName_wraps_at_the_bound :
  getName_wrapping name_index_bound = getName_wrapping 0
  /\ getName_wrapping 0 = js "a".
Proof. vm_compute. split; reflexivity. Qed.
End GetName.

(** ** [escapeUnsafeChars], [safeKey] and [safeProp] (lines 289-303) *)

Section SafeKeys.
Local Open Scope N_scope.

Lemma escapeUnsafeChar_safe (c x : N) :
  unsafeChars c = true -> In x (escapeUnsafeChar c) -> unsafeChars x = false.
Proof.
  unfold unsafeChars. intros Hc.
  repeat match type of Hc with
         | (_ || _)%bool = true => apply orb_prop in Hc as [Hc|Hc]
         end;
    apply N.eqb_eq in Hc; subst c; vm_compute;
    intros Hx; repeat (destruct Hx as [<-|Hx]; [reflexivity|]); destruct Hx.
Qed.

(** Nothing of the class [unsafeChars] is left in the result. *)
Lemma escapeUnsafeChars_safe (str : jsstring) (x : N) :
  In x (escapeUnsafeChars str) -> unsafeChars x = false.
Proof.
  unfold escapeUnsafeChars. intros H.
  apply in_flat_map in H as (c & _ & Hx).
  destruct (unsafeChars c) eqn:Hc.
  - now apply (escapeUnsafeChar_safe c).
  - destruct Hx as [<-|[]]. exact Hc.
Qed.

Lemma escapeUnsafeChars_id (str : jsstring) :
  (forall x, In x str -> unsafeChars x = false) -> escapeUnsafeChars str = str.
Proof.
  unfold escapeUnsafeChars. induction str as [|c str IH]; intros H; [reflexivity|].
  cbn [flat_map]. rewrite (H c (or_introl eq_refl)). cbn [app].
  f_equal. apply IH. intros x Hx. apply H. now right.
Qed.

Lemma ident_part_safe (c : N) : ident_part c = true -> unsafeChars c = false.
Proof.
  unfold ident_part, ident_start, unsafeChars. intros H.
  assert (Hr : c = 95 \/ c = 36 \/ 97 <= c <= 122 \/ 65 <= c <= 90 \/ 48 <= c <= 57).
  { repeat match type of H with
           | (_ || _)%bool = true => apply orb_prop in H as [H|H]
           end;
      try (apply N.eqb_eq in H; lia);
      apply andb_prop in H as [H1 H2]; apply N.leb_le in H1, H2; lia. }
  repeat apply orb_false_intro; apply N.eqb_neq; lia.
Qed.

Lemma identifier_safe (key : jsstring) (x : N) :
  is_identifier key = true -> In x key -> unsafeChars x = false.
Proof.
  destruct key as [|c key]; [discriminate|]. cbn.
  intros [Hc Hrest]%andb_prop [<-|Hx].
  - apply ident_part_safe. unfold ident_part. now rewrite Hc.
  - apply ident_part_safe. rewrite forallb_forall in Hrest. now apply Hrest.
Qed.
End SafeKeys.

(** Escaping twice is escaping once. *)
Theorem escapeUnsafeChars_idempotent :
  forall str : jsstring,
    escapeUnsafeChars (escapeUnsafeChars str) = escapeUnsafeChars str.
Proof.
  intros str. apply escapeUnsafeChars_id. apply escapeUnsafeChars_safe.
Qed.

(** A key is written bare when it is an identifier and as a quoted
    literal otherwise; either way no angle bracket, control character of
    the class [unsafeChars] or separator is left in what is written, be it
    the key of a literal or the property of a statement. *)
Theorem safeKey_safeProp_leave_nothing_unsafe :
  forall key : jsstring,
    (forall x, In x (safeKey key) -> unsafeChars x = false)
    /\ (forall x, In x (safeProp key) -> unsafeChars x = false)
    /\ (if is_identifier key
        then safeKey key = key /\ safeProp key = js "." ++ key
        else exists body,
               safeKey key = [quote] ++ body ++ [quote]
               /\ safeProp key = js "[" ++ [quote] ++ body ++ [quote] ++ js "]").
Proof.
  intros key. unfold safeKey, safeProp.
  destruct (is_identifier key) eqn:Hid.
  - split; [intros x; now apply identifier_safe|].
    split; [|split; reflexivity].
    intros x [<-|Hx]; [reflexivity | now apply (identifier_safe key)].
  - split; [intros x; apply escapeUnsafeChars_safe|]. split.
    + change (js "[") with [91%N]. change (js "]") with [93%N]. cbn [app].
      intros x [<-|Hx]; [reflexivity|].
      apply in_app_or in Hx as [Hx|[<-|[]]]; [|reflexivity].
      now apply (escapeUnsafeChars_safe (JSON_stringify_string key)).
    + unfold JSON_stringify_string, escapeUnsafeChars.
      rewrite !flat_map_app. cbn [flat_map app].
      change (unsafeChars quote) with false. cbv iota.
      exists (flat_map (fun c => if unsafeChars c then escapeUnsafeChar c else [c])
                       (JSON_quote_loop key)).
      cbn [app]. split; [reflexivity|].
      change (js "[") with [91%N]. cbn [app]. now rewrite <- app_assoc.
Qed.

(** ** The limiter of the diagnostics (lines 31-36) *)

Section WalkPreserves.
Variable logLimit : Z.
Variable JSON_parse : jsstring -> option json.

(** [K] speaks of the limiter and of the messages only. *)
Variable K : state -> Prop.
Hypothesis K_frame : forall st st',
  logNum st' = logNum st -> emitted st' = emitted st -> K st -> K st'.
Hypothesis K_function : forall st name,
  K st -> K (add_emitted [message_function name] st).
Hypothesis K_log : forall st message,
  is_function_message message = false -> K st -> K (snd (log logLimit message st)).

Lemma splice_messages (parent : option nat) (key : option jsstring)
    (index : option nat) (converted : value) (st : state) :
  logNum (snd (splice parent key index converted st)) = logNum st
  /\ emitted (snd (splice parent key index converted st)) = emitted st.
Proof.
  unfold splice, bind, gets, modify, throw.
  destruct parent as [p|]; [|split; reflexivity].
  destruct index as [i|]; cbn; [|split; reflexivity].
  destruct (put_index _ _ i converted); split; reflexivity.
Qed.

Lemma walk_toJSON_messages (thing : value) (o : object) (parent : option nat)
    (key : option jsstring) (index : option nat) (st : state) :
  logNum (snd (walk_toJSON JSON_parse thing o parent key index st)) = logNum st
  /\ emitted (snd (walk_toJSON JSON_parse thing o parent key index st)) = emitted st.
Proof.
  unfold walk_toJSON, bind, gets, modify, ret, throw.
  cbn [fst snd].
  destruct (map_get _ thing) as [converted|].
  - match goal with
    | |- context [splice parent key index ?c ?s] =>
        destruct (splice_messages parent key index c s) as [H1 H2];
        destruct (splice parent key index c s) as [[[]| |] s']
    end; cbn in *; split; assumption.
  - destruct (typeof_function _ (get_toJSON o));
      (destruct (call_toJSON _ (get_toJSON o)) as [result|];
       [|split; reflexivity]);
      (destruct (string_text _ result) as [text|];
       [destruct (JSON_parse text) as [tree|];
        [destruct (alloc_json tree _) as [v h']|]|]);
      cbn -[splice];
      match goal with
      | |- context [splice parent key index ?c ?s] =>
          destruct (splice_messages parent key index c s) as [H1 H2];
          destruct (splice parent key index c s) as [[[]| |] s']
      end; cbn in *; split; assumption.
Qed.

Lemma message_non_POJO_logged (name : jsstring) :
  is_function_message (message_non_POJO name) = false.
Proof. reflexivity. Qed.

Lemma message_symbols_logged (syms : list jsstring) :
  is_function_message (message_symbols syms) = false.
Proof. reflexivity. Qed.

Lemma walk_preserves (fuel : nat) :
  forall thing parent key index st,
    K st -> ok_at K K (walk logLimit JSON_parse fuel thing parent key index) st.
Proof.
  assert (KK : forall st, K st -> K st) by auto.
  assert (Kset : forall st st', logNum st' = logNum st -> emitted st' = emitted st ->
                                K st -> forall A (o : outcome A),
                                ok_at K K (fun _ => (o, st')) st).
  { intros st st' H1 H2 HK A o. split; cbn; [|intros _ _]; eapply K_frame; eauto. }
  induction fuel as [|fuel IH]; intros thing parent key index st HK.
  { now apply ok_at_stop. }
  cbn [walk]. apply ok_at_gets.
  destruct (typeof_function (st_heap st) thing).
  { split; cbn; [|intros _ _]; now apply K_function. }
  apply ok_at_gets.
  assert (Hcounts : forall c, K (set_counts c st)).
  { intros c. eapply K_frame; [| |exact HK]; reflexivity. }
  destruct (map_has (counts st) thing).
  { apply ok_at_modify_end; auto. }
  apply ok_at_modify.
  set (st1 := set_counts _ st). assert (HK1 : K st1) by apply Hcounts.
  destruct thing as [| | | | | | |l]; try (now apply ok_at_ret).
  destruct (cls (obj_at (st_heap st) l)) eqn:Hcls; try (now apply ok_at_ret).
  - destruct (truthy (get_toJSON (obj_at (st_heap st) l))).
    + destruct (walk_toJSON_messages (VObject l) (obj_at (st_heap st) l)
                  parent key index st1) as [H1 H2].
      split; [|intros _ _]; eapply K_frame; eauto.
    + unfold walk_object.
      destruct (proto (obj_at (st_heap st) l)) as [| |[|] [name'|] inherited];
        try (now apply ok_at_stop);
        try (split; [|intros _ _]; now apply K_log);
        (destruct (symbols (obj_at (st_heap st) l));
         [|split; [|intros _ _]; now apply K_log];
         apply ok_at_forEach_key; auto).
  - apply ok_at_forEach_array; auto.
  - apply ok_at_forEach; auto.
  - destruct (alloc_pairs_ok K (fun _ => True)) with (entries := entries) (st := st1)
      as (items & Hret & HKs & _); auto.
    { intros st' k v HK' _ _. eapply K_frame; [| |exact HK']; reflexivity. }
    apply ok_at_bind.
    + split; [exact HKs | intros; exact HKs].
    + intros items' Hret'. apply ok_at_forEach; auto.
  - destruct (truthy (get_toJSON (obj_at (st_heap st) l))).
    + destruct (walk_toJSON_messages (VObject l) (obj_at (st_heap st) l)
                  parent key index st1) as [H1 H2].
      split; [|intros _ _]; eapply K_frame; eauto.
    + unfold walk_object.
      destruct (proto (obj_at (st_heap st) l)) as [| |[|] [name'|] inherited];
        try (now apply ok_at_stop);
        try (split; [|intros _ _]; now apply K_log);
        (destruct (symbols (obj_at (st_heap st) l));
         [|split; [|intros _ _]; now apply K_log];
         apply ok_at_forEach_key; auto).
Qed.
End WalkPreserves.

Lemma logged_app (st : state) (messages : list jsstring) :
  filter (fun message => is_function_message message = false)
         (emitted st ++ messages)
  = logged st ++ filter (fun message => is_function_message message = false) messages.
Proof. unfold logged. apply filter_app. Qed.

Lemma limited_log (logLimit : Z) (st : state) (message : jsstring) :
  is_function_message message = false ->
  limited logLimit st -> limited logLimit (snd (log logLimit message st)).
Proof.
  intros Hm [Hlen Hcap]. unfold log, bind, gets, consola, modify, ret. cbn.
  destruct (Z.ltb_spec (Z.of_nat (logNum st)) logLimit) as [Hlt|Hge]; cbn.
  - split; cbn.
    + unfold logged. cbn. rewrite filter_app, length_app.
      rewrite filter_cons_True by exact Hm. cbn. unfold logged in Hlen. lia.
    + lia.
  - now split.
Qed.

(** The diagnostics that go through [log] are counted by [logNum] and
    never exceed the limit, whatever the value, the heap and the depth
    allowed; a limit below zero lets none through. *)
Theorem log_never_exceeds_the_limit (logLimit : Z)
    (JSON_parse : jsstring -> option json) (fuel : nat) (h : heap) (v : value) :
  limited logLimit (snd (devalue logLimit JSON_parse fuel h v)).
Proof.
  rewrite devalue_state.
  apply (walk_preserves logLimit JSON_parse (limited logLimit)).
  - intros st st' H1 H2 [Hlen Hcap]. unfold limited, logged. now rewrite H1, H2.
  - intros st name [Hlen Hcap]. split; [|exact Hcap].
    unfold logged. cbn. rewrite filter_app, length_app.
    rewrite filter_cons_False, filter_nil; [cbn; unfold logged in Hlen; lia|].
    now intros Hf.
  - intros st message. apply limited_log.
  - split; [reflexivity|]. cbn. lia.
Qed.

(** ** The naming pass (lines 133-139) *)

Lemma number_from_names (entries : list (value * count)) :
  forall (i : N) (name : jsstring),
    In name (List.map snd (number_from i entries)) ->
    exists j, (i <= j)%N /\ name = getName j.
Proof.
  induction entries as [|e entries IH]; intros i name; cbn; [intros []|].
  intros [<-|Hin].
  - exists i. split; [lia|reflexivity].
  - destruct (IH _ _ Hin) as (j & Hj & ->). exists j. split; [lia|reflexivity].
Qed.

Lemma number_from_NoDup (entries : list (value * count)) :
  forall i : N, List.NoDup (List.map snd (number_from i entries)).
Proof.
  induction entries as [|e entries IH]; intros i; cbn; constructor.
  - intros Hin. apply number_from_names in Hin as (j & Hj & E).
    apply getName_eq_inv in E. lia.
  - apply IH.
Qed.

Lemma number_from_length (entries : list (value * count)) :
  forall i : N, length (number_from i entries) = length entries.
Proof. induction entries as [|e entries IH]; intros i; cbn; [|rewrite IH]; reflexivity. Qed.

Lemma insert_by_count_length (e : value * count) (sorted : list (value * count)) :
  length (insert_by_count e sorted) = S (length sorted).
Proof.
  induction sorted as [|x sorted IH]; cbn; [reflexivity|].
  destruct (count_of x <=? count_of e); cbn; [|rewrite IH]; reflexivity.
Qed.

Lemma sort_by_count_length (entries : list (value * count)) :
  length (sort_by_count entries) = length entries.
Proof.
  unfold sort_by_count. induction entries as [|e entries IH]; cbn; [reflexivity|].
  now rewrite insert_by_count_length, IH.
Qed.

(** The parameters of the wrapper: one per entry counted more than once,
    and no name is handed out twice. *)
Theorem names_are_distinct (table : list (value * count)) :
  List.NoDup (List.map snd (assign_names table))
  /\ length (assign_names table)
     = length (filter (fun e => repeated e = true) table).
Proof.
  split; [apply number_from_NoDup|].
  unfold assign_names. now rewrite number_from_length, sort_by_count_length.
Qed.

Lemma insert_by_count_sorted (e : value * count) (sorted : list (value * count)) :
  StronglySorted (fun a b => count_of b <= count_of a) sorted ->
  StronglySorted (fun a b => count_of b <= count_of a) (insert_by_count e sorted).
Proof.
  induction 1 as [|x sorted Hs IH Hx]; cbn.
  - repeat constructor.
  - destruct (Nat.leb_spec (count_of x) (count_of e)) as [Hle|Hgt].
    + constructor; [now constructor|].
      constructor; [exact Hle|].
      eapply List.Forall_impl; [|exact Hx]. cbn. intros; lia.
    + constructor; [exact IH|].
      apply List.Forall_forall. intros y Hy.
      apply insert_by_count_In in Hy as [->|Hy]; [lia|].
      eapply List.Forall_forall in Hx; eauto.
Qed.

Lemma sort_by_count_sorted (entries : list (value * count)) :
  StronglySorted (fun a b => count_of b <= count_of a) (sort_by_count entries).
Proof.
  unfold sort_by_count. induction entries as [|e entries IH]; cbn.
  - constructor.
  - now apply insert_by_count_sorted.
Qed.

Lemma sorted_lookup (sorted : list (value * count)) :
  StronglySorted (fun a b => count_of b <= count_of a) sorted ->
  forall i j a b, i < j -> sorted !! i = Some a -> sorted !! j = Some b ->
                  count_of b <= count_of a.
Proof.
  induction 1 as [|x sorted Hs IH Hx]; intros i j a b Hij Hi Hj.
  - discriminate.
  - destruct j as [|j]; [lia|]. cbn in Hj. destruct i as [|i]; cbn in Hi.
    + injection Hi as <-. eapply List.Forall_forall in Hx; [exact Hx|].
      apply list_elem_of_In. eapply list_elem_of_lookup_2; eauto.
    + apply (IH i j a b); [lia|exact Hi|exact Hj].
Qed.

Lemma number_from_lookup (entries : list (value * count)) :
  forall (i : N) (n : nat) (k : value) (name : jsstring),
    number_from i entries !! n = Some (k, name) ->
    name = getName (i + N.of_nat n)
    /\ exists c, entries !! n = Some (k, c).
Proof.
  induction entries as [|[k0 c0] entries IH]; intros i n k name; cbn; [discriminate|].
  destruct n as [|n]; cbn.
  - intros [= <- <-]. rewrite N.add_0_r. eauto.
  - intros H. apply IH in H as (-> & c & Hc). split; [f_equal; lia|eauto].
Qed.

(** The names go by descending count: of two named values, the one
    named earlier was met at least as often, and the [n]-th entry gets
    [getName n]. *)
Theorem names_go_by_descending_count (table : list (value * count))
    (i j : nat) (k1 k2 : value) (name1 name2 : jsstring) :
  i < j ->
  assign_names table !! i = Some (k1, name1) ->
  assign_names table !! j = Some (k2, name2) ->
  name1 = getName (N.of_nat i) /\ name2 = getName (N.of_nat j)
  /\ exists c1 c2, In (k1, Some c1) table /\ In (k2, Some c2) table
                   /\ 2 <= c2 <= c1.
Proof.
  intros Hij H1 H2.
  apply number_from_lookup in H1 as (-> & c1 & H1).
  apply number_from_lookup in H2 as (-> & c2 & H2).
  split; [reflexivity|]. split; [reflexivity|].
  pose proof (sorted_lookup _ (sort_by_count_sorted _) _ _ _ _ Hij H1 H2) as Hle.
  apply list_elem_of_lookup_2, list_elem_of_In, sort_by_count_In, list_elem_of_In,
    list_elem_of_filter in H1 as [R1 H1].
  apply list_elem_of_lookup_2, list_elem_of_In, sort_by_count_In, list_elem_of_In,
    list_elem_of_filter in H2 as [R2 H2].
  apply list_elem_of_In in H1, H2.
  unfold repeated in R1, R2. unfold count_of in Hle.
  destruct c1 as [c1|]; [|discriminate]. destruct c2 as [c2|]; [|discriminate].
  cbn [snd default] in R1, R2, Hle. apply Nat.ltb_lt in R1, R2.
  exists c1, c2. repeat split; auto; lia.
Qed.

Lemma names_go_by_descending_count_witness :
  getName 0 = getName (N.of_nat 0) /\ getName 1 = getName (N.of_nat 1)
  /\ exists c1 c2,
       In (VNumber (NInt 7), Some c1)
          [(VNull, Some 1); (VBoolean true, Some 2); (VNumber (NInt 7), Some 3)]
       /\ In (VBoolean true, Some c2)
          [(VNull, Some 1); (VBoolean true, Some 2); (VNumber (NInt 7), Some 3)]
       /\ 2 <= c2 <= c1.
Proof.
  apply (names_go_by_descending_count
           [(VNull, Some 1); (VBoolean true, Some 2); (VNumber (NInt 7), Some 3)]
           0 1 (VNumber (NInt 7)) (VBoolean true) (getName 0) (getName 1)).
  - lia.
  - reflexivity.
  - reflexivity.
Defined.

(** ** The table of counts is a [Map]: no key twice *)

Lemma number_eqb_eq (a b : number) : number_eqb a b = true -> a = b.
Proof.
  destruct a, b; cbn; try discriminate; try reflexivity.
  intros H. apply Z.eqb_eq in H. now subst.
Qed.

Lemma value_eqb_sym (a b : value) : value_eqb a b = value_eqb b a.
Proof.
  destruct a as [| |x|x|x|x d|x|x], b as [| |y|y|y|y e|y|y]; cbn; try reflexivity.
  - now destruct x, y.
  - destruct x, y; cbn; try reflexivity. apply Z.eqb_sym.
  - destruct (jsstring_eqb x y) eqn:E.
    + apply jsstring_eqb_eq in E. subst. now rewrite jsstring_eqb_refl.
    + destruct (jsstring_eqb y x) eqn:E'; [|reflexivity].
      apply jsstring_eqb_eq in E'. subst. now rewrite jsstring_eqb_refl in E.
  - apply Nat.eqb_sym.
  - apply Z.eqb_sym.
  - apply Nat.eqb_sym.
Qed.

Lemma value_eqb_trans (a b c : value) :
  value_eqb a b = true -> value_eqb b c = true -> value_eqb a c = true.
Proof.
  destruct a as [| |x|x|x|x d|x|x], b as [| |y|y|y|y e|y|y]; cbn; try discriminate;
    destruct c as [| |z|z|z|z f|z|z]; cbn; try discriminate; try reflexivity.
  - destruct x, y, z; cbn; congruence.
  - intros H1 H2. apply number_eqb_eq in H1, H2. subst.
    destruct z; cbn; auto using Z.eqb_refl.
  - intros H1 H2. apply jsstring_eqb_eq in H1, H2. subst. apply jsstring_eqb_refl.
  - intros H1 H2. apply Nat.eqb_eq in H1, H2. subst. apply Nat.eqb_refl.
  - intros H1 H2. apply Z.eqb_eq in H1, H2. subst. apply Z.eqb_refl.
  - intros H1 H2. apply Nat.eqb_eq in H1, H2. subst. apply Nat.eqb_refl.
Qed.

Lemma same_value_zero_sym (a b : value) : same_value_zero a b = same_value_zero b a.
Proof. apply value_eqb_sym. Qed.

Lemma same_value_zero_trans (a b c : value) :
  same_value_zero a b = true -> same_value_zero b c = true ->
  same_value_zero a c = true.
Proof. apply value_eqb_trans. Qed.

Lemma same_value_zero_get {V : Type} (m : list (value * V)) (a b : value) :
  same_value_zero a b = true -> map_get m a = map_get m b.
Proof.
  intros Hab. induction m as [|[k v] m IH]; cbn; [reflexivity|]. rewrite IH.
  destruct (same_value_zero k a) eqn:Ea, (same_value_zero k b) eqn:Eb; auto.
  - now rewrite (same_value_zero_trans _ _ _ Ea Hab) in Eb.
  - rewrite same_value_zero_sym in Hab.
    now rewrite (same_value_zero_trans _ _ _ Eb Hab) in Ea.
Qed.

Section DistinctKeys.
Context {V : Type}.

Lemma map_has_set (m : list (value * V)) (k x : value) (v : V) :
  map_has (map_set m k v) x = map_has m x || same_value_zero k x.
Proof.
  unfold map_has. induction m as [|[k0 v0] m IH]; cbn.
  - unfold same_value_zero at 1. rewrite norm_key_idem. fold (same_value_zero k x).
    now destruct (same_value_zero k x).
  - destruct (same_value_zero k0 k) eqn:E; cbn.
    + destruct (same_value_zero k0 x) eqn:Ex; cbn; [reflexivity|].
      destruct (same_value_zero k x) eqn:Ekx.
      * now rewrite (same_value_zero_trans _ _ _ E Ekx) in Ex.
      * now rewrite orb_false_r.
    + destruct (same_value_zero k0 x); [reflexivity|exact IH].
Qed.

Lemma map_has_delete (m : list (value * V)) (k x : value) :
  map_has (map_delete m k) x = true -> map_has m x = true.
Proof.
  unfold map_has. induction m as [|[k0 v0] m IH]; cbn; [discriminate|].
  destruct (same_value_zero k0 k); cbn; destruct (same_value_zero k0 x); auto.
Qed.

Lemma distinct_keys_set (m : list (value * V)) (k : value) (v : V) :
  distinct_keys m -> distinct_keys (map_set m k v).
Proof.
  induction m as [|[k0 v0] m IH]; cbn.
  - auto.
  - intros [Hk0 Hm]. destruct (same_value_zero k0 k) eqn:E; cbn.
    + auto.
    + split; [|auto]. rewrite map_has_set, Hk0. cbn.
      now rewrite same_value_zero_sym.
Qed.

Lemma distinct_keys_delete (m : list (value * V)) (k : value) :
  distinct_keys m -> distinct_keys (map_delete m k).
Proof.
  induction m as [|[k0 v0] m IH]; cbn; [auto|].
  intros [Hk0 Hm]. destruct (same_value_zero k0 k); cbn; [exact Hm|].
  split; [|auto]. apply not_true_is_false. intros H.
  apply map_has_delete in H. congruence.
Qed.

Lemma distinct_keys_get (m : list (value * V)) (k0 k : value) (v : V) :
  distinct_keys m -> In (k0, v) m -> same_value_zero k0 k = true ->
  map_get m k = Some v.
Proof.
  induction m as [|[k1 v1] m IH]; cbn; [intros _ []|].
  intros [Hk1 Hm] [[= -> ->]|Hin] Hk.
  - now rewrite Hk.
  - destruct (same_value_zero k1 k) eqn:E; [|auto]. exfalso.
    destruct (In_map_get m k0 k1 v Hin) as [v' Hv'].
    { rewrite same_value_zero_sym in E. eapply same_value_zero_trans; eauto. }
    unfold map_has in Hk1. now rewrite Hv' in Hk1.
Qed.
End DistinctKeys.

Section WalkCounts.
Variable logLimit : Z.
Variable JSON_parse : jsstring -> option json.

(** [C] speaks of the table of counts only and survives its updates. *)
Variable C : list (value * count) -> Prop.
Hypothesis C_set : forall m k c, C m -> C (map_set m k c).
Hypothesis C_delete : forall m k, C m -> C (map_delete m k).

Let K (st : state) : Prop := C (counts st).

Lemma splice_counts (parent : option nat) (key : option jsstring)
    (index : option nat) (converted : value) (st : state) :
  counts (snd (splice parent key index converted st)) = counts st.
Proof.
  unfold splice, bind, gets, modify, throw.
  destruct parent as [p|]; [|reflexivity].
  destruct index as [i|]; cbn; [|reflexivity].
  now destruct (put_index _ _ i converted).
Qed.

Lemma log_counts (message : jsstring) (st : state) :
  counts (snd (log logLimit message st)) = counts st.
Proof.
  unfold log, bind, gets, consola, modify, ret. cbn.
  now destruct (Z.of_nat (logNum st) <? logLimit)%Z.
Qed.

Lemma walk_toJSON_counts (thing : value) (o : object) (parent : option nat)
    (key : option jsstring) (index : option nat) (st : state) :
  K st -> K (snd (walk_toJSON JSON_parse thing o parent key index st)).
Proof.
  intros HK. unfold walk_toJSON, bind, gets, modify, ret, throw.
  cbn [fst snd].
  destruct (map_get _ thing) as [converted|].
  - match goal with
    | |- context [splice parent key index ?c ?s] =>
        pose proof (splice_counts parent key index c s) as H1;
        destruct (splice parent key index c s) as [[[]| |] s']
    end; cbn in *; unfold K; rewrite H1; cbn; apply C_set, C_delete, HK.
  - destruct (typeof_function _ (get_toJSON o));
      (destruct (call_toJSON _ (get_toJSON o)) as [result|];
       [|cbn; apply C_delete, HK]);
      (destruct (string_text _ result) as [text|];
       [destruct (JSON_parse text) as [tree|];
        [destruct (alloc_json tree _) as [v h']|]|]);
      cbn -[splice];
      match goal with
      | |- context [splice parent key index ?c ?s] =>
          pose proof (splice_counts parent key index c s) as H1;
          destruct (splice parent key index c s) as [[[]| |] s']
      end; cbn in *; unfold K; rewrite H1; cbn; apply C_set, C_delete, HK.
Qed.

Lemma walk_counts (fuel : nat) :
  forall thing parent key index st,
    K st -> ok_at K K (walk logLimit JSON_parse fuel thing parent key index) st.
Proof.
  assert (KK : forall st, K st -> K st) by auto.
  induction fuel as [|fuel IH]; intros thing parent key index st HK.
  { now apply ok_at_stop. }
  cbn [walk]. apply ok_at_gets.
  destruct (typeof_function (st_heap st) thing).
  { split; cbn; [|intros _ _]; exact HK. }
  apply ok_at_gets.
  destruct (map_has (counts st) thing).
  { apply ok_at_modify_end; auto. now apply C_set. }
  apply ok_at_modify.
  set (st1 := set_counts _ st).
  assert (HK1 : K st1) by (now apply C_set).
  destruct thing as [| | | | | | |l]; try (now apply ok_at_ret).
  destruct (cls (obj_at (st_heap st) l)) eqn:Hcls; try (now apply ok_at_ret).
  - destruct (truthy (get_toJSON (obj_at (st_heap st) l))).
    + split; [|intros _ _]; now apply walk_toJSON_counts.
    + unfold walk_object.
      destruct (proto (obj_at (st_heap st) l)) as [| |[|] [name'|] inherited];
        try (now apply ok_at_stop);
        try (split; [|intros _ _]; unfold K; now rewrite log_counts);
        (destruct (symbols (obj_at (st_heap st) l));
         [|split; [|intros _ _]; unfold K; now rewrite log_counts];
         apply ok_at_forEach_key; auto).
  - apply ok_at_forEach_array; auto.
  - apply ok_at_forEach; auto.
  - destruct (alloc_pairs_ok K (fun _ => True)) with (entries := entries) (st := st1)
      as (items & Hret & HKs & _); auto.
    apply ok_at_bind.
    + split; [exact HKs | intros; exact HKs].
    + intros items' Hret'. apply ok_at_forEach; auto.
  - destruct (truthy (get_toJSON (obj_at (st_heap st) l))).
    + split; [|intros _ _]; now apply walk_toJSON_counts.
    + unfold walk_object.
      destruct (proto (obj_at (st_heap st) l)) as [| |[|] [name'|] inherited];
        try (now apply ok_at_stop);
        try (split; [|intros _ _]; unfold K; now rewrite log_counts);
        (destruct (symbols (obj_at (st_heap st) l));
         [|split; [|intros _ _]; unfold K; now rewrite log_counts];
         apply ok_at_forEach_key; auto).
Qed.
End WalkCounts.

(** Whatever the traversal does, its table of counts holds no key twice. *)
Lemma devalue_distinct_keys (logLimit : Z) (JSON_parse : jsstring -> option json)
    (fuel : nat) (h : heap) (v : value) :
  distinct_keys (counts (snd (devalue logLimit JSON_parse fuel h v))).
Proof.
  rewrite devalue_state.
  apply (walk_counts logLimit JSON_parse distinct_keys).
  - intros m k c. apply distinct_keys_set.
  - intros m k. apply distinct_keys_delete.
  - exact I.
Qed.

Lemma assign_names_has (table : list (value * count)) (k : value) :
  distinct_keys table ->
  map_has (assign_names table) k = true
  <-> exists n, map_get table k = Some (Some n) /\ 2 <= n.
Proof.
  intros Hd. unfold map_has. split.
  - destruct (map_get (assign_names table) k) as [name|] eqn:E; [intros _|discriminate].
    apply map_get_In in E as (k0 & Hin & Hk).
    apply number_from_keys in Hin as [c Hc].
    rewrite sort_by_count_In in Hc. apply list_elem_of_In in Hc.
    apply list_elem_of_filter in Hc as [Hrep Hc]. apply list_elem_of_In in Hc.
    unfold repeated in Hrep. cbn [snd] in Hrep.
    destruct c as [n|]; [|discriminate]. apply Nat.ltb_lt in Hrep.
    exists n. split; [|lia]. eapply distinct_keys_get; eauto.
  - intros (n & Hget & Hn).
    apply map_get_In in Hget as (k0 & Hin & Hk).
    assert (Hs : In (k0, Some n)
                    (sort_by_count (filter (fun e => repeated e = true) table))).
    { apply sort_by_count_In, list_elem_of_In, list_elem_of_filter.
      split; [|now apply list_elem_of_In].
      unfold repeated. cbn [snd]. apply Nat.ltb_lt. lia. }
    destruct (number_from_In _ 0%N _ _ Hs) as [name Hname].
    destruct (In_map_get _ _ _ _ Hname Hk) as [name' E].
    unfold assign_names. now rewrite E.
Qed.

(** A value gets a name exactly when the traversal counted it more than
    once: [names.has(thing)] if and only if [counts.get(thing) > 1]. *)
Theorem named_iff_counted_twice (logLimit : Z)
    (JSON_parse : jsstring -> option json) (fuel : nat) (h : heap)
    (v thing : value) :
  let table := counts (snd (devalue logLimit JSON_parse fuel h v)) in
  map_has (assign_names table) thing = true
  <-> exists n, map_get table thing = Some (Some n) /\ 2 <= n.
Proof. cbn zeta. apply assign_names_has, devalue_distinct_keys. Qed.

(** ** [stringifyString] loses nothing (lines 305-333) *)

Section Unescape.
Local Open Scope N_scope.

Lemma unescape_plain (c : N) (rest : jsstring) :
  c <> backslash -> unescape (c :: rest) = c :: unescape rest.
Proof. intros H. cbn [unescape]. apply N.eqb_neq in H. now rewrite H. Qed.

Lemma escaped_unescape (c : N) (e rest : jsstring) :
  escaped c = Some e -> unescape (e ++ rest) = c :: unescape rest.
Proof.
  unfold escaped.
  repeat match goal with
         | |- context [c =? ?k] =>
             destruct (N.eqb_spec c k) as [->|?]; [intros [= <-]; reflexivity|]
         end.
  discriminate.
Qed.

Lemma escaped_backslash : escaped backslash <> None.
Proof. discriminate. Qed.

Lemma surrogate_unescape (c : N) (rest : jsstring) :
  is_surrogate c = true ->
  unescape (bs "u" ++ hex_upper c ++ rest) = c :: unescape rest.
Proof.
  unfold is_surrogate. intros [Hlo Hhi]%andb_prop.
  apply N.leb_le in Hlo, Hhi.
  pose proof surrogate_hex_range as H.
  rewrite forallb_forall in H.
  specialize (H (N.to_nat (c - 55296))).
  replace (55296 + N.of_nat (N.to_nat (c - 55296))) with c in H by lia.
  destruct (hex_upper c) as [|d3 [|d2 [|d1 [|d0 [|? ?]]]]];
    try (discriminate H; apply in_seq; lia).
  assert (E : ((hex_value d3 * 16 + hex_value d2) * 16 + hex_value d1) * 16
              + hex_value d0 = c).
  { apply N.eqb_eq, H, in_seq. lia. }
  change (bs "u") with [backslash; 117]. cbn. now rewrite E.
Qed.

Lemma unescape_stringifyString_loop (n : nat) :
  forall str, (length str <= n)%nat -> unescape (stringifyString_loop str) = str.
Proof.
  induction n as [|n IH]; intros [|char rest] Hlen; cbn in Hlen; try reflexivity;
    try lia.
  cbn [stringifyString_loop].
  destruct (N.eqb_spec char quote) as [->|Hq].
  { cbn. f_equal. apply IH. lia. }
  destruct (escaped char) as [e|] eqn:He.
  { rewrite (escaped_unescape _ _ _ He). f_equal. apply IH. lia. }
  assert (Hb : char <> backslash).
  { intros ->. now apply escaped_backslash. }
  destruct (is_surrogate char) eqn:Hs.
  - destruct rest as [|next rest'].
    + rewrite surrogate_unescape by exact Hs. reflexivity.
    + destruct ((char <=? 56319) && is_low_surrogate next) eqn:Hpair.
      * apply andb_prop in Hpair as [_ Hlow].
        rewrite unescape_plain by exact Hb.
        rewrite unescape_plain.
        -- do 2 f_equal. apply IH. cbn in Hlen. lia.
        -- unfold is_low_surrogate in Hlow. apply andb_prop in Hlow as [Hlow _].
           apply N.leb_le in Hlow. unfold backslash. lia.
      * rewrite surrogate_unescape by exact Hs. f_equal. apply IH. cbn in *. lia.
  - rewrite unescape_plain by exact Hb. f_equal. apply IH. lia.
Qed.

Lemma stringifyString_inv (s t : jsstring) :
  stringifyString s = stringifyString t -> s = t.
Proof.
  unfold stringifyString. intros H. apply app_inv_head in H.
  apply app_inv_tail in H.
  rewrite <- (unescape_stringifyString_loop (length s) s (Nat.le_refl _)).
  rewrite <- (unescape_stringifyString_loop (length t) t (Nat.le_refl _)).
  now rewrite H.
Qed.
End Unescape.

(** Two strings have the same literal only when they are the same
    string: the escapes of [stringifyString] can be read back. *)
Theorem stringifyString_injective :
  forall s t : jsstring,
    jsstring_eqb (stringifyString s) (stringifyString t) = jsstring_eqb s t.
Proof.
  intros s t. destruct (jsstring_eqb s t) eqn:E.
  - apply jsstring_eqb_eq in E. subst. apply jsstring_eqb_refl.
  - apply jsstring_eqb_neq. intros H. apply stringifyString_inv in H. subst.
    now rewrite jsstring_eqb_refl in E.
Qed.

(** ** No unsafe character reaches the output (lines 141-258) *)

Section Clean.
Local Open Scope N_scope.

Lemma clean_In (s : jsstring) :
  clean s = true <-> forall x, In x s -> unsafeChars x = false.
Proof.
  unfold clean. rewrite forallb_forall. split; intros H x Hx.
  - apply negb_true_iff. auto.
  - apply negb_true_iff. auto.
Qed.

Lemma clean_app (a b : jsstring) : clean (a ++ b) = clean a && clean b.
Proof. apply forallb_app. Qed.

Lemma clean_cons (c : N) (s : jsstring) : clean (c :: s) = negb (unsafeChars c) && clean s.
Proof. reflexivity. Qed.

Lemma clean_join (sep : jsstring) (parts : list jsstring) :
  clean sep = true -> List.Forall (fun p => clean p = true) parts ->
  clean (join sep parts) = true.
Proof.
  intros Hsep. induction 1 as [|p parts Hp Hparts IH]; [reflexivity|].
  cbn [join]. destruct parts as [|q parts]; [exact Hp|].
  rewrite !clean_app, Hp, Hsep. exact IH.
Qed.

Lemma unsafeChars_above (c : N) :
  14 <= c < 60 \/ 63 <= c < 8232 \/ 8234 <= c -> unsafeChars c = false.
Proof.
  intros H. unfold unsafeChars. repeat apply orb_false_intro; apply N.eqb_neq; lia.
Qed.

Lemma clean_digits_loop (base : N) (digit : N -> N) :
  base <> 0 -> (forall d, d < base -> unsafeChars (digit d) = false) ->
  forall fuel n acc, clean acc = true ->
                     clean (digits_loop fuel base digit n acc) = true.
Proof.
  intros Hb Hd.
  assert (Hstep : forall n acc, clean acc = true ->
                                clean (digit (n mod base) :: acc) = true).
  { intros n acc Hacc. rewrite clean_cons, Hd, Hacc; [reflexivity|].
    now apply N.mod_lt. }
  induction fuel as [|fuel IH]; intros n acc Hacc; cbn [digits_loop].
  - now apply Hstep.
  - destruct (n / base =? 0); [now apply Hstep|]. apply IH. now apply Hstep.
Qed.

Lemma clean_decimal (n : N) : clean (decimal n) = true.
Proof.
  apply clean_digits_loop; [lia| |reflexivity].
  intros d Hd. apply unsafeChars_above. unfold digit_char. lia.
Qed.

Lemma clean_hex_upper (n : N) : clean (hex_upper n) = true.
Proof.
  apply clean_digits_loop; [lia| |reflexivity].
  intros d Hd. apply unsafeChars_above. unfold hex_upper_char.
  destruct (N.ltb_spec d 10); lia.
Qed.

Lemma clean_decimal_Z (z : Z) : clean (decimal_Z z) = true.
Proof.
  destruct z as [|p|p]; cbn [decimal_Z].
  - apply clean_decimal.
  - apply clean_decimal.
  - rewrite clean_cons, clean_decimal. reflexivity.
Qed.

Lemma clean_number_to_string (n : number) : clean (number_to_string n) = true.
Proof. destruct n; try reflexivity. apply clean_decimal_Z. Qed.

Lemma clean_strip_leading_zero (s : jsstring) :
  clean s = true -> clean (strip_leading_zero s) = true.
Proof.
  intros H. unfold strip_leading_zero.
  repeat match goal with
         | |- context [match ?x with _ => _ end] =>
             destruct x; try exact H; try reflexivity
         end.
Qed.

Lemma clean_escaped (c : N) (e : jsstring) : escaped c = Some e -> clean e = true.
Proof.
  unfold escaped.
  repeat match goal with
         | |- context [c =? ?k] =>
             destruct (c =? k); [intros [= <-]; reflexivity|]
         end.
  discriminate.
Qed.

Lemma escaped_unsafe (c : N) : escaped c = None -> unsafeChars c = false.
Proof.
  unfold escaped, unsafeChars.
  repeat match goal with
         | |- context [c =? ?k] => destruct (c =? k); [discriminate|]
         end.
  reflexivity.
Qed.

Lemma clean_stringifyString_loop (n : nat) :
  forall str, (length str <= n)%nat -> clean (stringifyString_loop str) = true.
Proof.
  induction n as [|n IH]; intros [|char rest] Hlen; cbn in Hlen; try reflexivity;
    try lia.
  cbn [stringifyString_loop].
  destruct (char =? quote).
  { rewrite clean_app. rewrite IH by lia. reflexivity. }
  destruct (escaped char) as [e|] eqn:He.
  { rewrite clean_app, (clean_escaped _ _ He). apply IH. lia. }
  apply escaped_unsafe in He.
  assert (Hhex : clean (bs "u" ++ hex_upper char ++ stringifyString_loop rest) = true).
  { rewrite !clean_app, clean_hex_upper, IH by lia. reflexivity. }
  destruct (is_surrogate char) eqn:Hs.
  - destruct rest as [|next rest']; [exact Hhex|].
    destruct ((char <=? 56319) && is_low_surrogate next) eqn:Hpair; [|exact Hhex].
    apply andb_prop in Hpair as [_ Hlow].
    rewrite !clean_cons, He. cbn [negb andb].
    rewrite IH by (cbn in Hlen; lia). rewrite andb_true_r.
    apply negb_true_iff, unsafeChars_above.
    unfold is_low_surrogate in Hlow. apply andb_prop in Hlow as [H1 H2].
    apply N.leb_le in H1, H2. lia.
  - rewrite clean_cons, He. cbn [negb andb]. apply IH. lia.
Qed.

Lemma clean_stringifyString (str : jsstring) : clean (stringifyString str) = true.
Proof.
  unfold stringifyString.
  rewrite !clean_app, (clean_stringifyString_loop (length str)) by lia.
  reflexivity.
Qed.

Lemma clean_stringifyPrimitive (thing : value) :
  value_clean thing = true -> clean (stringifyPrimitive thing) = true.
Proof.
  destruct thing as [| |[]|n|s|id [d|]|z|l]; cbn [stringifyPrimitive value_clean];
    try reflexivity.
  - intros _. destruct n; try reflexivity.
    apply clean_strip_leading_zero, clean_number_to_string.
  - intros _. apply clean_stringifyString.
  - intros Hd. rewrite !clean_app, Hd. reflexivity.
  - intros _. apply clean_decimal_Z.
Qed.

Lemma clean_identifier (key : jsstring) : is_identifier key = true -> clean key = true.
Proof. intros H. apply clean_In. intros x. now apply identifier_safe. Qed.

Lemma clean_escapeUnsafeChars (str : jsstring) : clean (escapeUnsafeChars str) = true.
Proof. apply clean_In. intros x. apply escapeUnsafeChars_safe. Qed.

Lemma clean_safeKey (key : jsstring) : clean (safeKey key) = true.
Proof.
  unfold safeKey. destruct (is_identifier key) eqn:E.
  - now apply clean_identifier.
  - apply clean_escapeUnsafeChars.
Qed.

Lemma clean_safeProp (key : jsstring) : clean (safeProp key) = true.
Proof.
  unfold safeProp. destruct (is_identifier key) eqn:E.
  - rewrite clean_app, (clean_identifier _ E). reflexivity.
  - rewrite !clean_app, clean_escapeUnsafeChars. reflexivity.
Qed.
End Clean.

Lemma heap_clean_app (h h' : list object) :
  heap_clean (h ++ h') = heap_clean h && heap_clean h'.
Proof. apply forallb_app. Qed.

Lemma obj_at_clean (h : list object) (l : nat) :
  heap_clean h = true -> object_clean (obj_at h l) = true.
Proof.
  intros H. unfold obj_at. destruct (h !! l) as [o|] eqn:E; [|reflexivity].
  cbn. unfold heap_clean in H. rewrite forallb_forall in H.
  apply H, list_elem_of_In. eapply list_elem_of_lookup_2; eauto.
Qed.

Lemma heap_clean_insert (h : list object) (l : nat) (o : object) :
  heap_clean h = true -> object_clean o = true -> heap_clean (<[l := o]> h) = true.
Proof.
  intros H Ho. unfold heap_clean in *. rewrite forallb_forall in *.
  intros x Hx. apply list_elem_of_In in Hx.
  apply list_elem_of_lookup_1 in Hx as [i Hi].
  destruct (Nat.eq_dec i l) as [->|Hne].
  - destruct (lt_dec l (length h)).
    + rewrite list_lookup_insert_eq in Hi by assumption. now injection Hi as <-.
    + rewrite list_insert_ge in Hi by lia.
      apply H, list_elem_of_In. eapply list_elem_of_lookup_2; eauto.
  - rewrite list_lookup_insert_ne in Hi by auto.
    apply H, list_elem_of_In. eapply list_elem_of_lookup_2; eauto.
Qed.

Lemma alloc_json_clean (j : json) :
  forall h, heap_clean h = true ->
            value_clean (fst (alloc_json j h)) = true
            /\ heap_clean (snd (alloc_json j h)) = true.
Proof.
  induction j as [|b|n|s|items IH|members IH] using json_induction; intros h Hh;
    try (split; [reflexivity|exact Hh]).
  - cbn [alloc_json].
    match goal with
    | |- context [?f items h] => set (go := f)
    end.
    assert (Hgo : forall h, heap_clean h = true ->
                            forallb slot_clean (fst (go items h)) = true
                            /\ heap_clean (snd (go items h)) = true).
    { clear h Hh. induction IH as [|x xs Hx Hxs IHxs]; intros h Hh; cbn.
      - auto.
      - destruct (Hx h Hh) as [Hv Hh1].
        destruct (alloc_json x h) as [v h1]. cbn in Hv, Hh1.
        destruct (IHxs h1 Hh1) as [Hvs Hh2].
        destruct (go xs h1) as [vs h2]. cbn in *. now rewrite Hv. }
    destruct (Hgo h Hh) as [Hvs Hh']. destruct (go items h) as [vs h'].
    cbn [fst snd] in *. split; [reflexivity|].
    rewrite heap_clean_app, Hh'. cbn. unfold object_clean. cbn. now rewrite Hvs.
  - cbn [alloc_json].
    match goal with
    | |- context [?f members h] => set (go := f)
    end.
    assert (Hgo : forall h, heap_clean h = true ->
               forallb (fun p : jsstring * value => value_clean (snd p))
                       (fst (go members h)) = true
               /\ heap_clean (snd (go members h)) = true).
    { clear h Hh. induction IH as [|[k x] xs Hx Hxs IHxs]; intros h Hh; cbn.
      - auto.
      - cbn in Hx. destruct (Hx h Hh) as [Hv Hh1].
        destruct (alloc_json x h) as [v h1]. cbn in Hv, Hh1.
        destruct (IHxs h1 Hh1) as [Hvs Hh2].
        destruct (go xs h1) as [vs h2]. cbn in *. now rewrite Hv. }
    destruct (Hgo h Hh) as [Hvs Hh']. destruct (go members h) as [ps h'].
    cbn [fst snd] in *. split; [reflexivity|].
    rewrite heap_clean_app, Hh'. cbn. unfold object_clean. cbn. now rewrite Hvs.
Qed.

Lemma call_toJSON_clean (h : list object) (f result : value) :
  heap_clean h = true -> call_toJSON h f = Some result -> value_clean result = true.
Proof.
  intros Hh. destruct f as [| | | | | | |l]; try discriminate. cbn.
  pose proof (obj_at_clean h l Hh) as Ho. unfold object_clean in Ho.
  destruct (cls (obj_at h l)); try discriminate.
  intros ->. now apply andb_prop in Ho as [Ho _].
Qed.

Lemma traverse_Forall {A B : Type} (f : A -> outcome B) (Q : B -> Prop)
    (xs : list A) (ys : list B) :
  (forall x y, In x xs -> f x = Returned y -> Q y) ->
  traverse f xs = Returned ys -> List.Forall Q ys.
Proof.
  intros Hf Ht. apply traverse_Forall2 in Ht.
  induction Ht as [|x y xs ys Hxy _ IH]; constructor.
  - apply (Hf x y); [now left|exact Hxy].
  - apply IH. intros x' y' Hin. apply Hf. now right.
Qed.

Lemma Returned_inv {A : Type} (a b : A) : Returned a = Returned b -> a = b.
Proof. now intros [= ->]. Qed.

Ltac returned H := apply Returned_inv in H; subst.

Ltac obind_inv H :=
  match type of H with
  | obind ?m _ = Returned _ =>
      let E := fresh "E" in
      destruct m eqn:E; cbn [obind] in H; [|discriminate H|discriminate H]
  end.

Section StringifyClean.
Variable JSON_parse : jsstring -> option json.
Variable names : list (value * jsstring).
Hypothesis names_clean : forall k name, In (k, name) names -> clean name = true.

Lemma tail_clean (elements : list (option value)) : clean (tail elements) = true.
Proof. unfold tail. destruct (last elements) as [[|]|]; reflexivity. Qed.

Lemma stringify_clean (fuel : nat) :
  forall h thing out,
    heap_clean h = true -> value_clean thing = true ->
    stringify JSON_parse names fuel h thing = Returned out -> clean out = true.
Proof.
  induction fuel as [|fuel IH]; intros h thing out Hh Hv; [discriminate|].
  cbn [stringify].
  destruct (map_get names thing) as [name|] eqn:Hname.
  { intros [= <-]. apply map_get_In in Hname as (k0 & Hin & _).
    eapply names_clean; eauto. }
  assert (Hprim : forall text, Returned (stringifyPrimitive thing) = Returned text ->
                               clean text = true).
  { intros text E. assert (text = stringifyPrimitive thing) as -> by congruence.
    now apply clean_stringifyPrimitive. }
  destruct thing as [| | | | | | |l]; try exact (Hprim out).
  clear Hprim.
  pose proof (obj_at_clean h l Hh) as Ho. unfold object_clean in Ho.
  apply andb_prop in Ho as [Hcls Hprops].
  assert (Hwrap : forall v, value_clean v = true ->
            obind (stringify JSON_parse names fuel h v)
                  (fun s => Returned (js "Object(" ++ s ++ js ")")) = Returned out ->
            clean out = true).
  { intros v Hvc H. obind_inv H. returned H.
    rewrite !clean_app, (IH _ _ _ Hh Hvc E). reflexivity. }
  assert (Hp : forall p, In p (properties (obj_at h l)) -> value_clean (snd p) = true).
  { rewrite forallb_forall in Hprops. exact Hprops. }
  match goal with
  | |- context [if truthy ?t then ?a else ?b] =>
      assert (Hdefault : (if truthy t then a else b) = Returned out ->
                         clean out = true)
  end.
  { destruct (truthy (get_toJSON (obj_at h l))).
    - destruct (call_toJSON h _) as [result|] eqn:Hcall; [|discriminate].
      pose proof (call_toJSON_clean _ _ _ Hh Hcall) as Hres.
      destruct (string_text h result) as [text|]; [|now apply IH].
      destruct (JSON_parse text) as [tree|]; [|now apply IH].
      destruct (alloc_json_clean tree h Hh) as [Hv' Hh'].
      destruct (alloc_json tree h) as [v h']. now apply IH.
    - destruct (proto (obj_at h l)); [|destruct (properties (obj_at h l)) eqn:Eprops|];
        try (intros H; returned H; reflexivity);
        intros H; obind_inv H; returned H;
        rewrite !clean_app; cbn; rewrite ?andb_true_r;
        (apply clean_join; [reflexivity|]);
        (eapply traverse_Forall; [|exact E]);
        intros q y Hin Hy; cbn beta in Hy; obind_inv Hy; returned Hy;
        rewrite !clean_app, clean_safeKey;
        (rewrite (IH _ _ _ Hh (Hp _ Hin) E0)); reflexivity. }
  destruct (cls (obj_at h l)) eqn:Hc.
  - exact Hdefault.
  - now apply Hwrap.
  - now apply Hwrap.
  - now apply Hwrap.
  - intros H. returned H. rewrite !clean_app, clean_number_to_string. reflexivity.
  - intros H. returned H. exact Hcls.
  - unfold stringify_array. intros H. obind_inv H. returned H.
    rewrite !clean_app, tail_clean. cbn. rewrite andb_true_r.
    apply clean_join; [reflexivity|].
    eapply traverse_Forall; [|exact E].
    intros [v|] y Hin; cbn.
    + rewrite forallb_forall in Hcls. apply IH; [exact Hh|]. apply (Hcls _ Hin).
    + now intros [= <-].
  - intros H. obind_inv H. returned H.
    rewrite !clean_app. cbn. rewrite andb_true_r.
    apply clean_join; [reflexivity|].
    eapply traverse_Forall; [|exact E].
    intros v y Hin. rewrite forallb_forall in Hcls. apply IH; [exact Hh|].
    now apply Hcls.
  - intros H. obind_inv H. returned H.
    rewrite !clean_app. cbn. rewrite andb_true_r.
    apply clean_join; [reflexivity|].
    eapply traverse_Forall; [|exact E].
    intros e y Hin. cbn. rewrite forallb_forall in Hcls.
    apply IH; [|reflexivity].
    rewrite heap_clean_app, Hh. specialize (Hcls _ Hin). cbn in Hcls.
    apply andb_prop in Hcls as [H1 H2].
    cbn. unfold object_clean. cbn. now rewrite H1, H2.
  - exact Hdefault.
Qed.
End StringifyClean.

Lemma indexed_In (elements : list (option value)) :
  forall (i n : nat) (v : value),
    In (n, v) (indexed i elements) -> In (Some v) elements.
Proof.
  induction elements as [|[x|] elements IH]; intros i n v; cbn; [intros []| |].
  - intros [[= _ ->]|H]; [now left|right; eauto].
  - intros H. right. eauto.
Qed.

Section AssembleClean.
Variable JSON_parse : jsstring -> option json.
Variable names : list (value * jsstring).
Hypothesis names_clean : forall k name, In (k, name) names -> clean name = true.

Lemma binding_clean (fuel : nat) (h : list object) (thing : value)
    (name value_text : jsstring) (statements : list jsstring) :
  heap_clean h = true -> value_clean thing = true -> clean name = true ->
  binding JSON_parse names fuel h thing name = Returned (value_text, statements) ->
  clean value_text = true /\ List.Forall (fun s => clean s = true) statements.
Proof.
  intros Hh Hv Hname.
  pose proof (stringify_clean JSON_parse names names_clean fuel) as Hs.
  unfold binding.
  assert (Hprim : forall r, Returned (stringifyPrimitive thing, []) = Returned r ->
                            clean (fst r) = true
                            /\ List.Forall (fun s => clean s = true) (snd r)).
  { intros r E. returned E. cbn. split; [now apply clean_stringifyPrimitive|constructor]. }
  destruct thing as [| | | | | | |l];
    try exact (Hprim (value_text, statements)).
  clear Hprim.
  pose proof (obj_at_clean h l Hh) as Ho. unfold object_clean in Ho.
  apply andb_prop in Ho as [Hcls Hprops].
  assert (Hp : forall p, In p (properties (obj_at h l)) -> value_clean (snd p) = true).
  { rewrite forallb_forall in Hprops. exact Hprops. }
  assert (Hwrap : forall v, value_clean v = true ->
            obind (stringify JSON_parse names fuel h v)
                  (fun s => Returned (js "Object(" ++ s ++ js ")", @nil jsstring))
            = Returned (value_text, statements) ->
            clean value_text = true
            /\ List.Forall (fun s => clean s = true) statements).
  { intros v Hvc H. obind_inv H. apply Returned_inv, pair_equal_spec in H as [<- <-].
    split; [|constructor]. rewrite !clean_app, (Hs _ _ _ Hh Hvc E). reflexivity. }
  assert (Hdefault :
    obind (traverse (fun p : jsstring * value =>
                       obind (stringify JSON_parse names fuel h (snd p))
                             (fun s => Returned (name ++ safeProp (fst p) ++ js "=" ++ s)))
                    (properties (obj_at h l)))
          (fun stmts => Returned (match proto (obj_at h l) with
                                  | NullPrototype => js "Object.create(null)"
                                  | _ => js "{}"
                                  end, stmts))
    = Returned (value_text, statements) ->
    clean value_text = true /\ List.Forall (fun s => clean s = true) statements).
  { intros H. obind_inv H. apply Returned_inv, pair_equal_spec in H as [<- <-]. split.
    - now destruct (proto (obj_at h l)).
    - eapply traverse_Forall; [|exact E].
      intros q y Hin Hy. cbn beta in Hy. obind_inv Hy. returned Hy.
      rewrite !clean_app, Hname, clean_safeProp, (Hs _ _ _ Hh (Hp _ Hin) E0).
      reflexivity. }
  destruct (cls (obj_at h l)) eqn:Hc.
  - exact Hdefault.
  - now apply Hwrap.
  - now apply Hwrap.
  - now apply Hwrap.
  - intros H. apply Returned_inv, pair_equal_spec in H as [<- <-]. split; [|constructor].
    rewrite !clean_app, clean_number_to_string. reflexivity.
  - intros H. apply Returned_inv, pair_equal_spec in H as [<- <-]. split; [|constructor].
    exact Hcls.
  - intros H. obind_inv H. apply Returned_inv, pair_equal_spec in H as [<- <-]. split.
    + rewrite !clean_app, clean_decimal. reflexivity.
    + eapply traverse_Forall; [|exact E].
      intros [i v] y Hin Hy. cbn beta in Hy. obind_inv Hy. returned Hy.
      rewrite !clean_app, Hname, clean_decimal. cbn.
      eapply Hs; [exact Hh| |exact E0].
      rewrite forallb_forall in Hcls. apply indexed_In in Hin.
      apply (Hcls _ Hin).
  - intros H. obind_inv H. apply Returned_inv, pair_equal_spec in H as [<- <-].
    split; [reflexivity|]. constructor; [|constructor].
    rewrite !clean_app, Hname. cbn.
    apply clean_join; [reflexivity|].
    eapply traverse_Forall; [|exact E].
    intros v y Hin Hy. cbn beta in Hy. obind_inv Hy. returned Hy.
    rewrite !clean_app. rewrite forallb_forall in Hcls.
    rewrite (Hs _ _ _ Hh (Hcls _ Hin) E0). reflexivity.
  - intros H. obind_inv H. apply Returned_inv, pair_equal_spec in H as [<- <-].
    split; [reflexivity|]. constructor; [|constructor].
    rewrite !clean_app, Hname. cbn.
    apply clean_join; [reflexivity|].
    eapply traverse_Forall; [|exact E].
    intros e y Hin Hy. cbn beta in Hy. obind_inv Hy. obind_inv Hy. returned Hy.
    rewrite forallb_forall in Hcls. specialize (Hcls _ Hin). cbn beta in Hcls.
    apply andb_prop in Hcls as [H1 H2].
    rewrite !clean_app, (Hs _ _ _ Hh H1 E0), (Hs _ _ _ Hh H2 E1). reflexivity.
  - exact Hdefault.
Qed.

End AssembleClean.

Lemma assemble_clean (JSON_parse : jsstring -> option json)
    (names : list (value * jsstring)) (fuel : nat) (h : list object)
    (root : value) (out : jsstring) :
  (forall k name, In (k, name) names -> clean name = true) ->
  heap_clean h = true -> value_clean root = true ->
  (forall k name, In (k, name) names -> value_clean k = true) ->
  assemble JSON_parse names fuel h root = Returned out -> clean out = true.
Proof.
  intros names_clean Hh Hv Hkeys. unfold assemble. intros H.
  destruct (stringify JSON_parse names fuel h root) as [str| |] eqn:E;
    cbn [obind] in H; try discriminate H.
  pose proof (stringify_clean JSON_parse names names_clean fuel _ _ _ Hh Hv E) as Hstr.
  assert (Hcase : names = [] \/
                  obind (traverse (fun entry => binding JSON_parse names fuel h
                                                  (fst entry) (snd entry)) names)
                    (fun bindings =>
                       Returned (js "(function(" ++ join (js ",") (List.map snd names)
                                 ++ js "){"
                                 ++ join (js ";") (flat_map snd bindings
                                                    ++ [js "return " ++ str])
                                 ++ js "}(" ++ join (js ",") (List.map fst bindings)
                                 ++ js "))")) = Returned out).
  { destruct names; [now left|right; exact H]. }
  destruct Hcase as [->|Hcase]; [now returned H|]. clear H. rename Hcase into H.
  match type of H with
  | obind ?m _ = _ =>
      destruct m as [bindings| |] eqn:E0; cbn [obind] in H; try discriminate H
  end.
  returned H.
  assert (Hb : List.Forall (fun b : jsstring * list jsstring =>
                  clean (fst b) = true
                  /\ List.Forall (fun s => clean s = true) (snd b)) bindings).
  { eapply traverse_Forall; [|exact E0].
    intros [k name] [value_text statements] Hin Hy. cbn [fst snd] in *.
    apply (binding_clean JSON_parse names names_clean fuel h k name);
      [exact Hh|eapply Hkeys; eauto|eapply names_clean; eauto|exact Hy]. }
  rewrite !clean_app.
  repeat (apply andb_true_intro; split);
    try (apply clean_join; [reflexivity|]); try reflexivity.
  - apply List.Forall_forall. intros name Hin. apply in_map_iff in Hin as ([k n] & <- & Hin).
    eapply names_clean; eauto.
  - apply List.Forall_app. split.
    + apply List.Forall_forall. intros s Hin. apply in_flat_map in Hin as (b & Hb1 & Hb2).
      rewrite List.Forall_forall in Hb. destruct (Hb _ Hb1) as [_ Hs].
      rewrite List.Forall_forall in Hs. now apply Hs.
    + constructor; [|constructor]. rewrite clean_app, Hstr. reflexivity.
  - apply List.Forall_forall. intros s Hin. apply in_map_iff in Hin as (b & <- & Hin).
    rewrite List.Forall_forall in Hb. now destruct (Hb _ Hin).
Qed.

(** *** The traversal keeps the heap clean *)

Lemma update_property_clean (props : list (jsstring * value)) (key : jsstring)
    (v : value) :
  value_clean v = true ->
  forallb (fun p : jsstring * value => value_clean (snd p)) props = true ->
  forallb (fun p : jsstring * value => value_clean (snd p))
          (update_property props key v) = true.
Proof.
  intros Hv. induction props as [|[k w] props IH]; cbn; [auto|].
  intros [Hw Hps]%andb_prop. destruct (jsstring_eqb k key); cbn.
  - now rewrite Hv.
  - rewrite Hw. auto.
Qed.

Lemma insert_property_clean (props : list (jsstring * value)) (key : jsstring)
    (v : value) :
  value_clean v = true ->
  forallb (fun p : jsstring * value => value_clean (snd p)) props = true ->
  forallb (fun p : jsstring * value => value_clean (snd p))
          (insert_property props key v) = true.
Proof.
  intros Hv. induction props as [|[k w] props IH]; cbn [insert_property].
  - cbn. now rewrite Hv.
  - intros Hall. pose proof Hall as [Hw Hps]%andb_prop. cbn in Hw.
    destruct (array_index key), (array_index k);
      try destruct (_ <? _)%N;
      cbn [forallb snd]; rewrite ?Hv, ?Hw; cbn [andb]; auto.
Qed.

Lemma put_property_clean (h : list object) (l : nat) (key : jsstring) (v : value) :
  heap_clean h = true -> value_clean v = true ->
  heap_clean (put_property h l key v) = true.
Proof.
  intros Hh Hv. unfold put_property. apply heap_clean_insert; [exact Hh|].
  pose proof (obj_at_clean h l Hh) as Ho. unfold object_clean in *.
  apply andb_prop in Ho as [Hcls Hprops]. cbn [cls properties with_properties].
  rewrite Hcls. cbn [andb]. unfold set_own_property.
  destruct (assoc _ key).
  - now apply update_property_clean.
  - now apply insert_property_clean.
Qed.

Lemma set_element_clean (elements : list (option value)) (i : nat) (v : value) :
  value_clean v = true -> forallb slot_clean elements = true ->
  forallb slot_clean (set_element elements i v) = true.
Proof.
  intros Hv He. unfold set_element. rewrite forallb_forall in *.
  intros x Hx. destruct (i <? length elements)%nat eqn:Hi.
  - apply list_elem_of_In, list_elem_of_lookup_1 in Hx as [j Hj].
    apply Nat.ltb_lt in Hi.
    destruct (Nat.eq_dec j i) as [->|Hne].
    + rewrite list_lookup_insert_eq in Hj by assumption. now injection Hj as <-.
    + rewrite list_lookup_insert_ne in Hj by auto.
      apply He, list_elem_of_In. eapply list_elem_of_lookup_2; eauto.
  - apply in_app_or in Hx as [Hx|Hx]; [auto|].
    apply in_app_or in Hx as [Hx|[<-|[]]]; [|exact Hv].
    apply list_elem_of_In, elem_of_replicate in Hx as [-> _]. reflexivity.
Qed.

Lemma put_index_clean (h h' : list object) (target : value) (i : nat) (v : value) :
  heap_clean h = true -> value_clean v = true ->
  put_index h target i v = Some h' -> heap_clean h' = true.
Proof.
  intros Hh Hv. unfold put_index.
  destruct target as [| | | | | | |l]; try discriminate.
  pose proof (obj_at_clean h l Hh) as Ho.
  destruct (cls (obj_at h l)) eqn:Hc;
    try (intros [= <-]; now apply put_property_clean).
  - destruct (_ <? _)%nat; [discriminate|].
    intros [= <-]. now apply put_property_clean.
  - intros [= <-]. apply heap_clean_insert; [exact Hh|].
    unfold object_clean in *. rewrite Hc in Ho.
    apply andb_prop in Ho as [He Hp]. cbn [cls properties with_elements].
    rewrite Hp, andb_true_r. now apply set_element_clean.
Qed.

Lemma map_set_values {V : Type} (m : list (value * V)) (k : value) (v : V)
    (P : V -> Prop) :
  P v -> (forall k0 v0, In (k0, v0) m -> P v0) ->
  forall k0 v0, In (k0, v0) (map_set m k v) -> P v0.
Proof.
  intros Hv. induction m as [|[k1 v1] m IH]; cbn; intros Hm k0 v0.
  - intros [[= _ <-]|[]]. exact Hv.
  - destruct (same_value_zero k1 k); cbn.
    + intros [[= _ <-]|Hin]; [exact Hv|eauto].
    + intros [[= <- <-]|Hin]; [eauto|]. eapply IH; eauto.
Qed.

Lemma map_set_keys {V : Type} (m : list (value * V)) (k : value) (v : V) :
  value_clean k = true ->
  (forall k0 v0, In (k0, v0) m -> value_clean k0 = true) ->
  forall k0 v0, In (k0, v0) (map_set m k v) -> value_clean k0 = true.
Proof.
  intros Hk. induction m as [|[k1 v1] m IH]; cbn; intros Hm k0 v0.
  - intros [[= <- _]|[]]. now destruct k as [| | |[]| | | |].
  - destruct (same_value_zero k1 k); cbn.
    + intros [[= <- _]|Hin]; eauto.
    + intros [[= <- <-]|Hin]; [eauto|]. eapply IH; eauto.
Qed.

Lemma map_delete_In {V : Type} (m : list (value * V)) (k k0 : value) (v0 : V) :
  In (k0, v0) (map_delete m k) -> In (k0, v0) m.
Proof.
  induction m as [|[k1 v1] m IH]; cbn; [auto|].
  destruct (same_value_zero k1 k); cbn; [auto|]. intros [H|H]; auto.
Qed.

Lemma splice_clean (parent : option nat) (key : option jsstring)
    (index : option nat) (converted : value) (st : state) :
  state_clean st -> value_clean converted = true ->
  state_clean (snd (splice parent key index converted st)).
Proof.
  intros (Hh & Hm & Hc) Hv. unfold splice, bind, gets, modify, throw.
  destruct parent as [p|]; [|now repeat split].
  destruct index as [i|]; cbn.
  - destruct (put_index _ _ i converted) as [h'|] eqn:E; cbn; [|now repeat split].
    split; [|split; [exact Hm|exact Hc]]. cbn. eapply put_index_clean; eauto.
  - split; [|split; [exact Hm|exact Hc]]. cbn. now apply put_property_clean.
Qed.

Lemma walk_toJSON_clean (JSON_parse : jsstring -> option json) (thing : value)
    (o : object) (parent : option nat) (key : option jsstring)
    (index : option nat) (st : state) :
  state_clean st -> value_clean thing = true ->
  state_clean (snd (walk_toJSON JSON_parse thing o parent key index st)).
Proof.
  intros (Hh & Hm & Hc) Hthing. unfold walk_toJSON, bind, gets, modify, ret, throw.
  cbn [fst snd].
  assert (Hd : forall k c, In (k, c) (map_delete (counts st) thing) ->
                           value_clean k = true).
  { intros k c Hin. apply map_delete_In in Hin. eauto. }
  destruct (map_get _ thing) as [converted|] eqn:Hget.
  - apply map_get_In in Hget as (k0 & Hin & _). cbn in Hin.
    pose proof (Hm _ _ Hin) as Hconv.
    match goal with
    | |- context [splice parent key index ?c ?s] =>
        pose proof (splice_clean parent key index c s) as H1;
        destruct (splice parent key index c s) as [[[]| |] s']
    end; cbn in *; apply H1; auto; repeat split; cbn; auto;
      now apply map_set_keys.
  - cbn [st_heap set_counts].
    destruct (typeof_function _ (get_toJSON o));
      (destruct (call_toJSON _ (get_toJSON o)) as [result|] eqn:Hcall;
       [|cbn; now repeat split]);
      pose proof (call_toJSON_clean _ _ _ Hh Hcall) as Hres;
      (destruct (string_text _ result) as [text|];
       [destruct (JSON_parse text) as [tree|];
        [destruct (alloc_json_clean tree _ Hh) as [Hv' Hh'];
         destruct (alloc_json tree _) as [v h']|]|]);
      cbn -[splice];
      match goal with
      | |- context [splice parent key index ?c ?s] =>
          pose proof (splice_clean parent key index c s) as H1;
          destruct (splice parent key index c s) as [[[]| |] s']
      end; cbn in *; apply H1; auto; repeat split; cbn; auto;
      try (apply map_set_values; auto); try (apply map_set_keys; auto).
Qed.

Section WalkClean.
Variable logLimit : Z.
Variable JSON_parse : jsstring -> option json.

Let I_I : forall st, state_clean st -> state_clean st := fun _ H => H.

Lemma state_clean_frame (st st' : state) :
  st_heap st' = st_heap st -> mapObjToJSON st' = mapObjToJSON st ->
  counts st' = counts st -> state_clean st -> state_clean st'.
Proof. unfold state_clean. now intros -> -> ->. Qed.

Lemma state_clean_count (st : state) (thing : value) (c : count) :
  state_clean st -> value_clean thing = true ->
  state_clean (set_counts (map_set (counts st) thing c) st).
Proof.
  intros (Hh & Hm & Hc) Hv. repeat split; auto. cbn. now apply map_set_keys.
Qed.

Lemma state_clean_alloc (st : state) (k v : value) :
  state_clean st -> value_clean k = true -> value_clean v = true ->
  state_clean (set_heap (st_heap st ++ [array [Some k; Some v]]) st).
Proof.
  intros (Hh & Hm & Hc) Hk Hv. repeat split; auto. cbn [st_heap set_heap].
  rewrite heap_clean_app, Hh. cbn. unfold object_clean. cbn. now rewrite Hk, Hv.
Qed.

Lemma state_clean_log (message : jsstring) (st : state) :
  state_clean st -> ok_at state_clean state_clean (log logLimit message) st.
Proof.
  intros HI. unfold ok_at, log, bind, gets, consola, modify, ret. cbn.
  destruct (Z.of_nat (logNum st) <? logLimit)%Z; cbn; (split; [|intros _ _]; exact HI).
Qed.

Lemma walk_clean (fuel : nat) :
  forall thing parent key index st,
    state_clean st -> value_clean thing = true ->
    ok_at state_clean state_clean
          (walk logLimit JSON_parse fuel thing parent key index) st.
Proof.
  induction fuel as [|fuel IH]; intros thing parent key index st HI HR.
  { now apply ok_at_stop. }
  cbn [walk]. apply ok_at_gets.
  destruct (typeof_function (st_heap st) thing) eqn:Hty.
  { split; cbn; [|intros _ _]; exact HI. }
  apply ok_at_gets.
  destruct (map_has (counts st) thing).
  { apply ok_at_modify_end; auto. now apply state_clean_count. }
  apply ok_at_modify.
  set (st1 := set_counts _ st).
  assert (HI1 : state_clean st1) by (now apply state_clean_count).
  destruct thing as [| | | | | | |l]; try (now apply ok_at_ret).
  change (st_heap st) with (st_heap st1).
  pose proof (obj_at_clean (st_heap st1) l (proj1 HI1)) as Ho.
  unfold object_clean in Ho. apply andb_prop in Ho as [Hc Hp].
  assert (Hprop : forall st' key', state_clean st' ->
                    value_clean (get_property (st_heap st') l key') = true).
  { intros st' key' (Hh' & _). unfold get_property.
    destruct (assoc _ key') as [v|] eqn:E; [|reflexivity]. cbn.
    apply assoc_entry in E.
    pose proof (obj_at_clean (st_heap st') l Hh') as Ho'.
    unfold object_clean in Ho'. apply andb_prop in Ho' as [_ Hp'].
    rewrite forallb_forall in Hp'. apply (Hp' _ E). }
  destruct (cls (obj_at (st_heap st1) l)) eqn:Hcls; try (now apply ok_at_ret).
  - unfold typeof_function in Hty. change (st_heap st) with (st_heap st1) in Hty.
    rewrite Hcls in Hty. discriminate.
  - apply ok_at_forEach_array; [exact I_I| |exact HI1].
    intros item i st' Hget HI'. apply IH; [exact HI'|].
    unfold array_get in Hget.
    pose proof (obj_at_clean (st_heap st') l (proj1 HI')) as Ho'.
    unfold object_clean in Ho'. apply andb_prop in Ho' as [Hc' _].
    destruct (cls (obj_at (st_heap st') l)); try discriminate.
    destruct (elements0 !! i) as [slot|] eqn:E; [|discriminate]. cbn in Hget. subst slot.
    rewrite forallb_forall in Hc'.
    apply (Hc' (Some item)), list_elem_of_In. eapply list_elem_of_lookup_2; eauto.
  - apply ok_at_forEach; [exact I_I| |exact HI1].
    intros item st' Hin HI'. apply IH; [exact HI'|].
    rewrite forallb_forall in Hc. now apply Hc.
  - destruct (alloc_pairs_ok state_clean (fun v => value_clean v = true))
      with (entries := entries) (st := st1) as (items & Hret & HIs & HRs); auto.
    { intros st' k v. apply state_clean_alloc. }
    { intros k v Hin. rewrite forallb_forall in Hc. specialize (Hc _ Hin).
      cbn in Hc. now apply andb_prop in Hc. }
    apply ok_at_bind.
    + split; [exact HIs | intros; exact HIs].
    + intros items' Hret'. rewrite Hret in Hret'. apply Returned_inv in Hret'.
      subst items'.
      apply ok_at_forEach; [exact I_I| |exact HIs].
      intros item st' Hin HI'. apply IH; [exact HI'|].
      rewrite Forall_forall in HRs. apply HRs. now apply list_elem_of_In.
  - destruct (truthy (get_toJSON (obj_at (st_heap st1) l))) eqn:Htj.
    { split; [|intros _ _]; now apply walk_toJSON_clean. }
    unfold walk_object.
    destruct (proto (obj_at (st_heap st1) l)) as [| |[|] [name|] inherited];
      try (now apply state_clean_log); try (now apply ok_at_stop);
      (destruct (symbols (obj_at (st_heap st1) l)); [|now apply state_clean_log];
       apply ok_at_forEach_key; [exact I_I| |exact HI1];
       intros k st' HI'; apply IH; [exact HI'|]; now apply Hprop).
Qed.
End WalkClean.

Lemma assign_names_clean (table : list (value * count)) (k : value)
    (name : jsstring) :
  In (k, name) (assign_names table) -> clean name = true.
Proof.
  intros Hin.
  assert (Hs : In name (List.map snd (assign_names table))).
  { apply in_map_iff. now exists (k, name). }
  apply number_from_names in Hs as (j & _ & ->).
  apply clean_identifier, getName_is_identifier.
Qed.

(** No character of the class [unsafeChars] (the angle brackets, the
    control characters the class lists, the separators U+2028 and U+2029)
    is in the text [devalue] returns, when none is in the source of a
    regular expression or in the description of a symbol of the input:
    strings, keys and names are escaped or harmless, whatever the value. *)
Theorem output_has_no_unsafe_character (logLimit : Z)
    (JSON_parse : jsstring -> option json) (fuel : nat) (h : heap)
    (v : value) (out : jsstring) :
  heap_clean h = true -> value_clean v = true ->
  serialize logLimit JSON_parse fuel h v = Returned out ->
  clean out = true.
Proof.
  intros Hh Hv. unfold serialize, devalue.
  assert (H0 : state_clean (initial_state h)).
  { split; [exact Hh|]. split; intros ? ? []. }
  pose proof (walk_clean logLimit JSON_parse fuel v None None None _ H0 Hv)
    as [HJ _].
  destruct (walk logLimit JSON_parse fuel v None None None (initial_state h))
    as [[u| |] st]; cbn [fst snd] in *; try discriminate.
  destruct HJ as (Hh' & _ & Hc).
  apply assemble_clean; auto.
  - apply assign_names_clean.
  - intros k name Hin. apply assign_names_keys in Hin as [c Hin]. eauto.
Qed.

Lemma output_has_no_unsafe_character_witness :
  clean (js "{a:" ++ [quote] ++ bs "u003Cb" ++ bs "u003E" ++ [quote] ++ js "}") = true.
Proof.
  apply (output_has_no_unsafe_character 99 (fun _ => None) 5
           [plain [(js "a", VString (js "<b>"))]] (VObject 0)).
  - reflexivity.
  - reflexivity.
  - vm_compute. reflexivity.
Defined.

(** ** The traversal ends (lines 39-131) *)

Section Runs.
Variable may_throw : Prop.
Variable I : state -> Prop.

Lemma runs_ret {A : Type} (a : A) (st : state) : I st -> runs may_throw I (ret a) st.
Proof. intros HI. split; cbn; auto. Qed.

Lemma runs_bind {A B : Type} (m : M A) (k : A -> M B) (st : state) :
  runs may_throw I m st ->
  (forall a, fst (m st) = Returned a -> runs may_throw I (k a) (snd (m st))) ->
  runs may_throw I (bind m k) st.
Proof.
  intros [HI Hf] Hk. unfold runs, bind.
  destruct (m st) as [[a| |] st1] eqn:E; cbn in *.
  - apply (Hk a eq_refl).
  - split; assumption.
  - destruct Hf.
Qed.

Lemma runs_gets {A B : Type} (f : state -> A) (k : A -> M B) (st : state) :
  runs may_throw I (k (f st)) st -> runs may_throw I (bind (gets f) k) st.
Proof. exact (fun H => H). Qed.

Lemma runs_modify {B : Type} (g : state -> state) (k : unit -> M B) (st : state) :
  runs may_throw I (k tt) (g st) -> runs may_throw I (bind (modify g) k) st.
Proof. exact (fun H => H). Qed.

Lemma runs_modify_end (g : state -> state) (st : state) :
  I (g st) -> runs may_throw I (modify g) st.
Proof. intros HI. split; cbn; auto. Qed.

Lemma runs_forEach {A : Type} (f : A -> M unit) (xs : list A) :
  (forall x st, In x xs -> I st -> runs may_throw I (f x) st) ->
  forall st, I st -> runs may_throw I (forEach f xs) st.
Proof.
  induction xs as [|x xs IH]; intros Hf st HI; cbn [forEach].
  - now apply runs_ret.
  - apply runs_bind.
    + apply Hf; [now left | exact HI].
    + intros [] Hret. apply IH.
      * intros y st' Hy. apply Hf. now right.
      * apply (Hf x st (or_introl eq_refl) HI).
Qed.

Lemma runs_forEach_array (f : value -> nat -> M unit) (l : nat) (n : nat) :
  (forall item i st, array_get (st_heap st) l i = Some item -> I st ->
                     runs may_throw I (f item i) st) ->
  forall i st, I st -> runs may_throw I (forEach_array f l i n) st.
Proof.
  intros Hf. induction n as [|n IH]; intros i st HI; cbn [forEach_array].
  - now apply runs_ret.
  - apply runs_gets.
    destruct (array_get (st_heap st) l i) as [item|] eqn:E.
    + apply runs_bind.
      * now apply Hf.
      * intros [] Hret. apply IH. apply (Hf item i st E HI).
    + now apply IH.
Qed.

Lemma runs_forEach_key (f : value -> jsstring -> M unit) (l : nat)
    (keys : list jsstring) :
  (forall key st, I st -> runs may_throw I (f (get_property (st_heap st) l key) key) st) ->
  forall st, I st -> runs may_throw I (forEach_key f l keys) st.
Proof.
  intros Hf. induction keys as [|key keys IH]; intros st HI; cbn [forEach_key].
  - now apply runs_ret.
  - apply runs_gets. apply runs_bind.
    + now apply Hf.
    + intros [] Hret. apply IH. apply (Hf key st HI).
Qed.
End Runs.

Lemma runs_weaken (may_throw : Prop) (I I' : state -> Prop) {A : Type} (m : M A)
    (st : state) :
  (forall st', I st' -> I' st') -> runs may_throw I m st -> runs may_throw I' m st.
Proof. intros H [HI Hf]. split; auto. Qed.

Lemma count_unvisited_mono (t t' : list (value * count)) (n : nat) :
  (forall l, map_has t (VObject l) = true -> map_has t' (VObject l) = true) ->
  count_unvisited t' n <= count_unvisited t n.
Proof.
  intros H. induction n as [|n IH]; cbn; [lia|].
  specialize (H n). destruct (map_has t (VObject n)).
  - rewrite H by reflexivity. lia.
  - destruct (map_has t' (VObject n)); lia.
Qed.

Lemma count_unvisited_visit (t t' : list (value * count)) (n l : nat) :
  (forall l, map_has t (VObject l) = true -> map_has t' (VObject l) = true) ->
  l < n -> map_has t (VObject l) = false -> map_has t' (VObject l) = true ->
  count_unvisited t' n < count_unvisited t n.
Proof.
  intros H Hl Hf Ht. induction n as [|n IH]; cbn; [lia|].
  destruct (Nat.eq_dec l n) as [->|Hne].
  - rewrite Hf, Ht. pose proof (count_unvisited_mono t t' n H). lia.
  - assert (Hlt : l < n) by lia. specialize (IH Hlt).
    specialize (H n). destruct (map_has t (VObject n)).
    + rewrite H by reflexivity. lia.
    + destruct (map_has t' (VObject n)); lia.
Qed.

Section Terminates.
Variable logLimit : Z.
Variable JSON_parse : jsstring -> option json.
Variable may_throw : Prop.
Variable h : list object.
Hypothesis Hclosed : closed h = true.
Hypothesis Hfree : toJSON_free h = true.
Hypothesis Hthrow : constructors_named h = true \/ may_throw.

(** One of the arrays [Array.from(map)] creates, of values of the input. *)
Let pair_ok (o : object) : Prop :=
  exists k v, o = array [Some k; Some v]
              /\ in_range h k = true /\ in_range h v = true.

(** The heap is the input followed by such arrays, and at most [n] of the
    objects of the input are not counted yet. *)
Let extends (st : state) : Prop :=
  exists fresh, st_heap st = h ++ fresh /\ List.Forall pair_ok fresh.

Let Inv (n : nat) (st : state) : Prop :=
  extends st /\ count_unvisited (counts st) (length h) <= n.

Lemma extends_old (st : state) (l : nat) :
  extends st -> l < length h -> obj_at (st_heap st) l = obj_at h l.
Proof.
  intros (fresh & -> & _) Hl. unfold obj_at. now rewrite lookup_app_l.
Qed.

Lemma extends_new (st : state) (l : nat) :
  extends st -> length h <= l ->
  obj_at (st_heap st) l = plain [] \/ pair_ok (obj_at (st_heap st) l).
Proof.
  intros (fresh & -> & Hfresh) Hl. unfold obj_at. rewrite lookup_app_r by exact Hl.
  destruct (fresh !! (l - length h)) as [o|] eqn:E; [right|now left]. cbn.
  rewrite List.Forall_forall in Hfresh. apply Hfresh, list_elem_of_In.
  eapply list_elem_of_lookup_2; eauto.
Qed.

Lemma closed_children (l : nat) (v : value) :
  In v (children (obj_at h l)) -> in_range h v = true.
Proof.
  unfold obj_at. destruct (h !! l) as [o|] eqn:E; [cbn|intros []].
  unfold closed in Hclosed. rewrite forallb_forall in Hclosed.
  assert (Ho : In o h).
  { apply list_elem_of_In. eapply list_elem_of_lookup_2; eauto. }
  specialize (Hclosed o Ho). rewrite forallb_forall in Hclosed. apply Hclosed.
Qed.

Lemma Inv_frame (n : nat) (st st' : state) :
  st_heap st' = st_heap st -> counts st' = counts st -> Inv n st -> Inv n st'.
Proof. unfold Inv, extends. now intros -> ->. Qed.

Lemma Inv_count (n : nat) (st : state) (k : value) (c : count) :
  Inv n st -> Inv n (set_counts (map_set (counts st) k c) st).
Proof.
  intros [He Hn]. split; [exact He|]. cbn.
  etransitivity; [|exact Hn]. apply count_unvisited_mono.
  intros l Hl. rewrite map_has_set, Hl. reflexivity.
Qed.

Lemma Inv_visit (n : nat) (st : state) (l : nat) (c : count) :
  Inv n st -> l < length h -> map_has (counts st) (VObject l) = false ->
  exists n', n = S n' /\ Inv n' (set_counts (map_set (counts st) (VObject l) c) st).
Proof.
  intros [He Hn] Hl Hseen.
  assert (Hlt : count_unvisited (map_set (counts st) (VObject l) c) (length h)
                < count_unvisited (counts st) (length h)).
  { apply (count_unvisited_visit _ _ _ l); auto.
    - intros l' Hl'. rewrite map_has_set, Hl'. reflexivity.
    - apply map_has_set_same. }
  destruct n as [|n']; [lia|]. exists n'. split; [reflexivity|].
  split; [exact He|]. cbn. lia.
Qed.

Lemma Inv_weaken (n n' : nat) (st : state) : n <= n' -> Inv n st -> Inv n' st.
Proof. intros Hn [He Hc]. split; [exact He|lia]. Qed.

Lemma runs_log (n : nat) (message : jsstring) (st : state) :
  Inv n st -> runs may_throw (Inv n) (log logLimit message) st.
Proof.
  intros HI. unfold runs, log, bind, gets, consola, modify, ret. cbn.
  destruct (Z.of_nat (logNum st) <? logLimit)%Z; cbn; (split; [exact HI|exact Logic.I]).
Qed.

Lemma alloc_pairs_runs (n : nat) (entries : list (value * value)) :
  forall st, Inv n st ->
    (forall k v, In (k, v) entries -> in_range h k = true /\ in_range h v = true) ->
    exists items, fst (alloc_pairs entries st) = Returned items
                  /\ Inv n (snd (alloc_pairs entries st))
                  /\ List.Forall (fun v => exists l, v = VObject l /\ length h <= l) items.
Proof.
  induction entries as [|[k v] entries IH]; intros st HI HR.
  - exists []. cbn. auto.
  - destruct (HR k v (or_introl eq_refl)) as [Rk Rv].
    assert (HI' : Inv n (set_heap (st_heap st ++ [array [Some k; Some v]]) st)).
    { destruct HI as [(fresh & Hh & Hf) Hn]. split; [|exact Hn].
      exists (fresh ++ [array [Some k; Some v]]). cbn. rewrite Hh, <- app_assoc.
      split; [reflexivity|]. apply List.Forall_app. split; [exact Hf|].
      constructor; [|constructor]. exists k, v. auto. }
    destruct (IH _ HI' (fun k' v' H => HR k' v' (or_intror H)))
      as (items & Hret & HIs & HRs).
    exists (VObject (length (st_heap st)) :: items).
    cbn [alloc_pairs]. unfold bind, gets, modify, ret.
    destruct (alloc_pairs entries (set_heap _ st)) as [[items'| |] st'] eqn:E;
      cbn in Hret, HIs; try discriminate.
    injection Hret as ->. cbn. split; [reflexivity|]. split; [exact HIs|].
    constructor; [|exact HRs].
    eexists. split; [reflexivity|].
    destruct HI as [(fresh & -> & _) _]. rewrite length_app. lia.
Qed.

Lemma toJSON_free_at (l : nat) :
  cls (obj_at h l) = Plain -> truthy (get_toJSON (obj_at h l)) = false.
Proof.
  unfold obj_at. destruct (h !! l) as [o|] eqn:E; [cbn|reflexivity].
  unfold toJSON_free in Hfree. rewrite forallb_forall in Hfree.
  assert (Ho : In o h).
  { apply list_elem_of_In. eapply list_elem_of_lookup_2; eauto. }
  specialize (Hfree o Ho). intros Hc. rewrite Hc in Hfree.
  now apply negb_true_iff.
Qed.

Lemma unnamed_may_throw (l : nat) (inherited : value) :
  proto (obj_at h l) = OtherPrototype false None inherited -> may_throw.
Proof.
  destruct Hthrow as [Hnamed|H]; [|auto]. intros Hp. exfalso.
  unfold obj_at in Hp. destruct (h !! l) as [o|] eqn:E; [cbn in Hp|discriminate].
  unfold constructors_named in Hnamed. rewrite forallb_forall in Hnamed.
  assert (Ho : In o h).
  { apply list_elem_of_In. eapply list_elem_of_lookup_2; eauto. }
  specialize (Hnamed o Ho). rewrite Hp in Hnamed. discriminate.
Qed.

Lemma walk_object_runs (n fuel : nat) (l : nat) (st : state) :
  (forall thing parent key index st,
     Inv n st -> in_range h thing = true ->
     runs may_throw (Inv n) (walk logLimit JSON_parse fuel thing parent key index) st) ->
  l < length h -> Inv n st ->
  runs may_throw (Inv n)
       (walk_object logLimit (walk logLimit JSON_parse fuel) l (obj_at h l)) st.
Proof.
  intros IH Hl HI. unfold walk_object.
  assert (Hkeys : runs may_throw (Inv n)
            (forEach_key (fun v key => walk logLimit JSON_parse fuel v (Some l)
                                            (Some key) None) l
                         (List.map fst (properties (obj_at h l)))) st).
  { apply runs_forEach_key; [|exact HI].
    intros key st' HI'. apply IH; [exact HI'|].
    unfold get_property. rewrite (extends_old st' l (proj1 HI') Hl).
    destruct (assoc _ key) as [v|] eqn:E; [|reflexivity]. cbn.
    apply (closed_children l). unfold children. apply in_or_app. right.
    apply in_map_iff. exists (key, v). split; [reflexivity|].
    now apply assoc_entry. }
  destruct (proto (obj_at h l)) as [| |[|] [name|] inherited] eqn:Hp;
    try (destruct (symbols (obj_at h l)); [exact Hkeys|now apply runs_log]).
  - now apply runs_log.
  - split; [exact HI|]. cbn. eapply unnamed_may_throw; eauto.
Qed.

Lemma walk_runs (fuel : nat) :
  (forall n thing parent key index st,
     Inv n st -> in_range h thing = true -> 2 * n + 1 <= fuel ->
     runs may_throw (Inv n) (walk logLimit JSON_parse fuel thing parent key index) st)
  /\ (forall n l parent key index st,
        Inv n st -> length h <= l -> 2 * n + 2 <= fuel ->
        runs may_throw (Inv n)
             (walk logLimit JSON_parse fuel (VObject l) parent key index) st).
Proof.
  induction fuel as [|fuel [IH1 IH2]]; [split; intros; lia|]. split.
  - intros n thing parent key index st HI HR Hfuel.
    cbn [walk]. apply runs_gets.
    destruct (typeof_function (st_heap st) thing) eqn:Hty.
    { split; [exact HI|exact Logic.I]. }
    apply runs_gets.
    destruct (map_has (counts st) thing) eqn:Hseen.
    { apply runs_modify_end. now apply Inv_count. }
    apply runs_modify.
    destruct thing as [| | | | | | |l];
      try (apply runs_ret; now apply Inv_count).
    cbn in HR. apply Nat.ltb_lt in HR.
    destruct (Inv_visit n st l (Some 1) HI HR Hseen) as (n' & -> & HI1).
    apply (runs_weaken may_throw (Inv n')); [intros st'; apply Inv_weaken; lia|].
    set (st1 := set_counts _ st) in *.
    rewrite (extends_old st l (proj1 HI) HR).
    unfold typeof_function in Hty. rewrite (extends_old st l (proj1 HI) HR) in Hty.
    destruct (cls (obj_at h l)) eqn:Hcls; try discriminate;
      try (now apply runs_ret).
    + apply runs_forEach_array; [|exact HI1].
      intros item i st' Hget HI'. apply IH1; [exact HI'| |lia].
      unfold array_get in Hget. rewrite (extends_old st' l (proj1 HI') HR) in Hget.
      rewrite Hcls in Hget.
      destruct (elements !! i) as [slot|] eqn:E; [|discriminate]. cbn in Hget.
      subst slot. apply (closed_children l). unfold children. rewrite Hcls.
      apply in_or_app. left. apply list_elem_of_In, list_elem_of_omap.
      exists (Some item). split; [|reflexivity]. eapply list_elem_of_lookup_2; eauto.
    + apply runs_forEach; [|exact HI1].
      intros item st' Hin HI'. apply IH1; [exact HI'| |lia].
      apply (closed_children l). unfold children. rewrite Hcls.
      apply in_or_app. now left.
    + destruct (alloc_pairs_runs n' entries st1 HI1) as (items & Hret & HIs & HRs).
      { intros k v Hin. split; apply (closed_children l); unfold children;
          rewrite Hcls; apply in_or_app; left; apply in_flat_map;
          exists (k, v); (split; [exact Hin|cbn; auto]). }
      apply runs_bind.
      * split; [exact HIs|]. now rewrite Hret.
      * intros items' Hret'. rewrite Hret in Hret'. apply Returned_inv in Hret'.
        subst items'. apply runs_forEach; [|exact HIs].
        intros item st' Hin HI'. rewrite List.Forall_forall in HRs.
        destruct (HRs _ Hin) as (l' & -> & Hl'). apply IH2; [exact HI'|exact Hl'|lia].
    + rewrite (toJSON_free_at l Hcls).
      apply walk_object_runs; [|exact HR|exact HI1].
      intros thing' parent' key' index' st' HI' HR'. apply IH1; auto. lia.
  - intros n l parent key index st HI Hl Hfuel.
    cbn [walk]. apply runs_gets.
    assert (Hobj : forall st', Inv n st' ->
              obj_at (st_heap st') l = plain [] \/ pair_ok (obj_at (st_heap st') l)).
    { intros st' HI'. apply extends_new; [exact (proj1 HI')|exact Hl]. }
    unfold typeof_function.
    destruct (Hobj st HI) as [Ho|(k & v & Ho & Hk & Hv)]; rewrite Ho; cbn [cls plain array].
    + apply runs_gets. destruct (map_has (counts st) (VObject l)).
      { apply runs_modify_end. now apply Inv_count. }
      apply runs_modify. cbn. apply runs_ret. now apply Inv_count.
    + apply runs_gets. destruct (map_has (counts st) (VObject l)).
      { apply runs_modify_end. now apply Inv_count. }
      apply runs_modify.
      apply runs_forEach_array; [|now apply Inv_count].
      intros item i st' Hget HI'. apply IH1; [exact HI'| |lia].
      unfold array_get in Hget.
      destruct (Hobj st' HI') as [Ho'|(k' & v' & Ho' & Hk' & Hv')];
        rewrite Ho' in Hget; cbn in Hget; [discriminate|].
      destruct i as [|[|i]]; cbn in Hget; try discriminate;
        injection Hget as <-; assumption.
Qed.
End Terminates.

Lemma count_unvisited_le (t : list (value * count)) (n : nat) :
  count_unvisited t n <= n.
Proof. induction n as [|n IH]; cbn; [lia|]. destruct (map_has t (VObject n)); lia. Qed.

(** The traversal comes to an end on every closed input free of
    [toJSON], cyclic or not: with room for a depth of twice the number of
    objects plus one it does not run out, and it returns unless line 119
    reads the name of a constructor that is not there. *)
Theorem walk_terminates (logLimit : Z) (JSON_parse : jsstring -> option json)
    (h : heap) (root : value) (fuel : nat) :
  closed h = true -> toJSON_free h = true -> in_range h root = true ->
  2 * length h + 1 <= fuel ->
  fst (walk logLimit JSON_parse fuel root None None None (initial_state h))
    <> OutOfFuel
  /\ (constructors_named h = true ->
      fst (walk logLimit JSON_parse fuel root None None None (initial_state h))
      = Returned tt).
Proof.
  intros Hclosed Hfree Hroot Hfuel.
  assert (H0 : exists fresh, st_heap (initial_state h) = h ++ fresh
                 /\ List.Forall (fun o => exists k v, o = array [Some k; Some v]
                                   /\ in_range h k = true /\ in_range h v = true)
                                fresh).
  { exists []. cbn. rewrite app_nil_r. split; [reflexivity|constructor]. }
  pose proof (count_unvisited_le (counts (initial_state h)) (length h)) as Hn.
  split.
  - destruct (walk_runs logLimit JSON_parse True h Hclosed Hfree (or_intror Logic.I) fuel)
      as [H1 _].
    destruct (H1 (length h) root None None None (initial_state h)
                 (conj H0 Hn) Hroot Hfuel) as [_ Hfine].
    intros E. rewrite E in Hfine. exact Hfine.
  - intros Hnamed.
    destruct (walk_runs logLimit JSON_parse False h Hclosed Hfree (or_introl Hnamed) fuel)
      as [H1 _].
    destruct (H1 (length h) root None None None (initial_state h)
                 (conj H0 Hn) Hroot Hfuel) as [_ Hfine].
    destruct (fst (walk logLimit JSON_parse fuel root None None None (initial_state h)))
      as [[]| |]; [reflexivity|destruct Hfine|destruct Hfine].
Qed.

Lemma walk_terminates_witness :
  fst (walk 99 (fun _ => None) 5 (VObject 0) None None None
            (initial_state [plain [(js "self", VObject 0); (js "next", VObject 1)];
                            array [Some (VObject 0); None; Some (VObject 1)]]))
    <> OutOfFuel
  /\ (constructors_named [plain [(js "self", VObject 0); (js "next", VObject 1)];
                          array [Some (VObject 0); None; Some (VObject 1)]] = true ->
      fst (walk 99 (fun _ => None) 5 (VObject 0) None None None
                (initial_state [plain [(js "self", VObject 0); (js "next", VObject 1)];
                                array [Some (VObject 0); None; Some (VObject 1)]]))
      = Returned tt).
Proof.
  apply (walk_terminates 99 (fun _ => None)
           [plain [(js "self", VObject 0); (js "next", VObject 1)];
            array [Some (VObject 0); None; Some (VObject 1)]] (VObject 0) 5).
  - reflexivity.
  - reflexivity.
  - reflexivity.
  - cbn. lia.
Defined.

(** ** [devalue] returns on every graph of plain values (lines 25-259) *)

Section Ends.
Lemma ends_ret {A : Type} (Q : state -> Prop) (a : A) (st : state) :
  Q st -> ends Q (ret a) st.
Proof. intros HQ. split; cbn; eauto. Qed.

Lemma ends_weaken {A : Type} (Q Q' : state -> Prop) (m : M A) (st : state) :
  (forall st', Q st' -> Q' st') -> ends Q m st -> ends Q' m st.
Proof. intros H [Hr HQ]. split; auto. Qed.

Lemma ends_bind {A B : Type} (Q1 Q : state -> Prop) (m : M A) (k : A -> M B)
    (st : state) :
  ends Q1 m st -> (forall a st1, Q1 st1 -> ends Q (k a) st1) ->
  ends Q (bind m k) st.
Proof.
  intros [[a Ha] HQ1] Hk. unfold ends, bind.
  destruct (m st) as [[a'| |] st1] eqn:E; cbn in *; try discriminate.
  apply (Hk a' st1 HQ1).
Qed.

Lemma ends_gets {A B : Type} (Q : state -> Prop) (f : state -> A) (k : A -> M B)
    (st : state) :
  ends Q (k (f st)) st -> ends Q (bind (gets f) k) st.
Proof. exact (fun H => H). Qed.

Lemma ends_modify {B : Type} (Q : state -> Prop) (g : state -> state)
    (k : unit -> M B) (st : state) :
  ends Q (k tt) (g st) -> ends Q (bind (modify g) k) st.
Proof. exact (fun H => H). Qed.

Lemma ends_modify_end (Q : state -> Prop) (g : state -> state) (st : state) :
  Q (g st) -> ends Q (modify g) st.
Proof. intros HQ. split; cbn; eauto. Qed.

(** A loop whose invariant speaks of the items already handled. *)
Lemma ends_forEach {A : Type} (P : list A -> state -> Prop) (f : A -> M unit)
    (xs : list A) :
  (forall pre x suf st, xs = pre ++ x :: suf -> P pre st ->
                        ends (P (pre ++ [x])) (f x) st) ->
  forall st, P [] st -> ends (P xs) (forEach f xs) st.
Proof.
  intros Hf.
  assert (H : forall suf pre st, xs = pre ++ suf -> P pre st ->
                                 ends (P xs) (forEach f suf) st).
  { induction suf as [|x suf IH]; intros pre st Hxs HP; cbn [forEach].
    - rewrite app_nil_r in Hxs. subst pre. now apply ends_ret.
    - eapply ends_bind.
      + eapply Hf; eauto.
      + intros [] st1 HP1. apply (IH (pre ++ [x])); [|exact HP1].
        now rewrite <- app_assoc. }
  intros st HP. now apply (H xs []).
Qed.

Lemma ends_forEach_array (P : nat -> state -> Prop) (f : value -> nat -> M unit)
    (l : nat) :
  (forall i st, P i st ->
     match array_get (st_heap st) l i with
     | Some item => ends (P (S i)) (f item i) st
     | None => P (S i) st
     end) ->
  forall n i st, P i st -> ends (P (i + n)) (forEach_array f l i n) st.
Proof.
  intros Hf. induction n as [|n IH]; intros i st HP; cbn [forEach_array].
  - rewrite Nat.add_0_r. now apply ends_ret.
  - apply ends_gets. specialize (Hf i st HP).
    replace (i + S n) with (S i + n) by lia.
    destruct (array_get (st_heap st) l i) as [item|].
    + eapply ends_bind; [exact Hf|]. intros [] st1 HP1. now apply IH.
    + now apply IH.
Qed.

Lemma ends_forEach_key (P : list jsstring -> state -> Prop)
    (f : value -> jsstring -> M unit) (l : nat) (keys : list jsstring) :
  (forall pre key suf st, keys = pre ++ key :: suf -> P pre st ->
     ends (P (pre ++ [key])) (f (get_property (st_heap st) l key) key) st) ->
  forall st, P [] st -> ends (P keys) (forEach_key f l keys) st.
Proof.
  intros Hf.
  assert (H : forall suf pre st, keys = pre ++ suf -> P pre st ->
                                 ends (P keys) (forEach_key f l suf) st).
  { induction suf as [|x suf IH]; intros pre st Hxs HP; cbn [forEach_key].
    - rewrite app_nil_r in Hxs. subst pre. now apply ends_ret.
    - apply ends_gets. eapply ends_bind.
      + eapply Hf; eauto.
      + intros [] st1 HP1. apply (IH (pre ++ [x])); [|exact HP1].
        now rewrite <- app_assoc. }
  intros st HP. now apply (H keys []).
Qed.
End Ends.

Section Discovery.
Context {V : Type}.

Lemma map_get_set (m : list (value * V)) (k x : value) (v : V) :
  map_get (map_set m k v) x
  = if same_value_zero k x then Some v else map_get m x.
Proof.
  induction m as [|[k0 v0] m IH]; cbn.
  - unfold same_value_zero at 1. rewrite norm_key_idem. fold (same_value_zero k x).
    reflexivity.
  - destruct (same_value_zero k0 k) eqn:E; cbn.
    + destruct (same_value_zero k0 x) eqn:Ex.
      * rewrite same_value_zero_sym in E.
        now rewrite (same_value_zero_trans _ _ _ E Ex).
      * destruct (same_value_zero k x) eqn:Ekx; [|reflexivity].
        now rewrite (same_value_zero_trans _ _ _ E Ekx) in Ex.
    + destruct (same_value_zero k0 x) eqn:Ex; [|exact IH].
      destruct (same_value_zero k x) eqn:Ekx; [|reflexivity].
      rewrite same_value_zero_sym in Ekx.
      now rewrite (same_value_zero_trans _ _ _ Ex Ekx) in E.
Qed.

Lemma map_has_get (m : list (value * V)) (x : value) :
  map_has m x = true <-> exists v, map_get m x = Some v.
Proof.
  unfold map_has. destruct (map_get m x) as [v|]; split; eauto; try discriminate.
  now intros [v [=]].
Qed.

Lemma same_value_zero_has (m : list (value * V)) (a b : value) :
  same_value_zero a b = true -> map_has m a = map_has m b.
Proof. intros H. unfold map_has. now rewrite (same_value_zero_get m a b H). Qed.

Lemma map_has_prefix_before (m : list (value * V)) (k : value) :
  map_has (prefix_before m k) k = false.
Proof.
  unfold map_has. induction m as [|[k0 v0] m IH]; cbn; [reflexivity|].
  destruct (same_value_zero k0 k) eqn:E; cbn; [reflexivity|]. now rewrite E.
Qed.

Lemma prefix_before_sub (m : list (value * V)) (k x : value) :
  map_has (prefix_before m k) x = true -> map_has m x = true.
Proof.
  unfold map_has. induction m as [|[k0 v0] m IH]; cbn; [discriminate|].
  destruct (same_value_zero k0 k); cbn; [discriminate|].
  destruct (same_value_zero k0 x); auto.
Qed.

Lemma prefix_before_set_old (m : list (value * V)) (k x : value) (v : V) :
  map_has m x = true ->
  forall y, map_has (prefix_before (map_set m k v) x) y
            = map_has (prefix_before m x) y.
Proof.
  unfold map_has. induction m as [|[k0 v0] m IH]; cbn; [discriminate|].
  intros Hx y. destruct (same_value_zero k0 k) eqn:E; cbn.
  - destruct (same_value_zero k0 x); cbn; [reflexivity|].
    now destruct (same_value_zero k0 y).
  - destruct (same_value_zero k0 x) eqn:Ex; cbn; [reflexivity|].
    destruct (same_value_zero k0 y); [reflexivity|]. now apply IH.
Qed.

Lemma prefix_before_set_new (m : list (value * V)) (x : value) (v : V) :
  map_has m x = false ->
  forall y, map_has (prefix_before (map_set m x v) x) y = map_has m y.
Proof.
  unfold map_has. induction m as [|[k0 v0] m IH]; cbn.
  - intros _ y. now rewrite same_value_zero_norm.
  - destruct (same_value_zero k0 x) eqn:E; [discriminate|]. cbn. rewrite E. cbn.
    intros Hx y. destruct (same_value_zero k0 y); [reflexivity|]. now apply IH.
Qed.
End Discovery.

Lemma count_unvisited_ext (t t' : list (value * count)) (n : nat) :
  (forall l, map_has t (VObject l) = map_has t' (VObject l)) ->
  count_unvisited t n = count_unvisited t' n.
Proof. intros H. induction n as [|n IH]; cbn; [reflexivity|]. now rewrite H, IH. Qed.

Section Height.
Variable h : list object.

Lemma height_set_old (t : list (value * count)) (k x : value) (c : count) :
  map_has t x = true -> height h (map_set t k c) x = height h t x.
Proof.
  intros Hx. unfold height. apply count_unvisited_ext.
  intros l. now apply prefix_before_set_old.
Qed.

Lemma height_set_new (t : list (value * count)) (x : value) (c : count) :
  map_has t x = false ->
  height h (map_set t x c) x = count_unvisited t (length h).
Proof.
  intros Hx. unfold height. apply count_unvisited_ext.
  intros l. now apply prefix_before_set_new.
Qed.

Lemma height_above (t : list (value * count)) (l : nat) :
  l < length h -> map_has t (VObject l) = true ->
  count_unvisited t (length h) < height h t (VObject l).
Proof.
  intros Hl Ht. unfold height. apply (count_unvisited_visit _ _ _ l); auto.
  - intros l'. apply prefix_before_sub.
  - apply map_has_prefix_before.
Qed.

Lemma height_le (t : list (value * count)) (x : value) : height h t x <= length h.
Proof. apply count_unvisited_le. Qed.

Lemma child_ok_set (t : list (value * count)) (X : nat) (c k : value) (n : count) :
  child_ok h t X c ->
  (map_has t k = true -> exists m, map_get t k = Some (Some m) /\ n = Some (S m)) ->
  child_ok h (map_set t k n) X c.
Proof.
  destruct c as [| | | | | | |l]; try exact (fun _ _ => Logic.I).
  intros (HX & m & Hget & Hm) Hk. cbn.
  assert (Hc : map_has t (VObject l) = true).
  { apply map_has_get. eauto. }
  split; [rewrite map_has_set, HX; reflexivity|].
  rewrite map_get_set, !height_set_old by assumption.
  destruct (same_value_zero k (VObject l)) eqn:E; [|eauto].
  destruct Hk as (m' & Hget' & ->).
  { now rewrite (same_value_zero_has t _ _ E). }
  rewrite (same_value_zero_get t _ _ E), Hget in Hget'. injection Hget' as <-.
  exists (S m). split; [reflexivity|]. destruct Hm; [left; lia|now right].
Qed.

Lemma positive_set (t : list (value * count)) (k : value) (n : count) :
  positive t -> (exists m, n = Some m /\ 1 <= m) -> positive (map_set t k n).
Proof.
  intros Hp Hn x c. rewrite map_get_set.
  destruct (same_value_zero k x); [now intros [= <-]|apply Hp].
Qed.

Lemma positive_increment (t : list (value * count)) (k : value) :
  positive t -> map_has t k = true ->
  exists m, map_get t k = Some (Some m) /\ 1 <= m
            /\ increment (map_get t k) = Some (S m).
Proof.
  intros Hp Hk. apply map_has_get in Hk as [c Hc].
  destruct (Hp k c Hc) as (m & -> & Hm). exists m. rewrite Hc. auto.
Qed.
End Height.

Section Explore.
Variable logLimit : Z.
Variable JSON_parse : jsstring -> option json.
Variable h : list object.
Hypothesis Hclosed : closed h = true.
Hypothesis Hfree : toJSON_free h = true.
Hypothesis Htrav : traversable h = true.

Lemma walked_children_sub (o : object) (c : value) :
  In c (walked_children o) -> In c (children o).
Proof.
  unfold walked_children, children. intros H. apply in_or_app.
  destruct (cls o); auto; destruct H.
Qed.

Lemma ready_set (t : list (value * count)) (k c : value) (n : count) :
  ready t c -> ready (map_set t k n) c.
Proof.
  destruct c; cbn; auto. intros H. now rewrite map_has_set, H.
Qed.

Lemma stable_weaken (b b' : nat) (F : list (value * count) -> Prop) :
  b <= b' -> stable h b F -> stable h b' F.
Proof.
  intros Hb [H1 H2]. split; [exact H1|].
  intros t k HF Hk Ha. apply H2; auto.
  destruct k; cbn in *; auto. destruct Ha; [now left|right; lia].
Qed.

Lemma stable_and (b : nat) (F G : list (value * count) -> Prop) :
  stable h b F -> stable h b G -> stable h b (fun t => F t /\ G t).
Proof.
  intros [F1 F2] [G1 G2]. split.
  - intros t k m [HF HG] Hk. split; eauto.
  - intros t k [HF HG] Hk Ha. split; eauto.
Qed.

Lemma stable_child_ok (b : nat) (P : nat -> value -> Prop) :
  stable h b (fun t => forall X c, P X c -> child_ok h t X c).
Proof.
  split.
  - intros t k m H Hk X c HP. apply child_ok_set; [now apply H|].
    intros _. exists m. auto.
  - intros t k H Hk _ X c HP. apply child_ok_set; [now apply H|].
    rewrite Hk. discriminate.
Qed.

Lemma stable_has (b : nat) (x : value) :
  stable h b (fun t => map_has t x = true).
Proof.
  split.
  - intros t k m H _. now rewrite map_has_set, H.
  - intros t k H _ _. now rewrite map_has_set, H.
Qed.

Lemma explored_frame (stack : list nat) (st st' : state) :
  st_heap st' = st_heap st -> counts st' = counts st ->
  explored h stack st -> explored h stack st'.
Proof. unfold explored, extends_with_pairs. now intros -> ->. Qed.

Lemma explored_heap (stack : list nat) (st : state) :
  explored h stack st -> length h <= length (st_heap st).
Proof. intros ((fresh & -> & _) & _). rewrite length_app. lia. Qed.

(** Counting once more a value that is counted. *)
Lemma explored_again (stack : list nat) (st : state) (k : value) (m : nat) :
  explored h stack st -> map_get (counts st) k = Some (Some m) ->
  explored h stack (set_counts (map_set (counts st) k (Some (S m))) st).
Proof.
  intros (He & Hin & Hpos & Hdone & Hpairs) Hk.
  assert (Hhas : map_has (counts st) k = true) by (apply map_has_get; eauto).
  assert (Hsame : forall x, map_has (map_set (counts st) k (Some (S m))) x
                            = map_has (counts st) x).
  { intros x. rewrite map_has_set.
    destruct (same_value_zero k x) eqn:E; [|apply orb_false_r].
    now rewrite <- (same_value_zero_has _ _ _ E), Hhas. }
  split; [exact He|]. cbn [counts st_heap set_counts].
  split; [intros l; rewrite Hsame; apply Hin|].
  split; [apply positive_set; [exact Hpos|exists (S m); split; [reflexivity|lia]]|].
  split.
  - intros l Hl Hc HS c Hchild. rewrite Hsame in Hc.
    apply child_ok_set; [now apply Hdone|]. intros _. eauto.
  - intros l k0 v0 Hl Hc HS Ho. rewrite Hsame in Hc.
    destruct (Hpairs l k0 v0 Hl Hc HS Ho). split; now apply ready_set.
Qed.

(** Counting a value for the first time; an object goes on the stack. *)
Lemma explored_first (stack : list nat) (st : state) (k : value) :
  explored h stack st -> map_has (counts st) k = false ->
  (forall l, k = VObject l -> l < length (st_heap st)) ->
  explored h (match k with VObject l => l :: stack | _ => stack end)
           (set_counts (map_set (counts st) k (Some 1)) st).
Proof.
  intros (He & Hin & Hpos & Hdone & Hpairs) Hk Hl.
  assert (Hold : forall l, map_has (map_set (counts st) k (Some 1)) (VObject l) = true ->
                           k = VObject l \/ map_has (counts st) (VObject l) = true).
  { intros l. rewrite map_has_set. intros [H|H]%orb_prop; [now right|left].
    now apply same_value_zero_object in H. }
  assert (Hstack : forall l, ~ In l (match k with VObject l => l :: stack | _ => stack end) ->
                             k <> VObject l /\ ~ In l stack).
  { intros l HS. destruct k; cbn in HS; split; try discriminate; auto.
    intros [= ->]. apply HS. now left. }
  split; [exact He|]. cbn [counts st_heap set_counts].
  split.
  { intros l Hc. destruct (Hold l Hc) as [->|H]; auto. }
  split; [apply positive_set; [exact Hpos|exists 1; auto]|].
  split.
  - intros l Hlh Hc HS c Hchild. destruct (Hstack l HS) as [Hne HS'].
    destruct (Hold l Hc) as [->|H]; [contradiction|].
    apply child_ok_set; [now apply Hdone|]. rewrite Hk. discriminate.
  - intros l k0 v0 Hlh Hc HS Ho. destruct (Hstack l HS) as [Hne HS'].
    destruct (Hold l Hc) as [->|H]; [contradiction|].
    destruct (Hpairs l k0 v0 Hlh H HS' Ho). split; now apply ready_set.
Qed.

(** An object leaves the stack when its children are done. *)
Lemma explored_done (stack : list nat) (st : state) (l : nat) :
  explored h (l :: stack) st ->
  (l < length h ->
   forall c, In c (walked_children (obj_at h l)) -> child_ok h (counts st) l c) ->
  (length h <= l -> forall k v, obj_at (st_heap st) l = array [Some k; Some v] ->
                                ready (counts st) k /\ ready (counts st) v) ->
  explored h stack st.
Proof.
  intros (He & Hin & Hpos & Hdone & Hpairs) H1 H2.
  repeat (split; [assumption|]). split.
  - intros l' Hl' Hc HS. destruct (Nat.eq_dec l' l) as [->|Hne]; [auto|].
    apply Hdone; auto. intros [->|H]; auto.
  - intros l' k v Hl' Hc HS. destruct (Nat.eq_dec l' l) as [->|Hne]; [auto|].
    apply Hpairs; auto. intros [->|H]; auto.
Qed.

Lemma explored_push (stack : list nat) (st : state) (l : nat) :
  explored h stack st -> explored h (l :: stack) st.
Proof.
  intros (He & Hin & Hpos & Hdone & Hpairs).
  repeat (split; [assumption|]). split.
  - intros l' Hl' Hc HS. apply Hdone; auto. intros H. apply HS. now right.
  - intros l' k v Hl' Hc HS. apply Hpairs; auto. intros H. apply HS. now right.
Qed.

Lemma explored_alloc (stack : list nat) (st : state) (pairs : list object) :
  explored h stack st -> List.Forall (pair_of h) pairs ->
  explored h stack (set_heap (st_heap st ++ pairs) st).
Proof.
  intros ((fresh & Hh & Hf) & Hin & Hpos & Hdone & Hpairs) Hp.
  split.
  { exists (fresh ++ pairs). cbn. rewrite Hh, <- app_assoc. split; [reflexivity|].
    apply List.Forall_app. auto. }
  cbn [counts st_heap set_heap].
  split. { intros l Hc. rewrite length_app. specialize (Hin l Hc). lia. }
  split; [exact Hpos|]. split; [exact Hdone|].
  intros l k v Hl Hc HS Ho. apply (Hpairs l k v Hl Hc HS).
  unfold obj_at in *. rewrite lookup_app_l in Ho by auto. exact Ho.
Qed.

Lemma alloc_pairs_spec (entries : list (value * value)) :
  forall st,
    alloc_pairs entries st
    = (Returned (List.map VObject (seq (length (st_heap st)) (length entries))),
       set_heap (st_heap st
                 ++ List.map (fun e : value * value =>
                                array [Some (fst e); Some (snd e)]) entries) st).
Proof.
  induction entries as [|[k v] entries IH]; intros st.
  - cbn. rewrite app_nil_r. now destruct st.
  - cbn [alloc_pairs]. unfold bind, gets, modify, ret. cbn [fst snd].
    rewrite IH. cbn. rewrite length_app. cbn.
    replace (length (st_heap st) + 1) with (S (length (st_heap st))) by lia.
    now rewrite <- app_assoc.
Qed.

Lemma stable_reached (b : nat) (t0 : list (value * count)) (Y : value) :
  stable h b (fun t => reached h t0 t Y).
Proof.
  split.
  - intros t k m [Hr Hc] Hk. split; [now apply ready_set|].
    intros X HX HX0. apply child_ok_set; [now apply Hc|]. intros _. eauto.
  - intros t k [Hr Hc] Hk _. split; [now apply ready_set|].
    intros X HX HX0. apply child_ok_set; [now apply Hc|]. rewrite Hk. discriminate.
Qed.

Lemma reached_mono (t0 t1 t : list (value * count)) (Y : value) :
  (forall X, map_has t0 (VObject X) = true -> map_has t1 (VObject X) = true) ->
  reached h t1 t Y -> reached h t0 t Y.
Proof. intros H [Hr Hc]. split; [exact Hr|]. intros X HX HX0. apply Hc; auto. Qed.

Lemma exploring_weaken (n n' : nat) (H0 : list object) (stack : list nat)
    (F F' : list (value * count) -> Prop) (st : state) :
  n <= n' -> (forall t, F t -> F' t) ->
  exploring h n H0 stack F st -> exploring h n' H0 stack F' st.
Proof.
  intros Hn HF (He & Hh & Hu & HFt).
  split; [exact He|]. split; [exact Hh|]. split; [lia|auto].
Qed.

Lemma exploring_prefix (n : nat) (H0 H1 : list object) (stack : list nat)
    (F : list (value * count) -> Prop) (st : state) :
  exploring h n (H0 ++ H1) stack F st -> exploring h n H0 stack F st.
Proof.
  intros (He & (more & Hh) & Hu & HFt).
  split; [exact He|]. split; [|split; assumption].
  exists (H1 ++ more). now rewrite Hh, <- app_assoc.
Qed.

Lemma exploring_old (n : nat) (H0 : list object) (stack : list nat)
    (F : list (value * count) -> Prop) (st : state) (l : nat) :
  exploring h n H0 stack F st -> l < length h ->
  obj_at (st_heap st) l = obj_at h l.
Proof.
  intros (((fresh & -> & _) & _) & _) Hl. unfold obj_at. now rewrite lookup_app_l.
Qed.

(** The loop invariant of the object at [l]: it is counted, and the
    children in [done] are counted twice or were met after it. *)
Let frame (F : list (value * count) -> Prop) (l : nat) (done : value -> Prop)
    : list (value * count) -> Prop :=
  fun t => F t /\ map_has t (VObject l) = true
           /\ forall c, done c -> child_ok h t l c.

Lemma stable_frame (b : nat) (F : list (value * count) -> Prop) (l : nat)
    (done : value -> Prop) :
  stable h b F -> stable h b (frame F l done).
Proof.
  intros HF. unfold frame. apply stable_and; [exact HF|].
  apply stable_and; [apply stable_has|].
  destruct (stable_child_ok b (fun X c => X = l /\ done c)) as [H1 H2]. split.
  - intros t k m H Hk c Hc.
    apply (H1 t k m); auto. now intros X c' [-> Hd]; apply H.
  - intros t k H Hk Ha c Hc.
    apply (H2 t k); auto. now intros X c' [-> Hd]; apply H.
Qed.

Let part1 (fuel : nat) : Prop :=
  forall n Y parent key index H0 stack F st,
    exploring h n H0 stack F st -> stable h (length H0) F ->
    in_range h Y = true -> 2 * n + 1 <= fuel ->
    ends (fun st' => exploring h n H0 stack F st'
                     /\ reached h (counts st) (counts st') Y)
         (walk logLimit JSON_parse fuel Y parent key index) st.

Let part2 (fuel : nat) : Prop :=
  forall n l k v parent key index H0 stack F st,
    exploring h n H0 stack F st -> stable h (length H0) F ->
    (forall t, F t -> map_has t (VObject l) = false ->
               F (map_set t (VObject l) (Some 1))) ->
    length h <= l -> H0 !! l = Some (array [Some k; Some v]) ->
    in_range h k = true -> in_range h v = true ->
    map_has (counts st) (VObject l) = false ->
    2 * n + 2 <= fuel ->
    ends (fun st' => exploring h n H0 stack F st'
                     /\ reached h (counts st) (counts st') k
                     /\ reached h (counts st) (counts st') v)
         (walk logLimit JSON_parse fuel (VObject l) parent key index) st.

Lemma child_step (fuel : nat) :
  part1 fuel ->
  forall n H0 stack F l done x parent key index st,
    stable h (length H0) F -> in_range h x = true -> l < length h ->
    2 * n + 1 <= fuel ->
    exploring h n H0 stack (frame F l done) st ->
    ends (exploring h n H0 stack (frame F l (fun c => done c \/ c = x)))
         (walk logLimit JSON_parse fuel x parent key index) st.
Proof.
  intros IH n H0 stack F l done x parent key index st HF Hx Hl Hfuel Hst.
  eapply ends_weaken;
    [|apply (IH n x parent key index H0 stack (frame F l done) st); auto;
      now apply stable_frame].
  intros st' [(He & Hh & Hu & HFt & Hhas & Hdone) [_ Hreached]]. cbn beta in *.
  split; [exact He|]. split; [exact Hh|]. split; [exact Hu|].
  split; [exact HFt|]. split; [exact Hhas|].
  intros c [Hc| ->]; [now apply Hdone|].
  apply Hreached; [exact Hl|].
  destruct Hst as (_ & _ & _ & _ & Hl0 & _). exact Hl0.
Qed.

Lemma exploring_done_ext (n : nat) (H0 : list object) (stack : list nat)
    (F : list (value * count) -> Prop) (l : nat) (done done' : value -> Prop)
    (st : state) :
  (forall c, done' c -> done c) ->
  exploring h n H0 stack (frame F l done) st ->
  exploring h n H0 stack (frame F l done') st.
Proof.
  intros Hd. apply exploring_weaken; [reflexivity|].
  intros t (HF & Hhas & Hdone). repeat split; auto.
Qed.

Lemma members_loop (fuel : nat) :
  part1 fuel ->
  forall n H0 stack F l members parent key index st,
    stable h (length H0) F -> l < length h -> 2 * n + 1 <= fuel ->
    (forall c, In c members -> in_range h c = true) ->
    exploring h n H0 stack (frame F l (fun _ => False)) st ->
    ends (exploring h n H0 stack (frame F l (fun c => In c members)))
         (forEach (fun item => walk logLimit JSON_parse fuel item parent key index)
                  members) st.
Proof.
  intros IH n H0 stack F l members parent key index st HF Hl Hfuel Hrange Hst.
  apply (ends_forEach
           (fun pre => exploring h n H0 stack (frame F l (fun c => In c pre)))).
  - intros pre x suf st' Hxs Hpre.
    eapply ends_weaken;
      [|apply (child_step fuel IH n H0 stack F l (fun c => In c pre) x); auto].
    + intros st''. apply exploring_done_ext.
      intros c Hc. apply in_app_or in Hc as [Hc|[<-|[]]]; auto.
    + apply Hrange. rewrite Hxs. apply in_or_app. right. now left.
  - eapply exploring_done_ext; [|exact Hst]. intros c [].
Qed.

Lemma elements_loop (fuel : nat) :
  part1 fuel ->
  forall n H0 stack F l elements parent key st,
    stable h (length H0) F -> l < length h -> 2 * n + 1 <= fuel ->
    cls (obj_at h l) = Array elements ->
    exploring h n H0 stack (frame F l (fun _ => False)) st ->
    ends (exploring h n H0 stack
            (frame F l (fun c => In c (walked_children (obj_at h l)))))
         (forEach_array (fun item i => walk logLimit JSON_parse fuel item parent key
                                            (Some i))
                        l 0 (length elements)) st.
Proof.
  intros IH n H0 stack F l elements parent key st HF Hl Hfuel Hcls Hst.
  pose (P := fun i => exploring h n H0 stack
                 (frame F l (fun c => exists j, j < i /\ elements !! j = Some (Some c)))).
  eapply ends_weaken;
    [|apply (ends_forEach_array P) with (n := length elements) (i := 0)].
  - intros st'. unfold P. apply exploring_done_ext.
    intros c Hc. unfold walked_children in Hc. rewrite Hcls in Hc.
    apply list_elem_of_In, list_elem_of_omap in Hc as ([v|] & Hin & [= <-]).
    apply list_elem_of_lookup_1 in Hin as [j Hj]. exists j. split; [|exact Hj].
    cbn. now apply lookup_lt_Some in Hj.
  - intros i st' Hi. unfold P in *. unfold array_get.
    rewrite (exploring_old _ _ _ _ _ l Hi Hl), Hcls.
    destruct (elements !! i) as [[item|]|] eqn:E; cbn.
    + eapply ends_weaken;
        [|apply (child_step fuel IH n H0 stack F l
                   (fun c => exists j, j < i /\ elements !! j = Some (Some c)) item);
          [exact HF| |exact Hl|exact Hfuel|exact Hi]].
      * intros st''. apply exploring_done_ext.
        intros c (j & Hj & Hc).
        destruct (Nat.eq_dec j i) as [->|Hne].
        -- right. rewrite E in Hc. now injection Hc as <-.
        -- left. exists j. split; [lia|exact Hc].
      * apply (closed_children h Hclosed l), walked_children_sub.
        unfold walked_children. rewrite Hcls.
        apply list_elem_of_In, list_elem_of_omap. exists (Some item).
        split; [|reflexivity]. eapply list_elem_of_lookup_2; eauto.
    + eapply exploring_done_ext; [|exact Hi].
      intros c (j & Hj & Hc). exists j. split; [|exact Hc].
      destruct (Nat.eq_dec j i) as [->|Hne]; [congruence|lia].
    + eapply exploring_done_ext; [|exact Hi].
      intros c (j & Hj & Hc). exists j. split; [|exact Hc].
      destruct (Nat.eq_dec j i) as [->|Hne]; [congruence|lia].
  - unfold P. eapply exploring_done_ext; [|exact Hst]. intros c (j & Hj & _). lia.
Qed.

Lemma distinct_names_assoc (props : list (jsstring * value)) (key : jsstring)
    (v : value) :
  distinct_names (List.map fst props) = true -> In (key, v) props ->
  assoc props key = Some v.
Proof.
  induction props as [|[k w] props IH]; cbn; [intros _ []|].
  intros [Hk Hd]%andb_prop [[= -> ->]|Hin].
  - now rewrite jsstring_eqb_refl.
  - destruct (jsstring_eqb k key) eqn:E; [|auto]. exfalso.
    apply jsstring_eqb_eq in E. subst k.
    apply negb_true_iff in Hk. apply not_true_iff_false in Hk. apply Hk.
    apply existsb_exists. exists key. split; [|apply jsstring_eqb_refl].
    apply in_map_iff. now exists (key, v).
Qed.

Lemma traversable_at (l : nat) :
  match cls (obj_at h l) with
  | Function _ _ => False
  | Plain =>
      (forall name inherited,
         proto (obj_at h l) <> OtherPrototype false name inherited)
      /\ symbols (obj_at h l) = []
      /\ distinct_names (List.map fst (properties (obj_at h l))) = true
  | _ => True
  end.
Proof.
  unfold obj_at. destruct (h !! l) as [o|] eqn:E; cbn.
  - unfold traversable in Htrav. rewrite forallb_forall in Htrav.
    assert (Ho : In o h).
    { apply list_elem_of_In. eapply list_elem_of_lookup_2; eauto. }
    specialize (Htrav o Ho). destruct (cls o); try exact Logic.I; [discriminate|].
    apply andb_prop in Htrav as [[Hp Hs]%andb_prop Hd].
    split; [|split; [|exact Hd]].
    + intros name inherited Hproto. rewrite Hproto in Hp. discriminate.
    + now destruct (symbols o).
  - split; [discriminate|]. split; reflexivity.
Qed.

Lemma keys_loop (fuel : nat) :
  part1 fuel ->
  forall n H0 stack F l st,
    stable h (length H0) F -> l < length h -> 2 * n + 1 <= fuel ->
    cls (obj_at h l) = Plain ->
    exploring h n H0 stack (frame F l (fun _ => False)) st ->
    ends (exploring h n H0 stack
            (frame F l (fun c => In c (walked_children (obj_at h l)))))
         (forEach_key (fun v key => walk logLimit JSON_parse fuel v (Some l)
                                         (Some key) None)
                      l (List.map fst (properties (obj_at h l)))) st.
Proof.
  intros IH n H0 stack F l st HF Hl Hfuel Hcls Hst.
  pose (P := fun pre : list jsstring => exploring h n H0 stack
          (frame F l (fun c => exists key, In key pre /\ c = get_property h l key))).
  eapply ends_weaken; [|apply (ends_forEach_key P)].
  - intros st'. unfold P. apply exploring_done_ext.
    intros c Hc. unfold walked_children in Hc. rewrite Hcls in Hc.
    apply in_map_iff in Hc as ([key v] & <- & Hin). exists key. split.
    + apply in_map_iff. now exists (key, v).
    + unfold get_property. pose proof (traversable_at l) as Ht.
      rewrite Hcls in Ht. destruct Ht as (_ & _ & Hd).
      now rewrite (distinct_names_assoc _ _ _ Hd Hin).
  - intros pre key suf st' Hkeys Hpre. unfold P in *.
    assert (Hget : get_property (st_heap st') l key = get_property h l key).
    { unfold get_property. now rewrite (exploring_old _ _ _ _ _ l Hpre Hl). }
    rewrite Hget.
    eapply ends_weaken;
      [|apply (child_step fuel IH n H0 stack F l
                 (fun c => exists key, In key pre /\ c = get_property h l key)
                 (get_property h l key));
        [exact HF| |exact Hl|exact Hfuel|exact Hpre]].
    + intros st''. apply exploring_done_ext.
      intros c (key' & Hin & ->). apply in_app_or in Hin as [Hin|[<-|[]]].
      * left. eauto.
      * now right.
    + unfold get_property. destruct (assoc _ key) as [v|] eqn:E; [|reflexivity]. cbn.
      apply (closed_children h Hclosed l). unfold children. apply in_or_app. right.
      apply in_map_iff. exists (key, v). split; [reflexivity|].
      now apply assoc_entry.
  - unfold P. eapply exploring_done_ext; [|exact Hst]. intros c (key & [] & _).
Qed.

(** The object at [l] is done: it leaves the stack. *)
Lemma exploring_finish (n : nat) (H0 : list object) (stack : list nat)
    (F : list (value * count) -> Prop) (l : nat) (t0 : list (value * count))
    (st : state) :
  l < length h ->
  exploring h n H0 (l :: stack)
    (frame (fun t => F t /\ reached h t0 t (VObject l)) l
           (fun c => In c (walked_children (obj_at h l)))) st ->
  exploring h (S n) H0 stack F st /\ reached h t0 (counts st) (VObject l).
Proof.
  intros Hl (He & Hh & Hu & (HF & Hr) & Hhas & Hdone).
  split; [|exact Hr].
  split; [|split; [exact Hh|split; [lia|exact HF]]].
  apply (explored_done stack st l He).
  - intros _. exact Hdone.
  - intros Hge. lia.
Qed.

Lemma same_value_zero_other (k : value) (l : nat) :
  same_value_zero k (VObject l) = true -> k = VObject l.
Proof. apply same_value_zero_object. Qed.

Lemma stable_uncounted (b L0 : nat) (P : nat -> Prop) :
  (forall i, P i -> length h <= L0 + i < b) ->
  stable h b (fun t => forall i, P i -> map_has t (VObject (L0 + i)) = false).
Proof.
  intros HP. split.
  - intros t k m H Hk i Hi. rewrite map_has_set, (H i Hi). cbn.
    destruct (same_value_zero k (VObject (L0 + i))) eqn:E; [|reflexivity].
    apply same_value_zero_other in E. subst k.
    assert (Hhas : map_has t (VObject (L0 + i)) = true) by (apply map_has_get; eauto).
    rewrite (H i Hi) in Hhas. discriminate.
  - intros t k H Hk Ha i Hi. rewrite map_has_set, (H i Hi). cbn.
    destruct (same_value_zero k (VObject (L0 + i))) eqn:E; [|reflexivity].
    apply same_value_zero_other in E. subst k. cbn in Ha.
    specialize (HP i Hi). lia.
Qed.

Lemma pairs_loop (fuel : nat) :
  part2 fuel ->
  forall n b0 Hbase stack F l entries parent key index,
    stable h b0 F -> b0 <= length Hbase -> length h <= length Hbase ->
    l < length h -> 2 * n + 2 <= fuel ->
    (forall k v, In (k, v) entries -> in_range h k = true /\ in_range h v = true) ->
    forall suf pre st,
      entries = pre ++ suf ->
      exploring h n
        (Hbase ++ List.map (fun e : value * value =>
                              array [Some (fst e); Some (snd e)]) entries)
        stack
        (frame F l (fun c => exists k v, In (k, v) pre /\ (c = k \/ c = v))) st ->
      (forall i, length pre <= i < length entries ->
                 map_has (counts st) (VObject (length Hbase + i)) = false) ->
      ends (exploring h n
              (Hbase ++ List.map (fun e : value * value =>
                                    array [Some (fst e); Some (snd e)]) entries)
              stack
              (frame F l (fun c => exists k v, In (k, v) entries /\ (c = k \/ c = v))))
           (forEach (fun item => walk logLimit JSON_parse fuel item parent key index)
                    (List.map VObject (seq (length Hbase + length pre) (length suf))))
           st.
Proof.
  intros IH n b0 Hbase stack F l entries parent key index HF Hb0 Hbase_h Hl Hfuel
         Hrange.
  set (H1 := Hbase ++ List.map (fun e : value * value =>
                                  array [Some (fst e); Some (snd e)]) entries).
  assert (HlenH1 : length H1 = length Hbase + length entries).
  { unfold H1. now rewrite length_app, length_map. }
  induction suf as [|[k v] suf IHsuf]; intros pre st Hent Hst Hun.
  - cbn. rewrite app_nil_r in Hent. subst pre. now apply ends_ret.
  - cbn [length seq List.map forEach].
    pose (F2 := fun t => frame F l (fun c => exists k v, In (k, v) pre
                                             /\ (c = k \/ c = v)) t
                         /\ forall i, length pre < i < length entries ->
                               map_has t (VObject (length Hbase + i)) = false).
    assert (Hlen : length entries = length pre + S (length suf)).
    { rewrite Hent, length_app. reflexivity. }
    assert (HF2 : stable h (length H1) F2).
    { apply stable_and.
      - apply (stable_weaken b0); [lia|]. now apply stable_frame.
      - apply (stable_uncounted (length H1) (length Hbase)
                 (fun i => length pre < i < length entries)).
        intros i Hi. lia. }
    assert (Hins : forall t, F2 t ->
              map_has t (VObject (length Hbase + length pre)) = false ->
              F2 (map_set t (VObject (length Hbase + length pre)) (Some 1))).
    { intros t [Hfr Hunc] Hp. split.
      - destruct (stable_frame b0 F l
                    (fun c => exists k v, In (k, v) pre /\ (c = k \/ c = v)) HF)
          as [_ Hnew].
        apply Hnew; auto. cbn. right. lia.
      - intros i Hi. rewrite map_has_set, (Hunc i Hi). cbn.
        apply Nat.eqb_neq. lia. }
    assert (Hlook : H1 !! (length Hbase + length pre)
                    = Some (array [Some k; Some v])).
    { unfold H1. rewrite lookup_app_r by lia.
      replace (length Hbase + length pre - length Hbase) with (length pre) by lia.
      rewrite Hent, map_app, lookup_app_r by (rewrite length_map; lia).
      rewrite length_map, Nat.sub_diag. reflexivity. }
    destruct (Hrange k v) as [Hk Hv].
    { rewrite Hent. apply in_or_app. right. now left. }
    eapply ends_bind.
    + apply (IH n (length Hbase + length pre) k v parent key index H1 stack F2 st);
        auto; try lia.
      * destruct Hst as (He & Hh & Hu & Hfr).
        split; [exact He|]. split; [exact Hh|]. split; [exact Hu|].
        split; [exact Hfr|]. intros i Hi. apply Hun. lia.
      * apply Hun. lia.
    + intros [] st1 ((He & Hh & Hu & (HF1 & Hhas & Hdone) & Hunc) & Hrk & Hrv).
      cbn beta in *.
      replace (S (length Hbase + length pre))
        with (length Hbase + length (pre ++ [(k, v)]))
        by (rewrite length_app; cbn; lia).
      assert (Hl0 : map_has (counts st) (VObject l) = true).
      { destruct Hst as (_ & _ & _ & _ & Hl0 & _). exact Hl0. }
      apply IHsuf.
      * now rewrite <- app_assoc.
      * split; [exact He|]. split; [exact Hh|]. split; [exact Hu|].
        split; [exact HF1|]. split; [exact Hhas|].
        intros c (k' & v' & Hin & Hc). apply in_app_or in Hin as [Hin|[[= <- <-]|[]]].
        -- apply Hdone. eauto.
        -- destruct Hc as [->| ->]; [apply Hrk|apply Hrv]; auto.
      * intros i Hi. rewrite length_app in Hi. cbn in Hi. apply Hunc. lia.
Qed.

Lemma ends_bind_eq {A B : Type} (Q : state -> Prop) (m : M A) (k : A -> M B)
    (st st1 : state) (a : A) :
  m st = (Returned a, st1) -> ends Q (k a) st1 -> ends Q (bind m k) st.
Proof. intros E H. unfold ends, bind. now rewrite E. Qed.

Lemma stable_mono (b : nat) (t0 : list (value * count)) :
  stable h b (fun t => forall X, map_has t0 (VObject X) = true ->
                                 map_has t (VObject X) = true).
Proof.
  split.
  - intros t k m H _ X HX. now rewrite map_has_set, (H X HX).
  - intros t k H _ _ X HX. now rewrite map_has_set, (H X HX).
Qed.

Lemma exploring_at (n : nat) (H0 : list object) (stack : list nat)
    (F : list (value * count) -> Prop) (st : state) (l : nat) (o : object) :
  exploring h n H0 stack F st -> H0 !! l = Some o -> obj_at (st_heap st) l = o.
Proof.
  intros (_ & (more & ->) & _) Hl. unfold obj_at.
  rewrite lookup_app_l by (now apply lookup_lt_Some in Hl). now rewrite Hl.
Qed.

Lemma typeof_function_input (n : nat) (H0 : list object) (stack : list nat)
    (F : list (value * count) -> Prop) (st : state) (Y : value) :
  exploring h n H0 stack F st -> in_range h Y = true ->
  typeof_function (st_heap st) Y = false.
Proof.
  intros Hst HY. destruct Y as [| | | | | | |l]; try reflexivity.
  cbn in HY. apply Nat.ltb_lt in HY. cbn.
  rewrite (exploring_old _ _ _ _ _ l Hst HY).
  pose proof (traversable_at l) as Ht. now destruct (cls (obj_at h l)).
Qed.

Lemma same_value_zero_refl (k : value) : same_value_zero k k = true.
Proof. apply value_eqb_refl. Qed.

Lemma reached_again (t : list (value * count)) (Y : value) (m : nat) :
  map_get t Y = Some (Some m) -> 1 <= m ->
  reached h t (map_set t Y (Some (S m))) Y.
Proof.
  intros Hget Hm. destruct Y as [| | | | | | |l]; try (split; cbn; auto; fail).
  split; [apply map_has_set_same|].
  intros X HX HX0. split; [now rewrite map_has_set, HX0|].
  exists (S m). rewrite map_get_set, same_value_zero_refl.
  split; [reflexivity|left; lia].
Qed.

Lemma reached_first (t : list (value * count)) (l : nat) :
  map_has t (VObject l) = false ->
  reached h t (map_set t (VObject l) (Some 1)) (VObject l).
Proof.
  intros Hnew. split; [apply map_has_set_same|].
  intros X HX HX0. split; [now rewrite map_has_set, HX0|].
  exists 1. rewrite map_get_set, same_value_zero_refl.
  split; [reflexivity|right].
  rewrite height_set_new by exact Hnew.
  rewrite height_set_old by exact HX0.
  now apply height_above.
Qed.

Lemma walk_explores_input (fuel : nat) :
  part1 fuel -> part2 fuel -> part1 (S fuel).
Proof.
  intros IH1 IH2 n Y parent key index H0 stack F st Hst HF HY Hfuel.
  cbn [walk]. apply ends_gets.
  rewrite (typeof_function_input _ _ _ _ _ _ Hst HY). apply ends_gets.
  pose proof Hst as (He & (more0 & Hheap) & Hu & HFt).
  pose proof He as (Hext & Hin & Hpos & Hdone & Hpairs).
  destruct (map_has (counts st) Y) eqn:Hseen.
  { destruct (positive_increment _ _ Hpos Hseen) as (m & Hget & Hm & ->).
    apply ends_modify_end. split.
    - split; [now apply explored_again|]. split; [exists more0; exact Hheap|].
      split; [|now apply (proj1 HF)].
      cbn. etransitivity; [|exact Hu]. apply count_unvisited_mono.
      intros l Hl. now rewrite map_has_set, Hl.
    - now apply reached_again. }
  apply ends_modify.
  assert (Hfirst : forall st1,
            st1 = set_counts (map_set (counts st) Y (Some 1)) st ->
            isPrimitive Y = true ->
            exploring h n H0 stack F st1 /\ reached h (counts st) (counts st1) Y).
  { intros st1 -> Hprim. split.
    - split.
      { pose proof (explored_first stack st Y He Hseen) as H.
        destruct Y; try discriminate; apply H; discriminate. }
      split; [exists more0; exact Hheap|]. split.
      + cbn. etransitivity; [|exact Hu]. apply count_unvisited_mono.
        intros l Hl. now rewrite map_has_set, Hl.
      + apply (proj2 HF); auto. now destruct Y.
    - destruct Y; try discriminate; split; cbn; auto. }
  destruct Y as [| | | | | | |l]; try (apply ends_ret; now apply Hfirst).
  clear Hfirst. cbn in HY. apply Nat.ltb_lt in HY.
  set (t0 := counts st) in *.
  set (st1 := set_counts (map_set t0 (VObject l) (Some 1)) st).
  assert (Hn : exists n', n = S n'
                 /\ count_unvisited (counts st1) (length h) <= n').
  { assert (Hlt : count_unvisited (map_set t0 (VObject l) (Some 1)) (length h)
                  < count_unvisited t0 (length h)).
    { apply (count_unvisited_visit _ _ _ l); auto.
      - intros l' Hl'. now rewrite map_has_set, Hl'.
      - apply map_has_set_same. }
    destruct n as [|n']; [lia|]. exists n'. split; [reflexivity|]. cbn. lia. }
  destruct Hn as (n' & -> & Hu1).
  set (F1 := fun t => F t /\ reached h t0 t (VObject l)).
  assert (HF1 : stable h (length H0) F1).
  { apply stable_and; [exact HF|apply stable_reached]. }
  assert (Hst1 : exploring h n' H0 (l :: stack) (frame F1 l (fun _ => False)) st1).
  { split.
    { apply (explored_first stack st (VObject l) He Hseen).
      intros l' [= <-]. pose proof (explored_heap _ _ He). lia. }
    split; [exists more0; exact Hheap|]. split; [exact Hu1|].
    split; [split|split].
    - apply (proj2 HF); auto. cbn. now left.
    - now apply reached_first.
    - apply map_has_set_same.
    - intros c []. }
  assert (Hend : forall st',
            exploring h n' H0 (l :: stack)
              (frame F1 l (fun c => In c (walked_children (obj_at h l)))) st' ->
            exploring h (S n') H0 stack F st'
            /\ reached h (counts st) (counts st') (VObject l)).
  { intros st'. now apply exploring_finish. }
  rewrite (exploring_old _ _ _ _ _ l Hst HY).
  pose proof (traversable_at l) as Htr.
  destruct (cls (obj_at h l)) eqn:Hcls; try (destruct Htr; fail).
  - apply ends_ret, Hend. eapply exploring_done_ext; [|exact Hst1].
    unfold walked_children. rewrite Hcls. intros c [].
  - apply ends_ret, Hend. eapply exploring_done_ext; [|exact Hst1].
    unfold walked_children. rewrite Hcls. intros c [].
  - apply ends_ret, Hend. eapply exploring_done_ext; [|exact Hst1].
    unfold walked_children. rewrite Hcls. intros c [].
  - apply ends_ret, Hend. eapply exploring_done_ext; [|exact Hst1].
    unfold walked_children. rewrite Hcls. intros c [].
  - apply ends_ret, Hend. eapply exploring_done_ext; [|exact Hst1].
    unfold walked_children. rewrite Hcls. intros c [].
  - eapply ends_weaken; [exact Hend|].
    apply (elements_loop fuel IH1); auto. lia.
  - eapply ends_weaken; [|apply (members_loop fuel IH1 n' H0 (l :: stack) F1 l members);
                           auto; try lia].
    + intros st' Hst'. apply Hend. eapply exploring_done_ext; [|exact Hst'].
      unfold walked_children. rewrite Hcls. auto.
    + intros c Hc. apply (closed_children h Hclosed l), walked_children_sub.
      unfold walked_children. now rewrite Hcls.
  - eapply ends_bind_eq; [apply alloc_pairs_spec|].
    set (pairs := List.map (fun e : value * value =>
                              array [Some (fst e); Some (snd e)]) entries).
    assert (Hrange : forall k v, In (k, v) entries ->
                       in_range h k = true /\ in_range h v = true).
    { intros k v Hkv. split; apply (closed_children h Hclosed l), walked_children_sub;
        unfold walked_children; rewrite Hcls; apply in_flat_map;
        exists (k, v); (split; [exact Hkv|cbn; auto]). }
    replace (length (st_heap st1))
      with (length (st_heap st1) + length (@nil (value * value))) by (cbn; lia).
    eapply ends_weaken;
      [|apply (pairs_loop fuel IH2 n' (length H0) (st_heap st1) (l :: stack) F1 l
                 entries parent key None HF1); auto; try lia].
    + intros st' Hst'. apply Hend.
      apply exploring_prefix in Hst'.
      destruct Hst' as (He' & (more' & Hh') & Hrest).
      split; [exact He'|]. split.
      { exists (more0 ++ more'). rewrite Hh'. change (st_heap st1) with (st_heap st).
        now rewrite Hheap, <- app_assoc. }
      destruct Hrest as (Hu' & HF' & Hhas' & Hdone'). split; [exact Hu'|].
      split; [exact HF'|]. split; [exact Hhas'|].
      intros c Hc. apply Hdone'. unfold walked_children in Hc. rewrite Hcls in Hc.
      apply in_flat_map in Hc as ([k v] & Hkv & Hc). exists k, v. split; [exact Hkv|].
      cbn in Hc. destruct Hc as [<-|[<-|[]]]; auto.
    + change (st_heap st1) with (st_heap st). rewrite Hheap, length_app. lia.
    + pose proof (explored_heap _ _ He). exact H.
    + destruct Hst1 as (He1 & _ & Hu1' & HF1' & Hhas1 & _).
      split.
      { apply explored_alloc; [exact He1|].
        apply List.Forall_forall. intros o Ho. apply in_map_iff in Ho as ([k v] & <- & Hkv).
        exists k, v. split; [reflexivity|]. now apply Hrange. }
      split; [exists []; cbn; now rewrite app_nil_r|].
      split; [exact Hu1'|]. split; [exact HF1'|]. split; [exact Hhas1|].
      intros c (k & v & [] & _).
    + intros i Hi. cbn [counts set_heap].
      destruct (map_has (counts st1) (VObject (length (st_heap st1) + i))) eqn:E;
        [|reflexivity].
      destruct Hst1 as ((_ & Hin1 & _) & _). apply Hin1 in E. lia.
  - rewrite (toJSON_free_at h Hfree l Hcls). unfold walk_object.
    destruct Htr as (Hproto & Hsym & _). rewrite Hsym.
    eapply ends_weaken; [exact Hend|].
    destruct (proto (obj_at h l)) as [| |[|] name inherited] eqn:Hp;
      try (apply (keys_loop fuel IH1); auto; lia).
    exfalso. now apply (Hproto name inherited).
Qed.

Lemma walk_explores_pair (fuel : nat) : part1 fuel -> part2 (S fuel).
Proof.
  intros IH1 n l k v parent key index H0 stack F st Hst HF Hins Hl Hlook Hk Hv
         Hseen Hfuel.
  pose proof Hst as (He & (more0 & Hheap) & Hu & HFt).
  assert (Hobj : forall n' stack' F' st', exploring h n' H0 stack' F' st' ->
                   obj_at (st_heap st') l = array [Some k; Some v]).
  { intros n' stack' F' st' H. exact (exploring_at _ _ _ _ _ l _ H Hlook). }
  cbn [walk]. apply ends_gets. unfold typeof_function.
  rewrite (Hobj _ _ _ _ Hst). cbn [cls array]. apply ends_gets. rewrite Hseen.
  apply ends_modify. cbn [length].
  set (t0 := counts st) in *.
  set (st1 := set_counts (map_set t0 (VObject l) (Some 1)) st).
  pose (Fi := fun (i : nat) (t : list (value * count)) =>
                F t
                /\ (forall X, map_has t0 (VObject X) = true ->
                               map_has t (VObject X) = true)
                /\ (1 <= i -> reached h t0 t k)
                /\ (2 <= i -> reached h t0 t v)).
  assert (HFi : forall i, stable h (length H0) (Fi i)).
  { intros i. unfold Fi. apply stable_and; [exact HF|].
    apply stable_and; [apply stable_mono|].
    destruct (stable_reached (length H0) t0 k) as [K1 K2].
    destruct (stable_reached (length H0) t0 v) as [V1 V2].
    apply stable_and; split.
    - intros t x m H Hx Hi. apply K1; auto.
    - intros t x H Hx Ha Hi. apply K2; auto.
    - intros t x m H Hx Hi. apply V1; auto.
    - intros t x H Hx Ha Hi. apply V2; auto. }
  pose (P := fun i => exploring h n H0 (l :: stack) (Fi i)).
  assert (Hstep : forall i x parent' key' index' st',
            P i st' -> in_range h x = true ->
            ends (fun st'' => exploring h n H0 (l :: stack) (Fi i) st''
                              /\ reached h t0 (counts st'') x)
                 (walk logLimit JSON_parse fuel x parent' key' index') st').
  { intros i x parent' key' index' st' HP Hx.
    eapply ends_weaken;
      [|apply (IH1 n x parent' key' index' H0 (l :: stack) (Fi i) st'); auto; lia].
    intros st'' [Hst'' Hr]. cbn beta in *. split; [exact Hst''|].
    eapply reached_mono; [|exact Hr].
    destruct HP as (_ & _ & _ & _ & Hm & _). exact Hm. }
  eapply ends_weaken; [|apply (ends_forEach_array P) with (n := 2) (i := 0)].
  - intros st' (He' & Hh' & Hu' & HF' & _ & Hrk & Hrv).
    specialize (Hrk ltac:(lia)). specialize (Hrv ltac:(lia)).
    split; [|split; assumption].
    split; [|split; [exact Hh'|split; assumption]].
    apply (explored_done stack st' l He'); [lia|].
    intros _ k' v' Ho.
    assert (Hst' : exploring h n H0 (l :: stack) F st').
    { split; [exact He'|]. split; [exact Hh'|]. split; assumption. }
    rewrite (Hobj _ _ _ _ Hst') in Ho. injection Ho as <- <-.
    split; [apply Hrk|apply Hrv].
  - intros i st' HP. unfold array_get. rewrite (Hobj _ _ _ _ HP). cbn [cls array].
    destruct i as [|[|i]]; cbn.
    + eapply ends_weaken; [|apply (Hstep 0 k); auto].
      intros st'' ((He' & Hh' & Hu' & HF' & Hm' & _) & Hr).
      split; [exact He'|]. split; [exact Hh'|]. split; [exact Hu'|].
      split; [exact HF'|]. split; [exact Hm'|]. split; [auto|]. intros; lia.
    + eapply ends_weaken; [|apply (Hstep 1 v); auto].
      intros st'' ((He' & Hh' & Hu' & HF' & Hm' & Hrk & _) & Hr).
      split; [exact He'|]. split; [exact Hh'|]. split; [exact Hu'|].
      split; [exact HF'|]. split; [exact Hm'|]. split; [intros _; apply Hrk; lia|].
      auto.
    + destruct HP as (He' & Hh' & Hu' & HF' & Hm' & Hrk & Hrv).
      split; [exact He'|]. split; [exact Hh'|]. split; [exact Hu'|].
      split; [exact HF'|]. split; [exact Hm'|].
      split; intros _; [apply Hrk|apply Hrv]; lia.
  - split.
    { apply (explored_first stack st (VObject l) He Hseen).
      intros l' [= <-]. rewrite Hheap, length_app.
      apply lookup_lt_Some in Hlook. lia. }
    split; [exists more0; exact Hheap|]. split.
    { cbn. etransitivity; [|exact Hu]. apply count_unvisited_mono.
      intros l' Hl'. now rewrite map_has_set, Hl'. }
    split; [now apply Hins|]. split.
    { intros X HX. cbn. now rewrite map_has_set, HX. }
    split; intros; lia.
Qed.

Lemma walk_explores (fuel : nat) : part1 fuel /\ part2 fuel.
Proof.
  induction fuel as [|fuel [IH1 IH2]].
  - unfold part1, part2. split; intros; lia.
  - split; [now apply walk_explores_input|now apply walk_explores_pair].
Qed.
End Explore.

(** *** The rendering pass on an explored graph *)

Section Render.
Variable JSON_parse : jsstring -> option json.
Variable h : list object.
Variable table : list (value * count).
Variable bound : nat.
Hypothesis Hclosed : closed h = true.
Hypothesis Hfree : toJSON_free h = true.
Hypothesis Htrav : traversable h = true.
Hypothesis Hdistinct : distinct_keys table.
Hypothesis Hbound : forall l, map_has table (VObject l) = true -> l < bound.
Hypothesis Hdone : forall l, l < length h -> map_has table (VObject l) = true ->
  forall c, In c (walked_children (obj_at h l)) -> child_ok h table l c.

Let names := assign_names table.

(** What [stringify] needs of a value to return within a depth of
    [2 * m + 1]: an object is counted, and named or of height [m] at most. *)
Let fit (m : nat) (thing : value) : Prop :=
  in_range h thing = true
  /\ ready table thing
  /\ match thing with
     | VObject _ => map_has names thing = true \/ height h table thing <= m
     | _ => True
     end.

Lemma names_counted (k : value) :
  map_has names k = true -> map_has table k = true.
Proof.
  intros H. apply (assign_names_has table k Hdistinct) in H as (n & Hn & _).
  apply map_has_get. eauto.
Qed.

Lemma fit_child (m : nat) (l : nat) (c : value) :
  l < length h -> map_has table (VObject l) = true ->
  height h table (VObject l) <= S m ->
  In c (walked_children (obj_at h l)) -> fit m c.
Proof.
  intros Hl Hc Hm Hin.
  assert (Hr : in_range h c = true).
  { apply (closed_children h Hclosed l). now apply walked_children_sub. }
  pose proof (Hdone l Hl Hc c Hin) as Hok.
  split; [exact Hr|]. destruct c as [| | | | | | |l']; try (split; exact Logic.I).
  destruct Hok as (_ & n & Hget & Hn). split.
  - apply map_has_get. eauto.
  - destruct Hn as [Hn|Hn].
    + left. apply (assign_names_has table _ Hdistinct). eauto.
    + right. lia.
Qed.

Lemma fresh_unnamed (l : nat) : bound <= l -> map_get names (VObject l) = None.
Proof.
  intros Hl. destruct (map_get names (VObject l)) as [name|] eqn:E; [|reflexivity].
  assert (H : map_has names (VObject l) = true) by (apply map_has_get; eauto).
  apply names_counted, Hbound in H. lia.
Qed.

Lemma stringify_fit (m : nat) :
  forall fuel rest thing,
    fit m thing -> bound <= length (h ++ rest) -> 2 * m + 1 <= fuel ->
    exists text, stringify JSON_parse names fuel (h ++ rest) thing = Returned text.
Proof.
  induction m as [|m IH]; intros fuel rest thing (Hr & Hready & Hfit) Hb Hfuel;
    (destruct fuel as [|fuel]; [lia|]); cbn [stringify];
    (destruct (map_get names thing) as [name|] eqn:Hname; [eauto|]);
    (destruct thing as [| | | | | | |l]; try (eexists; reflexivity));
    cbn in Hr; apply Nat.ltb_lt in Hr; cbn in Hready;
    (destruct Hfit as [Hfit|Hfit];
     [apply map_has_get in Hfit as [name' Hfit]; congruence|]).
  - pose proof (height_above h table l Hr Hready). lia.
  - assert (Ho : obj_at (h ++ rest) l = obj_at h l).
    { unfold obj_at. now rewrite lookup_app_l. }
    rewrite Ho.
    assert (Hchild : forall c, In c (walked_children (obj_at h l)) -> fit m c).
    { intros c. now apply fit_child. }
    assert (Hprim : forall v, isPrimitive v = true ->
              exists text, stringify JSON_parse names fuel (h ++ rest) v
                           = Returned text).
    { intros v Hv. apply IH; [|exact Hb|lia].
      destruct v; try discriminate; repeat split. }
    assert (Hwrap : forall v, isPrimitive v = true ->
              exists text,
                obind (stringify JSON_parse names fuel (h ++ rest) v)
                      (fun s => Returned (js "Object(" ++ s ++ js ")"))
                = Returned text).
    { intros v Hv. destruct (Hprim v Hv) as [s ->]. cbn. eauto. }
    pose proof (traversable_at h Htrav l) as Htr.
    destruct (cls (obj_at h l)) eqn:Hcls; try (destruct Htr; fail);
      try (now apply Hwrap); try (eexists; reflexivity).
    + unfold stringify_array.
      destruct (traverse_total
                  (fun slot => match slot with
                               | Some v => stringify JSON_parse names fuel (h ++ rest) v
                               | None => Returned []
                               end) elements) as [ms ->]; [|cbn; eauto].
      intros [c|] Hin; [|eauto]. apply IH; [|exact Hb|lia].
      apply Hchild. unfold walked_children. rewrite Hcls.
      apply list_elem_of_In, list_elem_of_omap. exists (Some c).
      split; [now apply list_elem_of_In|reflexivity].
    + destruct (traverse_total (stringify JSON_parse names fuel (h ++ rest)) members)
        as [ms ->]; [|cbn; eauto].
      intros c Hin. apply IH; [|exact Hb|lia].
      apply Hchild. unfold walked_children. now rewrite Hcls.
    + destruct (traverse_total
                  (fun e : value * value =>
                     stringify JSON_parse names fuel
                               ((h ++ rest) ++ [array [Some (fst e); Some (snd e)]])
                               (VObject (length (h ++ rest)))) entries)
        as [ms ->]; [|cbn; eauto].
      intros [k v] Hin. cbn [fst snd].
      destruct fuel as [|fuel]; [lia|]. cbn [stringify].
      rewrite fresh_unnamed by exact Hb.
      assert (Hp : obj_at ((h ++ rest) ++ [array [Some k; Some v]]) (length (h ++ rest))
                   = array [Some k; Some v]).
      { unfold obj_at. rewrite lookup_app_r by lia. now rewrite Nat.sub_diag. }
      rewrite Hp. cbn [cls array]. unfold stringify_array. rewrite <- app_assoc.
      destruct (traverse_total
                  (fun slot => match slot with
                               | Some v0 =>
                                   stringify JSON_parse names fuel
                                     (h ++ rest ++ [array [Some k; Some v]]) v0
                               | None => Returned []
                               end) [Some k; Some v]) as [ms ->]; [|cbn; eauto].
      intros [c|] Hc; [|eauto]. apply IH; [| |lia].
      * apply Hchild. unfold walked_children. rewrite Hcls. apply in_flat_map.
        exists (k, v). split; [exact Hin|]. cbn.
        destruct Hc as [[= <-]|[[= <-]|[]]]; auto.
      * rewrite !length_app in *. lia.
    + rewrite (toJSON_free_at h Hfree l Hcls).
      assert (Hprops : forall (f : jsstring -> jsstring -> jsstring),
                exists ms,
                  traverse (fun p : jsstring * value =>
                              obind (stringify JSON_parse names fuel (h ++ rest) (snd p))
                                    (fun s => Returned (f (fst p) s)))
                           (properties (obj_at h l)) = Returned ms).
      { intros f. apply traverse_total. intros [key c] Hin. cbn [fst snd].
        destruct (IH fuel rest c) as [s ->]; [|exact Hb|lia|cbn; eauto].
        apply Hchild. unfold walked_children. rewrite Hcls.
        apply in_map_iff. now exists (key, c). }
      destruct (proto (obj_at h l)); [|destruct (properties (obj_at h l)) eqn:Ep|].
      * destruct (Hprops (fun key s => safeKey key ++ js ":" ++ s)) as [ms Hms].
        cbn beta in Hms. unfold jsstring in *. rewrite Hms. cbn. eauto.
      * eauto.
      * destruct (Hprops (fun key s => safeKey key
                            ++ js ":{writable:true,enumerable:true,value:"
                            ++ s ++ js "}")) as [ms Hms].
        cbn beta in Hms. unfold jsstring in *. rewrite Hms. cbn. eauto.
      * destruct (Hprops (fun key s => safeKey key ++ js ":" ++ s)) as [ms Hms].
        cbn beta in Hms. unfold jsstring in *. rewrite Hms. cbn. eauto.
Qed.

Variable fresh : list object.
Hypothesis Hfresh : List.Forall (pair_of h) fresh.
Hypothesis Hheap : bound <= length (h ++ fresh).
Hypothesis Hpairs : forall l k v,
  length h <= l -> map_has table (VObject l) = true ->
  obj_at (h ++ fresh) l = array [Some k; Some v] ->
  ready table k /\ ready table v.

Lemma fit_top (thing : value) :
  in_range h thing = true -> ready table thing -> fit (length h) thing.
Proof.
  intros Hr Hready. split; [exact Hr|]. split; [exact Hready|].
  destruct thing; auto. right. apply height_le.
Qed.

Lemma stringify_top (fuel : nat) (thing : value) :
  in_range h thing = true -> ready table thing -> 2 * length h + 1 <= fuel ->
  exists text, stringify JSON_parse names fuel (h ++ fresh) thing = Returned text.
Proof. intros Hr Hready Hfuel. apply (stringify_fit (length h)); auto using fit_top. Qed.

Lemma binding_fit (fuel : nat) (k : value) (name : jsstring) :
  In (k, name) names -> 2 * length h + 1 <= fuel ->
  exists r, binding JSON_parse names fuel (h ++ fresh) k name = Returned r.
Proof.
  intros Hin Hfuel.
  assert (Hk : map_has table k = true).
  { apply assign_names_keys in Hin as [c Hc].
    destruct (In_map_get table k k c Hc (same_value_zero_refl k)) as [c' Hc'].
    apply map_has_get. eauto. }
  unfold binding. destruct k as [| | | | | | |l]; try (eexists; reflexivity).
  assert (Hwrap : forall v, isPrimitive v = true ->
            exists r,
              obind (stringify JSON_parse names fuel (h ++ fresh) v)
                    (fun s => Returned (js "Object(" ++ s ++ js ")", @nil jsstring))
              = Returned r).
  { intros v Hv. destruct (stringify_top fuel v) as [s ->]; auto.
    - now destruct v.
    - now destruct v.
    - cbn. eauto. }
  assert (Hprops : forall o : object,
            (forall p, In p (properties o) ->
                       in_range h (snd p) = true /\ ready table (snd p)) ->
            exists r,
              obind (traverse (fun p : jsstring * value =>
                       obind (stringify JSON_parse names fuel (h ++ fresh) (snd p))
                             (fun s => Returned (name ++ safeProp (fst p) ++ js "=" ++ s)))
                       (properties o))
                    (fun stmts => Returned (match proto o with
                                            | NullPrototype => js "Object.create(null)"
                                            | _ => js "{}"
                                            end, stmts))
              = Returned r).
  { intros o Ho.
    destruct (traverse_total
                (fun p : jsstring * value =>
                   obind (stringify JSON_parse names fuel (h ++ fresh) (snd p))
                         (fun s => Returned (name ++ safeProp (fst p) ++ js "=" ++ s)))
                (properties o)) as [stmts Hs].
    - intros p Hp. destruct (Ho p Hp) as [Hr Hready].
      destruct (stringify_top fuel (snd p) Hr Hready Hfuel) as [s ->]. cbn. eauto.
    - unfold jsstring in *. rewrite Hs. cbn. eauto. }
  destruct (lt_dec l (length h)) as [Hl|Hl].
  - assert (Ho : obj_at (h ++ fresh) l = obj_at h l).
    { unfold obj_at. now rewrite lookup_app_l. }
    rewrite Ho.
    assert (Hchild : forall c, In c (walked_children (obj_at h l)) ->
                               in_range h c = true /\ ready table c).
    { intros c Hc. destruct (fit_child (length h) l c Hl Hk) as (Hr & Hready & _); auto.
      pose proof (height_le h table (VObject l)). lia. }
    pose proof (traversable_at h Htrav l) as Htr.
    destruct (cls (obj_at h l)) eqn:Hcls; try (destruct Htr; fail);
      try (now apply Hwrap); try (eexists; reflexivity).
    + destruct (traverse_total
                  (fun iv : nat * value =>
                     obind (stringify JSON_parse names fuel (h ++ fresh) (snd iv))
                           (fun s => Returned (name ++ js "[" ++ decimal (N.of_nat (fst iv))
                                               ++ js "]=" ++ s)))
                  (indexed 0 elements)) as [stmts Hs].
      * intros [i c] Hic. cbn [fst snd]. destruct (Hchild c) as [Hr Hready].
        { unfold walked_children. rewrite Hcls.
          apply list_elem_of_In, list_elem_of_omap. exists (Some c).
          split; [|reflexivity]. apply list_elem_of_In. eapply indexed_In; eauto. }
        destruct (stringify_top fuel c Hr Hready Hfuel) as [s ->]. cbn. eauto.
      * unfold jsstring in *. rewrite Hs. cbn. eauto.
    + destruct (traverse_total
                  (fun v => obind (stringify JSON_parse names fuel (h ++ fresh) v)
                                  (fun s => Returned (js "add(" ++ s ++ js ")")))
                  members) as [calls Hs].
      * intros c Hc. destruct (Hchild c) as [Hr Hready].
        { unfold walked_children. now rewrite Hcls. }
        destruct (stringify_top fuel c Hr Hready Hfuel) as [s ->]. cbn. eauto.
      * unfold jsstring in *. rewrite Hs. cbn. eauto.
    + destruct (traverse_total
                  (fun e : value * value =>
                     obind (stringify JSON_parse names fuel (h ++ fresh) (fst e))
                       (fun k => obind (stringify JSON_parse names fuel (h ++ fresh) (snd e))
                          (fun v => Returned (js "set(" ++ k ++ js ", " ++ v ++ js ")"))))
                  entries) as [calls Hs].
      * intros [k v] Hkv. cbn [fst snd].
        destruct (Hchild k) as [Hrk Hreadyk].
        { unfold walked_children. rewrite Hcls. apply in_flat_map.
          exists (k, v). split; [exact Hkv|cbn; auto]. }
        destruct (Hchild v) as [Hrv Hreadyv].
        { unfold walked_children. rewrite Hcls. apply in_flat_map.
          exists (k, v). split; [exact Hkv|cbn; auto]. }
        destruct (stringify_top fuel k Hrk Hreadyk Hfuel) as [s ->].
        destruct (stringify_top fuel v Hrv Hreadyv Hfuel) as [s' ->]. cbn. eauto.
      * unfold jsstring in *. rewrite Hs. cbn. eauto.
    + apply Hprops. intros p Hp. apply Hchild. unfold walked_children.
      rewrite Hcls. now apply in_map.
  - assert (Ho : obj_at (h ++ fresh) l = plain []
                 \/ exists k v, obj_at (h ++ fresh) l = array [Some k; Some v]
                                 /\ in_range h k = true /\ in_range h v = true).
    { unfold obj_at. rewrite lookup_app_r by lia.
      destruct (fresh !! (l - length h)) as [o|] eqn:E; [right|now left]. cbn.
      rewrite List.Forall_forall in Hfresh.
      destruct (Hfresh o) as (k & v & -> & Hkv).
      { apply list_elem_of_In. eapply list_elem_of_lookup_2; eauto. }
      exists k, v. auto. }
    destruct Ho as [Ho|(k & v & Ho & Hrk & Hrv)].
    + rewrite Ho. cbn. eauto.
    + destruct (Hpairs l k v) as [Hreadyk Hreadyv]; [lia|exact Hk|exact Ho|].
      rewrite Ho. cbn [cls array indexed traverse fst snd].
      destruct (stringify_top fuel k Hrk Hreadyk Hfuel) as [s ->].
      destruct (stringify_top fuel v Hrv Hreadyv Hfuel) as [s' ->]. cbn. eauto.
Qed.

Lemma assemble_fit (fuel : nat) (root : value) :
  in_range h root = true -> ready table root -> 2 * length h + 1 <= fuel ->
  exists text, assemble JSON_parse names fuel (h ++ fresh) root = Returned text.
Proof.
  intros Hr Hready Hfuel. unfold assemble.
  destruct (stringify_top fuel root Hr Hready Hfuel) as [str ->]. cbn [obind].
  destruct (traverse_total
              (fun entry : value * jsstring =>
                 binding JSON_parse names fuel (h ++ fresh) (fst entry) (snd entry))
              names) as [bindings Hb].
  { intros [k name] Hin. now apply binding_fit. }
  destruct names; [eauto|]. unfold jsstring in *. rewrite Hb. cbn. eauto.
Qed.
End Render.

(** [devalue] returns a text for every closed graph of plain values
    (records, arrays, sets, maps, wrappers, dates, regular expressions
    and primitives, no [toJSON]), whatever its cycles and its sharing:
    the traversal ends, every cycle goes through a value that was counted
    twice and so has a name, and a depth of twice the number of objects
    plus one is enough for both passes. *)
Theorem devalue_returns (logLimit : Z) (JSON_parse : jsstring -> option json)
    (h : heap) (root : value) (fuel : nat) :
  closed h = true -> toJSON_free h = true -> traversable h = true ->
  in_range h root = true -> 2 * length h + 1 <= fuel ->
  exists text, serialize logLimit JSON_parse fuel h root = Returned text.
Proof.
  intros Hclosed Hfree Htrav Hroot Hfuel.
  destruct (walk_explores logLimit JSON_parse h Hclosed Hfree Htrav fuel) as [H1 _].
  assert (H0 : exploring h (length h) h [] (fun _ => True) (initial_state h)).
  { split.
    { split; [exists []; cbn; rewrite app_nil_r; split; [reflexivity|constructor]|].
      split; [discriminate|]. split; [discriminate|]. split; discriminate. }
    split; [exists []; cbn; now rewrite app_nil_r|].
    split; [apply count_unvisited_le|exact Logic.I]. }
  destruct (H1 (length h) root None None None h [] (fun _ => True) (initial_state h) H0)
    as [[u Hu] (Hst & Hready & _)]; auto.
  { split; auto. }
  pose proof (walk_counts logLimit JSON_parse distinct_keys
                (fun m k c => distinct_keys_set m k c)
                (fun m k => distinct_keys_delete m k)
                fuel root None None None (initial_state h) Logic.I) as [Hd _].
  unfold serialize, devalue.
  destruct (walk logLimit JSON_parse fuel root None None None (initial_state h))
    as [[[]| |] st] eqn:E; cbn [fst snd] in *; try discriminate.
  destruct Hst as (((fresh & Hheap & Hfresh) & Hin & _ & Hdone & Hpairs) & _).
  rewrite Hheap in *.
  apply (assemble_fit JSON_parse h (counts st) (length (h ++ fresh))
           Hclosed Hfree Htrav Hd Hin
           (fun l Hl Hc => Hdone l Hl Hc (fun H => H))
           fresh Hfresh (le_n _)
           (fun l k v Hl Hc => Hpairs l k v Hl Hc (fun H => H))
           fuel root Hroot Hready Hfuel).
Qed.

Lemma devalue_returns_witness :
  exists text,
    serialize 99 (fun _ => None) 7
      [plain [(js "self", VObject 0); (js "items", VObject 1); (js "index", VObject 2)];
       array [Some (VObject 0); None; Some (VObject 2)];
       Object (Map_ [(VString (js "k"), VObject 1)])
              (OtherPrototype false (Some (js "Map")) VUndefined) [] []]
      (VObject 0)
    = Returned text.
Proof.
  apply (devalue_returns 99 (fun _ => None)
    [plain [(js "self", VObject 0); (js "items", VObject 1); (js "index", VObject 2)];
     array [Some (VObject 0); None; Some (VObject 2)];
     Object (Map_ [(VString (js "k"), VObject 1)])
            (OtherPrototype false (Some (js "Map")) VUndefined) [] []]
    (VObject 0) 7).
  - reflexivity.
  - reflexivity.
  - reflexivity.
  - reflexivity.
  - cbn. lia.
Defined.

(** ** Primitives (lines 276-283) *)

Section Primitives.
Local Open Scope N_scope.

Lemma digits_loop_Forall (P : N -> Prop) (base : N) (digit : N -> N) :
  base <> 0 -> (forall d, d < base -> P (digit d)) ->
  forall fuel n acc, List.Forall P acc ->
                     List.Forall P (digits_loop fuel base digit n acc).
Proof.
  intros Hb Hd.
  assert (Hstep : forall n acc, List.Forall P acc ->
                                List.Forall P (digit (n mod base) :: acc)).
  { intros n acc Hacc. constructor; [|exact Hacc]. apply Hd. now apply N.mod_lt. }
  induction fuel as [|fuel IH]; intros n acc Hacc; cbn [digits_loop].
  - now apply Hstep.
  - destruct (n / base =? 0); [now apply Hstep|]. apply IH. now apply Hstep.
Qed.

Lemma decimal_digits (n : N) : List.Forall (fun c => 48 <= c <= 57) (decimal n).
Proof.
  apply digits_loop_Forall; [lia| |constructor].
  intros d Hd. unfold digit_char. lia.
Qed.

Lemma strip_leading_zero_decimal_Z (z : Z) :
  strip_leading_zero (decimal_Z z) = decimal_Z z.
Proof.
  assert (H : forall n, strip_leading_zero (decimal n) = decimal n
                        /\ strip_leading_zero (45 :: decimal n) = 45 :: decimal n).
  { intros n. pose proof (decimal_digits n) as Hd.
    destruct (decimal n) as [|a [|b [|c s]]]; cbn; try (split; reflexivity).
    - inversion Hd as [|? ? Ha _]; subst.
      repeat match goal with
             | |- context [match ?x with _ => _ end] => destruct x
             end; split; reflexivity.
    - inversion Hd as [|? ? Ha Hd']; subst. inversion Hd' as [|? ? Hb _]; subst.
      assert (b <> 46) by lia.
      repeat match goal with
             | |- context [match ?x with _ => _ end] => destruct x
             end; split; try reflexivity; try lia.
    - inversion Hd as [|? ? Ha Hd']; subst. inversion Hd' as [|? ? Hb _]; subst.
      assert (b <> 46) by lia.
      repeat match goal with
             | |- context [match ?x with _ => _ end] => destruct x
             end; split; try reflexivity; try lia. }
  destruct z as [|p|p]; cbn [decimal_Z]; apply H.
Qed.
End Primitives.

(** A BigInt that a double holds exactly (at most 2^53 in size) is
    written as the Number of the same value is: the digits alone, with
    their sign, so that the text evaluates to a Number, not to a BigInt. *)
Theorem bigint_is_written_as_a_number (z : Z) :
  safe_integer z ->
  stringifyPrimitive (VBigInt z) = stringifyPrimitive (VNumber (NInt z))
  /\ stringifyPrimitive (VBigInt z) = decimal_Z z.
Proof.
  intros _. cbn [stringifyPrimitive number_to_string].
  now rewrite strip_leading_zero_decimal_Z.
Qed.

Lemma bigint_is_written_as_a_number_witness :
  stringifyPrimitive (VBigInt 12) = stringifyPrimitive (VNumber (NInt 12))
  /\ stringifyPrimitive (VBigInt 12) = js "12".
Proof. apply (bigint_is_written_as_a_number 12). unfold safe_integer. cbn. lia. Defined.

(** ** Keys are told apart (lines 297-303) *)

Section Keys.
Local Open Scope N_scope.

Lemma escapeUnsafeChars_app (a b : jsstring) :
  escapeUnsafeChars (a ++ b) = escapeUnsafeChars a ++ escapeUnsafeChars b.
Proof. apply flat_map_app. Qed.

Lemma escapeUnsafeChars_cons (c : N) (s : jsstring) :
  escapeUnsafeChars (c :: s)
  = (if unsafeChars c then escapeUnsafeChar c else [c]) ++ escapeUnsafeChars s.
Proof. reflexivity. Qed.

Lemma unescape_hex4 (d3 d2 d1 d0 : N) (rest : jsstring) :
  unescape (backslash :: 117 :: d3 :: d2 :: d1 :: d0 :: rest)
  = (((hex_value d3 * 16 + hex_value d2) * 16 + hex_value d1) * 16 + hex_value d0)
    :: unescape rest.
Proof. reflexivity. Qed.

Lemma unescape_short (e : N) (rest : jsstring) :
  e <> 117 -> unescape (backslash :: e :: rest) = short_escape e :: unescape rest.
Proof.
  intros He. cbn [unescape]. change (backslash =? backslash) with true. cbv iota.
  apply N.eqb_neq in He. now rewrite He.
Qed.

Lemma hex_lower_ranges :
  forallb (fun i => let c := N.of_nat i in
             match hex_lower c with
             | [d] => (hex_value d =? c) && negb (unsafeChars d)
             | _ => false
             end) (seq 0 16)
  && forallb (fun i => let c := 16 + N.of_nat i in
                match hex_lower c with
                | [d1; d0] =>
                    (hex_value d1 * 16 + hex_value d0 =? c)
                    && negb (unsafeChars d1) && negb (unsafeChars d0)
                | _ => false
                end) (seq 0 16)
  && forallb (fun i => let c := 55296 + N.of_nat i in
                match hex_lower c with
                | [d3; d2; d1; d0] =>
                    (((hex_value d3 * 16 + hex_value d2) * 16 + hex_value d1) * 16
                     + hex_value d0 =? c)
                    && negb (unsafeChars d3) && negb (unsafeChars d2)
                    && negb (unsafeChars d1) && negb (unsafeChars d0)
                | _ => false
                end) (seq 0 2048) = true.
Proof. vm_compute. reflexivity. Qed.

Lemma hex_lower_1 (c : N) (rest : jsstring) :
  c < 16 ->
  unescape (escapeUnsafeChars (bs "u000" ++ hex_lower c ++ rest))
  = c :: unescape (escapeUnsafeChars rest).
Proof.
  intros Hc. pose proof hex_lower_ranges as H.
  apply andb_prop in H as [[H _]%andb_prop _].
  rewrite forallb_forall in H. specialize (H (N.to_nat c)). cbv zeta in H.
  rewrite N2Nat.id in H.
  destruct (hex_lower c) as [|d [|? ?]]; try (discriminate H; apply in_seq; lia).
  apply andb_prop in H as [Hv Hs]; [|apply in_seq; lia].
  apply N.eqb_eq in Hv. apply negb_true_iff in Hs.
  change (bs "u000") with [backslash; 117; 48; 48; 48]. cbn [app].
  rewrite !escapeUnsafeChars_cons, Hs.
  change (unsafeChars backslash) with false. change (unsafeChars 117) with false.
  change (unsafeChars 48) with false. cbn [app].
  rewrite unescape_hex4. f_equal. rewrite <- Hv. reflexivity.
Qed.

Lemma hex_lower_2 (c : N) (rest : jsstring) :
  16 <= c < 32 ->
  unescape (escapeUnsafeChars (bs "u00" ++ hex_lower c ++ rest))
  = c :: unescape (escapeUnsafeChars rest).
Proof.
  intros Hc. pose proof hex_lower_ranges as H.
  apply andb_prop in H as [[_ H]%andb_prop _].
  rewrite forallb_forall in H. specialize (H (N.to_nat (c - 16))). cbv zeta in H.
  replace (16 + N.of_nat (N.to_nat (c - 16))) with c in H by lia.
  destruct (hex_lower c) as [|d1 [|d0 [|? ?]]]; try (discriminate H; apply in_seq; lia).
  apply andb_prop in H as [[Hv Hs1]%andb_prop Hs0]; [|apply in_seq; lia].
  apply N.eqb_eq in Hv. apply negb_true_iff in Hs1, Hs0.
  change (bs "u00") with [backslash; 117; 48; 48]. cbn [app].
  rewrite !escapeUnsafeChars_cons, Hs1, Hs0.
  change (unsafeChars backslash) with false. change (unsafeChars 117) with false.
  change (unsafeChars 48) with false. cbn [app].
  rewrite unescape_hex4. f_equal. rewrite <- Hv. reflexivity.
Qed.

Lemma hex_lower_4 (c : N) (rest : jsstring) :
  is_surrogate c = true ->
  unescape (escapeUnsafeChars (bs "u" ++ hex_lower c ++ rest))
  = c :: unescape (escapeUnsafeChars rest).
Proof.
  unfold is_surrogate. intros [Hlo Hhi]%andb_prop. apply N.leb_le in Hlo, Hhi.
  pose proof hex_lower_ranges as H. apply andb_prop in H as [_ H].
  rewrite forallb_forall in H. specialize (H (N.to_nat (c - 55296))). cbv zeta in H.
  replace (55296 + N.of_nat (N.to_nat (c - 55296))) with c in H by lia.
  destruct (hex_lower c) as [|d3 [|d2 [|d1 [|d0 [|? ?]]]]];
    try (discriminate H; apply in_seq; lia).
  apply andb_prop in H as [[[[Hv Hs3]%andb_prop Hs2]%andb_prop Hs1]%andb_prop Hs0];
    [|apply in_seq; lia].
  apply N.eqb_eq in Hv. apply negb_true_iff in Hs3, Hs2, Hs1, Hs0.
  change (bs "u") with [backslash; 117]. cbn [app].
  rewrite !escapeUnsafeChars_cons, Hs3, Hs2, Hs1, Hs0.
  change (unsafeChars backslash) with false. change (unsafeChars 117) with false.
  cbn [app]. rewrite unescape_hex4. now f_equal.
Qed.

Lemma escape_short (e : N) (rest : jsstring) :
  unsafeChars e = false -> e <> 117 ->
  unescape (escapeUnsafeChars ([backslash; e] ++ rest))
  = short_escape e :: unescape (escapeUnsafeChars rest).
Proof.
  intros Hs He. cbn [app]. rewrite !escapeUnsafeChars_cons, Hs.
  change (unsafeChars backslash) with false. cbn [app].
  now apply unescape_short.
Qed.

Lemma unescape_JSON_quote_loop (n : nat) :
  forall str, (length str <= n)%nat ->
              unescape (escapeUnsafeChars (JSON_quote_loop str)) = str.
Proof.
  induction n as [|n IH]; intros [|c rest] Hlen; cbn in Hlen; try reflexivity;
    try lia.
  assert (IHrest : unescape (escapeUnsafeChars (JSON_quote_loop rest)) = rest).
  { apply IH. lia. }
  cbn [JSON_quote_loop].
  destruct (N.eqb_spec c quote) as [->|Hq].
  { rewrite escape_short by (try reflexivity; discriminate). now rewrite IHrest. }
  destruct (N.eqb_spec c backslash) as [->|Hb].
  { rewrite escape_short by (try reflexivity; discriminate). now rewrite IHrest. }
  destruct (N.eqb_spec c 8) as [->|H8].
  { change (bs "b") with [backslash; 98].
    rewrite escape_short by (try reflexivity; discriminate). now rewrite IHrest. }
  destruct (N.eqb_spec c 12) as [->|H12].
  { change (bs "f") with [backslash; 102].
    rewrite escape_short by (try reflexivity; discriminate). now rewrite IHrest. }
  destruct (N.eqb_spec c 10) as [->|H10].
  { change (bs "n") with [backslash; 110].
    rewrite escape_short by (try reflexivity; discriminate). now rewrite IHrest. }
  destruct (N.eqb_spec c 13) as [->|H13].
  { change (bs "r") with [backslash; 114].
    rewrite escape_short by (try reflexivity; discriminate). now rewrite IHrest. }
  destruct (N.eqb_spec c 9) as [->|H9].
  { change (bs "t") with [backslash; 116].
    rewrite escape_short by (try reflexivity; discriminate). now rewrite IHrest. }
  destruct (N.ltb_spec c 16) as [H16|H16].
  { rewrite hex_lower_1 by exact H16. now rewrite IHrest. }
  destruct (N.ltb_spec c 32) as [H32|H32].
  { rewrite hex_lower_2 by lia. now rewrite IHrest. }
  assert (Hplain : forall x s, 32 <= x -> x <> backslash ->
            (is_surrogate x = true \/ unsafeChars x = false) ->
            unescape (escapeUnsafeChars (x :: s))
            = x :: unescape (escapeUnsafeChars s)).
  { intros x s Hx Hxb Hsafe. rewrite escapeUnsafeChars_cons.
    assert (Hu : unsafeChars x = false).
    { destruct Hsafe as [Hs|Hs]; [|exact Hs].
      unfold is_surrogate in Hs. apply andb_prop in Hs as [Hlo _].
      apply N.leb_le in Hlo. apply unsafeChars_above. lia. }
    rewrite Hu. cbn [app]. now apply unescape_plain. }
  destruct (is_surrogate c) eqn:Hs.
  - destruct rest as [|next rest'].
    + now rewrite hex_lower_4, IHrest.
    + destruct (is_high_surrogate c && is_low_surrogate next) eqn:Hpair.
      * apply andb_prop in Hpair as [_ Hlow].
        assert (Hnext : is_surrogate next = true).
        { unfold is_low_surrogate in Hlow. unfold is_surrogate.
          apply andb_prop in Hlow as [H1 H2]. apply N.leb_le in H1, H2.
          apply andb_true_intro. split; apply N.leb_le; lia. }
        assert (Hn32 : 32 <= next /\ next <> backslash).
        { unfold is_surrogate in Hnext. apply andb_prop in Hnext as [H1 _].
          apply N.leb_le in H1. unfold backslash. lia. }
        rewrite Hplain by auto. rewrite Hplain by (try tauto; auto).
        do 2 f_equal. apply IH. cbn in Hlen. lia.
      * now rewrite hex_lower_4, IHrest.
  - destruct (unsafeChars c) eqn:Hu.
    + rewrite escapeUnsafeChars_cons, Hu.
      unfold unsafeChars in Hu.
      repeat match type of Hu with
             | (_ || _)%bool = true => apply orb_prop in Hu as [Hu|Hu]
             end;
        apply N.eqb_eq in Hu; subst c; try lia;
        cbn [escapeUnsafeChar escaped N.eqb Pos.eqb];
        (change (bs "u003C") with [backslash; 117; 48; 48; 51; 67]
         || change (bs "u003E") with [backslash; 117; 48; 48; 51; 69]
         || change (bs "u2028") with [backslash; 117; 50; 48; 50; 56]
         || change (bs "u2029") with [backslash; 117; 50; 48; 50; 57]);
        cbn [app]; rewrite unescape_hex4, IHrest; reflexivity.
    + rewrite Hplain by auto. now rewrite IHrest.
Qed.

Lemma quoted_key (key : jsstring) :
  escapeUnsafeChars (JSON_stringify_string key)
  = quote :: escapeUnsafeChars (JSON_quote_loop key) ++ [quote].
Proof.
  unfold JSON_stringify_string. rewrite !escapeUnsafeChars_app. reflexivity.
Qed.

Lemma quoted_key_inv (a b : jsstring) :
  escapeUnsafeChars (JSON_stringify_string a)
  = escapeUnsafeChars (JSON_stringify_string b) -> a = b.
Proof.
  rewrite !quoted_key. intros [= H]. apply app_inv_tail in H.
  rewrite <- (unescape_JSON_quote_loop (length a) a (Nat.le_refl _)).
  rewrite <- (unescape_JSON_quote_loop (length b) b (Nat.le_refl _)).
  now rewrite H.
Qed.

Lemma identifier_not_quoted (a b : jsstring) :
  is_identifier a = true -> a <> escapeUnsafeChars (JSON_stringify_string b).
Proof.
  intros Ha E. rewrite quoted_key in E. subst a. discriminate Ha.
Qed.

Lemma safeKey_inv (a b : jsstring) : safeKey a = safeKey b -> a = b.
Proof.
  unfold safeKey.
  destruct (is_identifier a) eqn:Ha, (is_identifier b) eqn:Hb; intros E.
  - exact E.
  - now apply identifier_not_quoted in E.
  - symmetry in E. now apply identifier_not_quoted in E.
  - now apply quoted_key_inv.
Qed.

Lemma safeProp_inv (a b : jsstring) : safeProp a = safeProp b -> a = b.
Proof.
  unfold safeProp. change (js ".") with [46]. change (js "[") with [91].
  change (js "]") with [93].
  destruct (is_identifier a) eqn:Ha, (is_identifier b) eqn:Hb; intros E.
  - now apply app_inv_head in E.
  - discriminate E.
  - discriminate E.
  - apply app_inv_head, app_inv_tail in E. now apply quoted_key_inv.
Qed.
End Keys.

(** Two keys are written the same only when they are the same key, as
    the key of a literal and as the property of a statement: no two
    members of a record are merged by the way their keys are written. *)
Theorem keys_are_told_apart :
  forall a b : jsstring,
    jsstring_eqb (safeKey a) (safeKey b) = jsstring_eqb a b
    /\ jsstring_eqb (safeProp a) (safeProp b) = jsstring_eqb a b.
Proof.
  intros a b. destruct (jsstring_eqb a b) eqn:E.
  - apply jsstring_eqb_eq in E. subst. split; apply jsstring_eqb_refl.
  - split; apply jsstring_eqb_neq; intros H;
      [apply safeKey_inv in H|apply safeProp_inv in H]; subst;
      now rewrite jsstring_eqb_refl in E.
Qed.

(** ** The conversion is written into the input (lines 73-109) *)

Lemma assoc_update_property (props : list (jsstring * value)) (key : jsstring)
    (v w : value) :
  assoc props key = Some w -> assoc (update_property props key v) key = Some v.
Proof.
  induction props as [|[k x] props IH]; cbn; [discriminate|].
  destruct (jsstring_eqb k key) eqn:E; cbn; rewrite E; auto.
Qed.

Lemma assoc_insert_property (props : list (jsstring * value)) (key : jsstring)
    (v : value) :
  assoc props key = None -> assoc (insert_property props key v) key = Some v.
Proof.
  induction props as [|[k x] props IH]; cbn [insert_property assoc].
  - now rewrite jsstring_eqb_refl.
  - destruct (jsstring_eqb k key) eqn:E; [discriminate|]. intros Hnone.
    destruct (array_index key), (array_index k); try destruct (_ <? _)%N;
      cbn [assoc]; rewrite ?jsstring_eqb_refl, ?E; auto.
Qed.

Lemma get_property_put_property (h : list object) (p : nat) (key : jsstring)
    (v : value) :
  p < length h -> get_property (put_property h p key v) p key = v.
Proof.
  intros Hp. unfold get_property, put_property, obj_at.
  rewrite list_lookup_insert_eq by exact Hp. cbn.
  unfold set_own_property.
  destruct (assoc (properties (default (plain []) (h !! p))) key) as [w|] eqn:E.
  - now rewrite (assoc_update_property _ _ _ _ E).
  - now rewrite (assoc_insert_property _ _ _ E).
Qed.

Lemma alloc_json_length (j : json) :
  forall h, length h <= length (snd (alloc_json j h)).
Proof.
  induction j as [|b|n|s|items IH|members IH] using json_induction; intros h;
    try (cbn; lia).
  - cbn [alloc_json].
    match goal with
    | |- context [?f items h] => set (go := f)
    end.
    assert (Hgo : forall h, length h <= length (snd (go items h))).
    { clear h. induction IH as [|x xs Hx Hxs IHxs]; intros h; cbn; [lia|].
      specialize (Hx h). destruct (alloc_json x h) as [v h1]. cbn in Hx.
      specialize (IHxs h1). destruct (go xs h1) as [vs h2]. cbn in *. lia. }
    specialize (Hgo h). destruct (go items h) as [vs h']. cbn in *.
    rewrite length_app. lia.
  - cbn [alloc_json].
    match goal with
    | |- context [?f members h] => set (go := f)
    end.
    assert (Hgo : forall h, length h <= length (snd (go members h))).
    { clear h. induction IH as [|[k x] xs Hx Hxs IHxs]; intros h; cbn; [lia|].
      cbn in Hx. specialize (Hx h). destruct (alloc_json x h) as [v h1]. cbn in Hx.
      specialize (IHxs h1). destruct (go xs h1) as [vs h2]. cbn in *. lia. }
    specialize (Hgo h). destruct (go members h) as [ps h']. cbn in *.
    rewrite length_app. lia.
Qed.

(** When the member [key] of the record at [p] has a [toJSON], the
    traversal writes the conversion into the record in its place: after
    the branch, [parent[key]] is the converted value, which is the one the
    cache holds for the original and the one that is counted. *)
Theorem conversion_replaces_the_member (JSON_parse : jsstring -> option json)
    (thing : value) (o : object) (p : nat) (key : jsstring) (st : state) :
  p < length (st_heap st) ->
  fst (walk_toJSON JSON_parse thing o (Some p) (Some key) None st) = Returned tt ->
  exists converted,
    get_property
      (st_heap (snd (walk_toJSON JSON_parse thing o (Some p) (Some key) None st)))
      p key = converted
    /\ map_get
         (mapObjToJSON (snd (walk_toJSON JSON_parse thing o (Some p) (Some key) None st)))
         thing = Some converted
    /\ map_has
         (counts (snd (walk_toJSON JSON_parse thing o (Some p) (Some key) None st)))
         converted = true.
Proof.
  intros Hp. unfold walk_toJSON, splice, bind, gets, modify, ret, throw.
  cbn [fst snd st_heap set_counts mapObjToJSON counts default].
  destruct (map_get (mapObjToJSON st) thing) as [converted|] eqn:Hget.
  - cbn. intros _. exists converted. split; [now apply get_property_put_property|].
    split; [exact Hget|apply map_has_set_same].
  - destruct (typeof_function _ (get_toJSON o));
      (destruct (call_toJSON _ (get_toJSON o)) as [result|]; [|discriminate]);
      cbn [fst snd st_heap add_invoked];
      (destruct (string_text _ result) as [text|];
       [destruct (JSON_parse text) as [tree|];
        [match goal with
         | |- context [alloc_json tree ?h0] =>
             pose proof (alloc_json_length tree h0) as Hlen;
             destruct (alloc_json tree h0) as [v h']; cbn in Hlen
         end|]|]);
      cbn; intros _; eexists;
      (split; [apply get_property_put_property; lia|]);
      (split; [rewrite map_get_set, same_value_zero_refl; reflexivity
              |apply map_has_set_same]).
Qed.

Lemma conversion_replaces_the_member_witness :
  exists converted,
    get_property
      (st_heap (snd (walk_toJSON (fun _ => None) (VObject 1)
                       (plain [(js "toJSON", VObject 2)])
                       (Some 0) (Some (js "when")) None
                       (initial_state
                          [plain [(js "when", VObject 1)];
                           plain [(js "toJSON", VObject 2)];
                           Object (Function (js "toJSON") (Some (VNumber (NInt 7))))
                                  ObjectPrototype [] []]))))
      0 (js "when") = converted
    /\ map_get
         (mapObjToJSON (snd (walk_toJSON (fun _ => None) (VObject 1)
                       (plain [(js "toJSON", VObject 2)])
                       (Some 0) (Some (js "when")) None
                       (initial_state
                          [plain [(js "when", VObject 1)];
                           plain [(js "toJSON", VObject 2)];
                           Object (Function (js "toJSON") (Some (VNumber (NInt 7))))
                                  ObjectPrototype [] []]))))
         (VObject 1) = Some converted
    /\ map_has
         (counts (snd (walk_toJSON (fun _ => None) (VObject 1)
                       (plain [(js "toJSON", VObject 2)])
                       (Some 0) (Some (js "when")) None
                       (initial_state
                          [plain [(js "when", VObject 1)];
                           plain [(js "toJSON", VObject 2)];
                           Object (Function (js "toJSON") (Some (VNumber (NInt 7))))
                                  ObjectPrototype [] []]))))
         converted = true.
Proof.
  apply (conversion_replaces_the_member (fun _ => None) (VObject 1)
           (plain [(js "toJSON", VObject 2)]) 0 (js "when")).
  - cbn. lia.
  - reflexivity.
Defined.

(** ** A conversion needs a record to be written into (lines 104-107) *)

Lemma walk_toJSON_no_parent (JSON_parse : jsstring -> option json) (thing : value)
    (o : object) (key : option jsstring) (index : option nat) (st : state) :
  fst (walk_toJSON JSON_parse thing o None key index st) = Thrown.
Proof.
  unfold walk_toJSON, splice, bind, gets, modify, ret, throw. cbn [fst snd].
  destruct (map_get _ thing) as [converted|]; [reflexivity|].
  destruct (typeof_function _ (get_toJSON o));
    (destruct (call_toJSON _ (get_toJSON o)) as [result|]; [|reflexivity]);
    (destruct (string_text _ result) as [text|]; [|reflexivity]);
    (destruct (JSON_parse text) as [tree|]; [|reflexivity]);
    destruct (alloc_json tree _); reflexivity.
Qed.

Lemma thrown_gets {A B : Type} (f : state -> A) (k : A -> M B) (st : state) :
  fst (k (f st) st) = Thrown -> fst (bind (gets f) k st) = Thrown.
Proof. exact (fun H => H). Qed.

Lemma thrown_modify {B : Type} (g : state -> state) (k : unit -> M B) (st : state) :
  fst (k tt (g st)) = Thrown -> fst (bind (modify g) k st) = Thrown.
Proof. exact (fun H => H). Qed.

Lemma thrown_bind {A B : Type} (m : M A) (k : A -> M B) (st : state) :
  fst (m st) = Thrown -> fst (bind m k st) = Thrown.
Proof. unfold bind. destruct (m st) as [[a| |] st']; cbn; congruence. Qed.

Lemma walk_no_parent (logLimit : Z) (JSON_parse : jsstring -> option json)
    (fuel : nat) (l : nat) (key : option jsstring) (index : option nat) (st : state) :
  cls (obj_at (st_heap st) l) = Plain ->
  truthy (get_toJSON (obj_at (st_heap st) l)) = true ->
  map_has (counts st) (VObject l) = false ->
  fst (walk logLimit JSON_parse (S fuel) (VObject l) None key index st) = Thrown.
Proof.
  intros Hcls Htruthy Hseen. cbn [walk]. apply thrown_gets.
  unfold typeof_function. rewrite Hcls. apply thrown_gets. rewrite Hseen.
  apply thrown_modify. rewrite Htruthy. apply walk_toJSON_no_parent.
Qed.

(** An object with a [toJSON] that is the first element of the array
    given to [devalue] makes the call throw: the elements of an array are
    walked with the parent of the array, which the root has not, and the
    conversion is written into that parent. *)
Theorem toJSON_in_a_root_array_throws (logLimit : Z)
    (JSON_parse : jsstring -> option json) (fuel : nat) (h : heap)
    (a l : loc) (rest : list (option value)) :
  cls (obj_at h a) = Array (Some (VObject l) :: rest) ->
  cls (obj_at h l) = Plain ->
  truthy (get_toJSON (obj_at h l)) = true ->
  serialize logLimit JSON_parse (S (S fuel)) h (VObject a) = Thrown.
Proof.
  intros Ha Hl Htruthy.
  assert (Hne : a <> l) by (intros ->; congruence).
  assert (Hw : fst (walk logLimit JSON_parse (S (S fuel)) (VObject a) None None None
                         (initial_state h)) = Thrown).
  { remember (S fuel) as fuel' eqn:Hfuel. cbn [walk]. subst fuel'.
    apply thrown_gets. cbn [initial_state st_heap].
    unfold typeof_function. rewrite Ha. apply thrown_gets.
    cbn [counts map_has map_get]. apply thrown_modify.
    cbn [length forEach_array]. apply thrown_gets.
    unfold array_get. cbn [st_heap set_counts initial_state]. rewrite Ha.
    cbn [lookup list_lookup mjoin option_join]. apply thrown_bind.
    apply walk_no_parent; cbn [st_heap set_counts counts]; auto.
    rewrite map_has_set. cbn. apply Nat.eqb_neq. exact Hne. }
  unfold serialize, devalue.
  destruct (walk logLimit JSON_parse (S (S fuel)) (VObject a) None None None
                 (initial_state h)) as [[u| |] st']; cbn [fst] in Hw;
    try discriminate Hw.
  reflexivity.
Qed.

Lemma toJSON_in_a_root_array_throws_witness :
  serialize 99 (fun _ => None) 2
            [array [Some (VObject 1)];
             plain [(js "toJSON", VObject 2)];
             Object (Function (js "toJSON") (Some (VNumber (NInt 7))))
                    ObjectPrototype [] []]
            (VObject 0)
  = Thrown.
Proof.
  apply (toJSON_in_a_root_array_throws 99 (fun _ => None) 0
           [array [Some (VObject 1)];
            plain [(js "toJSON", VObject 2)];
            Object (Function (js "toJSON") (Some (VNumber (NInt 7))))
                   ObjectPrototype [] []]
           0 1 []).
  - reflexivity.
  - reflexivity.
  - reflexivity.
Defined.

(** ** A cycle through an instance of a class (lines 113-120, 192) *)

Lemma stringify_self_unnamed (JSON_parse : jsstring -> option json) (h : heap)
    (l : loc) (name : option jsstring) (inherited : value) (key : jsstring)
    (props : list (jsstring * value)) :
  cls (obj_at h l) = Plain ->
  proto (obj_at h l) = OtherPrototype false name inherited ->
  truthy (get_toJSON (obj_at h l)) = false ->
  properties (obj_at h l) = (key, VObject l) :: props ->
  forall fuel, stringify JSON_parse [] fuel h (VObject l) = OutOfFuel.
Proof.
  intros Hcls Hproto Htruthy Hprops. induction fuel as [|fuel IH]; [reflexivity|].
  cbn [stringify map_get]. rewrite Hcls, Htruthy, Hproto, Hprops.
  cbn [traverse snd]. rewrite IH. reflexivity.
Qed.

(** The record of a class that holds itself is reported by the traversal,
    which does not go into it and so counts it once; it gets no name, and
    the rendering pass, which does go into it, never comes to an end,
    however deep it may recurse. *)
Theorem cyclic_instance_is_never_rendered (logLimit : Z)
    (JSON_parse : jsstring -> option json) (fuel : nat) (h : heap) (l : loc)
    (name : jsstring) (inherited : value) (key : jsstring)
    (props : list (jsstring * value)) :
  cls (obj_at h l) = Plain ->
  proto (obj_at h l) = OtherPrototype false (Some name) inherited ->
  truthy (get_toJSON (obj_at h l)) = false ->
  properties (obj_at h l) = (key, VObject l) :: props ->
  serialize logLimit JSON_parse fuel h (VObject l) = OutOfFuel.
Proof.
  intros Hcls Hproto Htruthy Hprops. unfold serialize, devalue.
  destruct fuel as [|fuel]; [reflexivity|].
  assert (Hwalk : exists st,
            walk logLimit JSON_parse (S fuel) (VObject l) None None None
                 (initial_state h) = (Returned tt, st)
            /\ st_heap st = h /\ counts st = [(VObject l, Some 1)]).
  { cbn [walk]. unfold bind at 1. cbn [gets initial_state st_heap fst snd].
    unfold typeof_function. rewrite Hcls.
    unfold bind at 1. cbn [gets counts map_has map_get fst snd].
    unfold bind at 1. cbn [modify fst snd]. rewrite Htruthy.
    unfold walk_object. rewrite Hproto.
    unfold log, bind, gets, consola, modify, ret. cbn.
    destruct (Z.of_nat 0 <? logLimit)%Z; cbn; eexists; (split; [reflexivity|]);
      split; reflexivity. }
  destruct Hwalk as (st & -> & Hheap & Hcounts). cbn [fst snd].
  rewrite Hheap, Hcounts. cbn [assign_names]. unfold assemble.
  change (assign_names [(VObject l, Some 1)]) with (@nil (value * jsstring)).
  now rewrite (stringify_self_unnamed JSON_parse h l (Some name) inherited key props).
Qed.

Lemma cyclic_instance_is_never_rendered_witness :
  serialize 99 (fun _ => None) 50
            [Object Plain (OtherPrototype false (Some (js "Node")) VUndefined)
                    [(js "self", VObject 0)] []]
            (VObject 0)
  = OutOfFuel.
Proof.
  apply (cyclic_instance_is_never_rendered 99 (fun _ => None) 50
           [Object Plain (OtherPrototype false (Some (js "Node")) VUndefined)
                   [(js "self", VObject 0)] []]
           0 (js "Node") VUndefined (js "self") []);
    reflexivity.
Defined.

(** * The output for records, functions and cycles *)

(** ** Records of the default case in the output *)

Lemma Forall2_traverse {A B : Type} (f : A -> outcome B) (xs : list A) (ys : list B) :
  Forall2 (fun x y => f x = Returned y) xs ys -> traverse f xs = Returned ys.
Proof.
  induction 1 as [|x y xs ys Hxy _ IH]; cbn; [reflexivity|].
  now rewrite Hxy, IH.
Qed.

Lemma traverse_In {A B : Type} (f : A -> outcome B) (xs : list A) (ys : list B)
    (x : A) :
  traverse f xs = Returned ys -> In x xs -> exists y, f x = Returned y.
Proof.
  revert ys. induction xs as [|x0 xs IH]; cbn; intros ys Hys; [intros []|].
  destruct (f x0) as [y0| |] eqn:E; cbn in Hys; try discriminate.
  destruct (traverse f xs) as [ys'| |]; cbn in Hys; try discriminate.
  intros [<-|Hin]; eauto.
Qed.

Section Members.
Variable JSON_parse : jsstring -> option json.
Variable names : list (value * jsstring).

(** An unnamed object of the default case, when every value of its
    properties has a text: the literal of its keys and those texts. *)
Lemma stringify_members (n : nat) (h : heap) (l : loc) (texts : list jsstring) :
  map_get names (VObject l) = None ->
  default_case (obj_at h l) = true ->
  truthy (get_toJSON (obj_at h l)) = false ->
  proto (obj_at h l) <> NullPrototype ->
  Forall2 (fun (p : jsstring * value) s =>
             stringify JSON_parse names n h (snd p) = Returned s)
          (properties (obj_at h l)) texts ->
  stringify JSON_parse names (S n) h (VObject l)
  = Returned (record_literal (properties (obj_at h l)) texts).
Proof.
  intros Hname Hcase Htj Hproto Hall. cbn [stringify]. rewrite Hname.
  assert (Hms : traverse (fun p : jsstring * value =>
                            obind (stringify JSON_parse names n h (snd p))
                                  (fun s => Returned (safeKey (fst p) ++ js ":" ++ s)))
                         (properties (obj_at h l))
                = Returned (members_text (properties (obj_at h l)) texts)).
  { apply Forall2_traverse. unfold members_text.
    induction Hall as [|p s ps ss Hps _ IH]; cbn; constructor; [|exact IH].
    now rewrite Hps. }
  unfold default_case in Hcase.
  destruct (cls (obj_at h l)); try discriminate; rewrite Htj;
    (destruct (proto (obj_at h l)); [|congruence|]);
    unfold jsstring in *; rewrite Hms; reflexivity.
Qed.

(** ... and when one of them has none, the object has none. *)
Lemma stringify_needs_members (n : nat) (h : heap) (l : loc) (p : jsstring * value)
    (text : jsstring) :
  map_get names (VObject l) = None ->
  default_case (obj_at h l) = true ->
  truthy (get_toJSON (obj_at h l)) = false ->
  In p (properties (obj_at h l)) ->
  stringify JSON_parse names (S n) h (VObject l) = Returned text ->
  exists s, stringify JSON_parse names n h (snd p) = Returned s.
Proof.
  intros Hname Hcase Htj Hin. cbn [stringify]. rewrite Hname.
  assert (Hgen : forall (g : jsstring -> jsstring -> jsstring) ms,
            traverse (fun q : jsstring * value =>
                        obind (stringify JSON_parse names n h (snd q))
                              (fun s => Returned (g (fst q) s)))
                     (properties (obj_at h l)) = Returned ms ->
            exists s, stringify JSON_parse names n h (snd p) = Returned s).
  { intros g ms Hms. destruct (traverse_In _ _ _ p Hms Hin) as [y Hy].
    destruct (stringify JSON_parse names n h (snd p)) as [s| |]; [eauto|discriminate..]. }
  unfold default_case in Hcase.
  destruct (cls (obj_at h l)); try discriminate; rewrite Htj;
    (destruct (proto (obj_at h l));
     [|destruct (properties (obj_at h l)) as [|q qs]; [destruct Hin|]|]);
    match goal with
    | |- context [traverse ?f ?xs] =>
        destruct (traverse f xs) as [ms| |] eqn:Hms; cbn [obind]; try discriminate
    end; intros _.
  all: try (eapply (Hgen (fun key s => safeKey key ++ js ":" ++ s)); exact Hms).
  all: try (eapply (Hgen (fun key s => safeKey key
                            ++ js ":{writable:true,enumerable:true,value:"
                            ++ s ++ js "}")); exact Hms).
Qed.

(** An unnamed object of the default case that holds itself in one of
    its properties has no text, at any depth. *)
Lemma stringify_holding_itself (h : heap) (l : loc) (key : jsstring) :
  map_get names (VObject l) = None ->
  default_case (obj_at h l) = true ->
  truthy (get_toJSON (obj_at h l)) = false ->
  In (key, VObject l) (properties (obj_at h l)) ->
  forall (n : nat) (text : jsstring),
    stringify JSON_parse names n h (VObject l) <> Returned text.
Proof.
  intros Hname Hcase Htj Hin. induction n as [|n IH]; intros text H; [discriminate|].
  destruct (stringify_needs_members n h l (key, VObject l) text Hname Hcase Htj Hin H)
    as [s Hs].
  exact (IH s Hs).
Qed.
End Members.

(** ** Records of a custom type, wherever they stand *)

(** The state a first encounter of a record of a custom type leaves: the
    record counted once, one message more if the limiter lets it through,
    everything else as it was. *)
Lemma walk_custom_record (logLimit : Z) (JSON_parse : jsstring -> option json)
    (fuel : nat) (l : loc) (constructor_name : jsstring) (inherited : value)
    (parent : option loc) (key : option jsstring) (index : option nat) (st : state) :
  cls (obj_at (st_heap st) l) = Plain ->
  proto (obj_at (st_heap st) l) = OtherPrototype false (Some constructor_name) inherited ->
  truthy (get_toJSON (obj_at (st_heap st) l)) = false ->
  map_has (counts st) (VObject l) = false ->
  walk logLimit JSON_parse (S fuel) (VObject l) parent key index st
  = (Returned tt,
     let through := (Z.of_nat (logNum st) <? logLimit)%Z in
     State (st_heap st)
           (map_set (counts st) (VObject l) (Some 1))
           (mapObjToJSON st)
           (if through then S (logNum st) else logNum st)
           (if through then emitted st ++ [message_non_POJO constructor_name]
            else emitted st)
           (invoked st)).
Proof.
  intros Hcls Hproto Htj Hnew.
  assert (Hty : typeof_function (st_heap st) (VObject l) = false).
  { unfold typeof_function. now rewrite Hcls. }
  cbn [walk]. unfold bind at 1. cbn [gets]. rewrite Hty.
  unfold bind at 1. cbn [gets]. rewrite Hnew.
  unfold bind at 1. cbn [modify].
  rewrite Hcls, Htj. unfold walk_object. rewrite Hproto.
  unfold log, bind, gets, modify, consola, ret. cbn.
  destruct (Z.of_nat (logNum st) <? logLimit)%Z; reflexivity.
Qed.

(** C7 (amended): a record whose prototype is neither [Object.prototype]
    nor [null] nor has the member names of [Object.prototype], whose
    constructor has a name and which has no truthy [toJSON].
    - Wherever the traversal first meets it (at the root or below,
      whatever was met before), it enters the record in the count table
      and reports it through [log] (so only while the cap is not reached),
      and that is all: it does not descend, the heap and every other count
      are as they were.
    - The rendering pass writes the record, when it has no name, as the
      literal of its own keys, each with the text of its value, whenever
      every value has a text; and when a value has none (it throws, or the
      record holds itself, which the traversal did not see), neither has
      the record.
    - So for the record as the root: the call returns that literal, and
      leaves the table with the record alone. *)
Theorem C7_custom_record_is_reported_not_traversed :
  forall (logLimit : Z) (JSON_parse : jsstring -> option json) (fuel : nat)
         (h : heap) (l : loc) (constructor_name : jsstring) (inherited : value),
    cls (obj_at h l) = Plain ->
    proto (obj_at h l) = OtherPrototype false (Some constructor_name) inherited ->
    truthy (get_toJSON (obj_at h l)) = false ->
    (forall (st : state) (parent : option loc) (key : option jsstring)
            (index : option nat),
        st_heap st = h -> map_has (counts st) (VObject l) = false ->
        walk logLimit JSON_parse (S fuel) (VObject l) parent key index st
        = (Returned tt,
           let through := (Z.of_nat (logNum st) <? logLimit)%Z in
           State h (map_set (counts st) (VObject l) (Some 1)) (mapObjToJSON st)
                 (if through then S (logNum st) else logNum st)
                 (if through then emitted st ++ [message_non_POJO constructor_name]
                  else emitted st)
                 (invoked st)))
    /\ (forall (names : list (value * jsstring)) (n : nat) (texts : list jsstring),
          map_get names (VObject l) = None ->
          Forall2 (fun (p : jsstring * value) s =>
                     stringify JSON_parse names n h (snd p) = Returned s)
                  (properties (obj_at h l)) texts ->
          stringify JSON_parse names (S n) h (VObject l)
          = Returned (record_literal (properties (obj_at h l)) texts))
    /\ (forall (names : list (value * jsstring)) (n : nat) (p : jsstring * value)
               (text : jsstring),
          map_get names (VObject l) = None ->
          In p (properties (obj_at h l)) ->
          stringify JSON_parse names (S n) h (VObject l) = Returned text ->
          exists s, stringify JSON_parse names n h (snd p) = Returned s)
    /\ (forall texts : list jsstring,
          Forall2 (fun (p : jsstring * value) s =>
                     stringify JSON_parse [] fuel h (snd p) = Returned s)
                  (properties (obj_at h l)) texts ->
          devalue logLimit JSON_parse (S fuel) h (VObject l)
          = (Returned (record_literal (properties (obj_at h l)) texts),
             State h [(VObject l, Some 1)] []
                   (if (0 <? logLimit)%Z then 1 else 0)
                   (if (0 <? logLimit)%Z then [message_non_POJO constructor_name]
                    else [])
                   [])).
Proof.
  intros logLimit JSON_parse fuel h l constructor_name inherited Hcls Hproto Htj.
  assert (Hcase : default_case (obj_at h l) = true).
  { unfold default_case. now rewrite Hcls. }
  assert (Hnull : proto (obj_at h l) <> NullPrototype) by (rewrite Hproto; discriminate).
  assert (Hwalk : forall st parent key index,
            st_heap st = h -> map_has (counts st) (VObject l) = false ->
            walk logLimit JSON_parse (S fuel) (VObject l) parent key index st
            = (Returned tt,
               let through := (Z.of_nat (logNum st) <? logLimit)%Z in
               State h (map_set (counts st) (VObject l) (Some 1)) (mapObjToJSON st)
                     (if through then S (logNum st) else logNum st)
                     (if through then emitted st ++ [message_non_POJO constructor_name]
                      else emitted st)
                     (invoked st))).
  { intros st parent key index Hheap Hnew.
    rewrite <- Hheap in Hcls, Hproto, Htj.
    rewrite (walk_custom_record logLimit JSON_parse fuel l constructor_name inherited
               parent key index st Hcls Hproto Htj Hnew).
    now rewrite Hheap. }
  split; [exact Hwalk|].
  split; [intros names n texts Hname; now apply stringify_members|].
  split; [intros names n p text Hname; now apply stringify_needs_members|].
  intros texts Hall. unfold devalue.
  rewrite (Hwalk (initial_state h) None None None eq_refl eq_refl).
  cbn [initial_state logNum emitted counts mapObjToJSON invoked st_heap map_set
       norm_key].
  change (Z.of_nat 0) with 0%Z. cbv zeta.
  f_equal. cbn [counts st_heap].
  change (assign_names [(VObject l, Some 1)]) with (@nil (value * jsstring)).
  unfold assemble.
  rewrite (stringify_members JSON_parse [] fuel h l texts eq_refl Hcase Htj Hnull Hall).
  reflexivity.
Qed.

Lemma C7_custom_record_is_reported_not_traversed_witness :
  devalue 99 (fun _ => None) 3 custom_record_heap (VObject 0)
  = (Returned (js "{x:{},y:{}}"),
     State custom_record_heap [(VObject 0, Some 1)] [] 1
           [message_non_POJO (js "Point")] []).
Proof.
  exact (proj2 (proj2 (proj2
           (C7_custom_record_is_reported_not_traversed 99 (fun _ => None) 2
              custom_record_heap 0 (js "Point") VUndefined
              eq_refl eq_refl eq_refl)))
           [js "{}"; js "{}"]
           ltac:(repeat constructor)).
Defined.

(** ** Functions are not counted *)

Lemma typeof_function_part (h : heap) (l : loc) :
  typeof_function h (VObject l)
  = match function_part (obj_at h l) with Some _ => true | None => false end.
Proof. unfold typeof_function, function_part. now destruct (cls (obj_at h l)). Qed.

Lemma typeof_function_same (h h' : heap) (v : value) :
  (forall l, function_part (obj_at h' l) = function_part (obj_at h l)) ->
  typeof_function h' v = typeof_function h v.
Proof.
  intros H. destruct v as [| | | | | | |l]; try reflexivity.
  now rewrite !typeof_function_part, H.
Qed.

Lemma function_part_insert (h : heap) (l : loc) (o : object) :
  function_part o = function_part (obj_at h l) ->
  forall l', function_part (obj_at (<[l := o]> h) l') = function_part (obj_at h l').
Proof.
  intros Ho l'. unfold obj_at in *.
  destruct (Nat.eq_dec l' l) as [->|Hne].
  - destruct (lt_dec l (length h)).
    + rewrite list_lookup_insert_eq by assumption. exact Ho.
    + now rewrite list_insert_ge by lia.
  - now rewrite list_lookup_insert_ne by auto.
Qed.

Lemma function_part_app (h : heap) (o : object) :
  function_part o = None ->
  forall l, function_part (obj_at (h ++ [o]) l) = function_part (obj_at h l).
Proof.
  intros Ho l. unfold obj_at.
  destruct (lt_dec l (length h)) as [Hl|Hl].
  - now rewrite lookup_app_l.
  - rewrite lookup_app_r by lia. rewrite (lookup_ge_None_2 h l) by lia.
    destruct (l - length h) as [|i]; cbn; [exact Ho|reflexivity].
Qed.

Lemma alloc_json_functions (j : json) :
  forall h,
    (forall l, function_part (obj_at (snd (alloc_json j h)) l)
               = function_part (obj_at h l))
    /\ typeof_function (snd (alloc_json j h)) (fst (alloc_json j h)) = false.
Proof.
  assert (Hnew : forall h h' o,
            function_part o = None ->
            (forall l, function_part (obj_at h' l) = function_part (obj_at h l)) ->
            (forall l, function_part (obj_at (h' ++ [o]) l) = function_part (obj_at h l))
            /\ typeof_function (h' ++ [o]) (VObject (length h')) = false).
  { intros h h' o Ho Hsame. split.
    - intros l. now rewrite function_part_app.
    - rewrite typeof_function_part. unfold obj_at.
      rewrite lookup_app_r by lia. rewrite Nat.sub_diag. cbn. now rewrite Ho. }
  induction j as [|b|n|s|items IH|members IH] using json_induction; intros h;
    try (split; [intros l|]; reflexivity).
  - cbn [alloc_json].
    match goal with
    | |- context [?f items h] => set (go := f)
    end.
    assert (Hgo : forall h l, function_part (obj_at (snd (go items h)) l)
                              = function_part (obj_at h l)).
    { clear h. induction IH as [|x xs Hx Hxs IHxs]; intros h l; cbn; [reflexivity|].
      destruct (Hx h) as [Hh1 _]. specialize (Hh1 l).
      destruct (alloc_json x h) as [v h1]. cbn in Hh1.
      specialize (IHxs h1 l). destruct (go xs h1) as [vs h2]. cbn in *. congruence. }
    specialize (Hgo h). destruct (go items h) as [vs h']. cbn [fst snd] in *.
    now apply Hnew.
  - cbn [alloc_json].
    match goal with
    | |- context [?f members h] => set (go := f)
    end.
    assert (Hgo : forall h l, function_part (obj_at (snd (go members h)) l)
                              = function_part (obj_at h l)).
    { clear h. induction IH as [|[k x] xs Hx Hxs IHxs]; intros h l; cbn; [reflexivity|].
      cbn in Hx. destruct (Hx h) as [Hh1 _]. specialize (Hh1 l).
      destruct (alloc_json x h) as [v h1]. cbn in Hh1.
      specialize (IHxs h1 l). destruct (go xs h1) as [vs h2]. cbn in *. congruence. }
    specialize (Hgo h). destruct (go members h) as [ps h']. cbn [fst snd] in *.
    now apply Hnew.
Qed.

Lemma put_property_functions (h : heap) (p : loc) (key : jsstring) (v : value) :
  forall l, function_part (obj_at (put_property h p key v) l)
            = function_part (obj_at h l).
Proof. unfold put_property. now apply function_part_insert. Qed.

Lemma put_index_functions (h h' : heap) (target : value) (i : nat) (v : value) :
  put_index h target i v = Some h' ->
  forall l, function_part (obj_at h' l) = function_part (obj_at h l).
Proof.
  unfold put_index. destruct target as [| | | | | | |t]; try discriminate.
  destruct (cls (obj_at h t)) eqn:Hc;
    try (intros [= <-]; now apply put_property_functions).
  - destruct (_ <? _)%nat; [discriminate|].
    intros [= <-]. now apply put_property_functions.
  - intros [= <-]. apply function_part_insert.
    unfold function_part. now rewrite Hc.
Qed.

Lemma map_set_keys_of {V : Type} (P : value -> Prop) (m : list (value * V))
    (k : value) (v : V) :
  P (norm_key k) -> (forall k0 v0, In (k0, v0) m -> P k0) ->
  forall k0 v0, In (k0, v0) (map_set m k v) -> P k0.
Proof.
  intros Hk. induction m as [|[k1 v1] m IH]; cbn; intros Hm k0 v0.
  - intros [[= <- _]|[]]. exact Hk.
  - destruct (same_value_zero k1 k); cbn.
    + intros [[= <- _]|Hin]; eauto.
    + intros [[= <- <-]|Hin]; [eauto|]. eapply IH; eauto.
Qed.

Lemma typeof_function_norm_key (h : heap) (k : value) :
  typeof_function h (norm_key k) = typeof_function h k.
Proof. now destruct k as [| | |[]| | | |]. Qed.

Section Functions.
Variable logLimit : Z.
Variable JSON_parse : jsstring -> option json.
Variable h : heap.
Hypothesis Hreturns : returns_no_function h = true.

Lemma function_free_typeof (st : state) (v : value) :
  function_free h st -> typeof_function (st_heap st) v = typeof_function h v.
Proof. intros [H _]. now apply typeof_function_same. Qed.

Lemma function_free_count (st : state) (k : value) (c : count) :
  function_free h st -> typeof_function h k = false ->
  function_free h (set_counts (map_set (counts st) k c) st).
Proof.
  intros (Hh & Hc & Hm) Hk. split; [exact Hh|]. split; [|exact Hm].
  cbn [counts set_counts]. apply map_set_keys_of; [|exact Hc].
  now rewrite typeof_function_norm_key.
Qed.

Lemma function_free_heap (st : state) (h' : heap) :
  function_free h st ->
  (forall l, function_part (obj_at h' l) = function_part (obj_at (st_heap st) l)) ->
  function_free h (set_heap h' st).
Proof.
  intros (Hh & Hc & Hm) Hsame. split; [|split; assumption].
  intros l. cbn [st_heap set_heap]. now rewrite Hsame.
Qed.

Lemma function_free_log (message : jsstring) (st : state) :
  function_free h st ->
  ok_at (function_free h) (function_free h) (log logLimit message) st.
Proof.
  intros HI. unfold ok_at, log, bind, gets, consola, modify, ret. cbn.
  destruct (Z.of_nat (logNum st) <? logLimit)%Z; cbn; (split; [|intros _ _]; exact HI).
Qed.

Lemma call_toJSON_returns (st : state) (f result : value) :
  function_free h st -> call_toJSON (st_heap st) f = Some result ->
  typeof_function h result = false.
Proof.
  intros [Hh _]. destruct f as [| | | | | | |g]; try discriminate. cbn.
  specialize (Hh g). unfold function_part in Hh.
  destruct (cls (obj_at (st_heap st) g)) eqn:Hc; try discriminate.
  intros ->.
  destruct (cls (obj_at h g)) eqn:Hc0; try discriminate.
  injection Hh as <- <-.
  unfold obj_at in Hc0. destruct (h !! g) as [o|] eqn:Eg; [|discriminate].
  cbn in Hc0. unfold returns_no_function in Hreturns.
  rewrite forallb_forall in Hreturns.
  assert (Hin : In o h) by (apply list_elem_of_In; eapply list_elem_of_lookup_2; eauto).
  specialize (Hreturns o Hin). rewrite Hc0 in Hreturns.
  now apply negb_true_iff in Hreturns.
Qed.

Lemma splice_functions (parent : option loc) (key : option jsstring)
    (index : option nat) (converted : value) (st : state) :
  function_free h st ->
  function_free h (snd (splice parent key index converted st)).
Proof.
  intros HI. unfold splice, bind, gets, modify, throw.
  destruct parent as [p|]; [|exact HI].
  destruct index as [i|]; cbn.
  - destruct (put_index _ _ i converted) as [h'|] eqn:E; cbn; [|exact HI].
    apply function_free_heap; [exact HI|]. eapply put_index_functions; eauto.
  - apply function_free_heap; [exact HI|]. apply put_property_functions.
Qed.

Lemma walk_toJSON_functions (thing : value) (o : object) (parent : option loc)
    (key : option jsstring) (index : option nat) (st : state) :
  function_free h st -> typeof_function h thing = false ->
  function_free h (snd (walk_toJSON JSON_parse thing o parent key index st)).
Proof.
  intros HI Hthing.
  assert (Hd : function_free h (set_counts (map_delete (counts st) thing) st)).
  { destruct HI as (Hh & Hc & Hm). split; [exact Hh|]. split; [|exact Hm].
    intros k c Hin. apply map_delete_In in Hin. eauto. }
  unfold walk_toJSON. unfold bind at 1. cbn [modify].
  unfold bind at 1. cbn [gets mapObjToJSON set_counts].
  destruct (map_get (mapObjToJSON st) thing) as [converted|] eqn:Hget.
  - apply map_get_In in Hget as (k0 & Hin & _).
    assert (Hconv : typeof_function h converted = false).
    { destruct HI as (_ & _ & Hm). eauto. }
    unfold bind, modify, ret. cbn [fst snd].
    apply splice_functions. now apply function_free_count.
  - unfold bind at 1. unfold bind at 1. cbn [gets st_heap set_counts].
    assert (Hrest : forall st1,
              function_free h st1 -> st_heap st1 = st_heap st ->
              function_free h
                (snd (bind
                   (match call_toJSON (st_heap st) (get_toJSON o) with
                    | Some result =>
                        bind
                          match string_text (st_heap st) result with
                          | Some text =>
                              match JSON_parse text with
                              | Some tree =>
                                  let '(v, h') := alloc_json tree (st_heap st) in
                                  bind (modify (set_heap h')) (fun _ => ret v)
                              | None => ret thing
                              end
                          | None => ret result
                          end
                          (fun converted =>
                             bind (modify (fun st =>
                                     set_mapObjToJSON
                                       (map_set (mapObjToJSON st) thing converted) st))
                               (fun _ =>
                                  bind (modify (fun st =>
                                          set_counts
                                            (map_set (counts st) converted (Some 1)) st))
                                    (fun _ => ret converted)))
                    | None => throw
                    end)
                   (fun converted => splice parent key index converted) st1))).
    { intros st1 H1 Hheap1.
      destruct (call_toJSON (st_heap st) (get_toJSON o)) as [result|] eqn:Hcall;
        [|exact H1].
      assert (Hres : typeof_function h result = false).
      { rewrite <- Hheap1 in Hcall. eapply call_toJSON_returns; eauto. }
      assert (Hkeep : forall st2 converted,
                function_free h st2 -> typeof_function h converted = false ->
                function_free h
                  (snd (splice parent key index converted
                     (set_counts (map_set (counts st2) converted (Some 1))
                        (set_mapObjToJSON
                           (map_set (mapObjToJSON st2) thing converted) st2))))).
      { intros st2 converted H2 Hc. apply splice_functions.
        apply (function_free_count
                 (set_mapObjToJSON (map_set (mapObjToJSON st2) thing converted) st2)
                 converted (Some 1)); [|exact Hc].
        destruct H2 as (Hh2 & Hc2 & Hm2). split; [exact Hh2|]. split; [exact Hc2|].
        cbn [mapObjToJSON set_mapObjToJSON]. now apply map_set_values. }
      destruct (string_text (st_heap st) result) as [text|];
        [destruct (JSON_parse text) as [tree|]|].
      - destruct (alloc_json_functions tree (st_heap st)) as [Hsame Hv].
        destruct (alloc_json tree (st_heap st)) as [v h'] eqn:Ea. cbn [fst snd] in *.
        unfold bind, modify, ret. cbn [fst snd].
        apply (Hkeep (set_heap h' st1) v).
        + apply function_free_heap; [exact H1|]. now rewrite Hheap1.
        + rewrite <- Hv. symmetry. apply typeof_function_same.
          intros l. rewrite Hsame. rewrite <- Hheap1. apply H1.
      - unfold bind, modify, ret. cbn [fst snd]. now apply (Hkeep st1 thing).
      - unfold bind, modify, ret. cbn [fst snd]. now apply (Hkeep st1 result). }
    destruct (typeof_function (st_heap st) (get_toJSON o)).
    + cbn [modify]. apply Hrest; [|reflexivity].
      destruct Hd as (H1 & H2 & H3). split; [exact H1|]. split; assumption.
    + cbn [ret]. apply Hrest; [exact Hd|reflexivity].
Qed.

Lemma walk_functions (fuel : nat) :
  forall thing parent key index st,
    function_free h st ->
    ok_at (function_free h) (function_free h)
          (walk logLimit JSON_parse fuel thing parent key index) st.
Proof.
  assert (II : forall st, function_free h st -> function_free h st) by auto.
  induction fuel as [|fuel IH]; intros thing parent key index st HI.
  { now apply ok_at_stop. }
  cbn [walk]. apply ok_at_gets.
  destruct (typeof_function (st_heap st) thing) eqn:Hty.
  { split; cbn; [|intros _ _]; exact HI. }
  rewrite (function_free_typeof st thing HI) in Hty.
  apply ok_at_gets.
  destruct (map_has (counts st) thing).
  { apply ok_at_modify_end; auto. now apply function_free_count. }
  apply ok_at_modify.
  set (st1 := set_counts _ st).
  assert (HI1 : function_free h st1) by (now apply function_free_count).
  destruct thing as [| | | | | | |l]; try (now apply ok_at_ret).
  destruct (cls (obj_at (st_heap st) l)) eqn:Hcls; try (now apply ok_at_ret).
  - destruct (truthy (get_toJSON (obj_at (st_heap st) l))).
    + split; [|intros _ _]; now apply walk_toJSON_functions.
    + unfold walk_object.
      destruct (proto (obj_at (st_heap st) l)) as [| |[|] [name'|] inherited];
        try (now apply ok_at_stop); try (now apply function_free_log);
        (destruct (symbols (obj_at (st_heap st) l));
         [|now apply function_free_log];
         apply ok_at_forEach_key; auto).
  - apply ok_at_forEach_array; auto.
  - apply ok_at_forEach; auto.
  - destruct (alloc_pairs_ok (function_free h) (fun _ => True))
      with (entries := entries) (st := st1) as (items & Hret & HIs & _); auto.
    { intros st' k v H' _ _. apply function_free_heap; [exact H'|].
      now apply function_part_app. }
    apply ok_at_bind.
    + split; [exact HIs | intros; exact HIs].
    + intros items' Hret'. apply ok_at_forEach; auto.
  - destruct (truthy (get_toJSON (obj_at (st_heap st) l))).
    + split; [|intros _ _]; now apply walk_toJSON_functions.
    + unfold walk_object.
      destruct (proto (obj_at (st_heap st) l)) as [| |[|] [name'|] inherited];
        try (now apply ok_at_stop); try (now apply function_free_log);
        (destruct (symbols (obj_at (st_heap st) l));
         [|now apply function_free_log];
         apply ok_at_forEach_key; auto).
Qed.
End Functions.

Lemma function_free_unnamed (h : heap) (st : state) (f : loc) :
  function_free h st -> typeof_function h (VObject f) = true ->
  map_has (counts st) (VObject f) = false
  /\ map_get (assign_names (counts st)) (VObject f) = None.
Proof.
  intros (_ & Hc & _) Hf.
  assert (Hnot : forall c, ~ In (VObject f, c) (counts st)).
  { intros c Hin. apply Hc in Hin. congruence. }
  split.
  - unfold map_has. destruct (map_get (counts st) (VObject f)) as [c|] eqn:E;
      [|reflexivity].
    apply map_get_In in E as (k0 & Hin & Hk).
    apply same_value_zero_object in Hk. subst k0. now apply Hnot in Hin.
  - destruct (map_get (assign_names (counts st)) (VObject f)) as [name|] eqn:E;
      [|reflexivity].
    apply map_get_In in E as (k0 & Hin & Hk).
    apply same_value_zero_object in Hk. subst k0.
    apply assign_names_keys in Hin as [c Hin]. now apply Hnot in Hin.
Qed.

(** C4 (amended).  A function does not vanish from the output.
    - Every encounter of the traversal with a function is a message handed
      to consola and nothing more: the function is not counted.
    - When no [toJSON] of the input returns a function, no function is ever
      in the table of counts, whatever the input and however the call
      ends; so none has a name, and each is still the function it was.
    - The rendering pass has no case for functions: wherever it comes to a
      function without a name and without a truthy [toJSON], it writes the
      literal of a record with the function's own properties, each value
      with its text; for a function without properties that is [{}]
      ([Object.create(null)] under a [null] prototype).
    - So a function without properties, at the root, yields [{}]. *)
Theorem C4_function_is_written_as_a_record :
  forall (logLimit : Z) (JSON_parse : jsstring -> option json) (fuel : nat)
         (h : heap) (root : value) (f : loc),
    returns_no_function h = true ->
    typeof_function h (VObject f) = true ->
    let st := snd (devalue logLimit JSON_parse fuel h root) in
    let names := assign_names (counts st) in
    let o := obj_at (st_heap st) f in
    (forall (n : nat) (st0 : state) (parent : option loc) (key : option jsstring)
            (index : option nat),
        st_heap st0 = h ->
        walk logLimit JSON_parse (S n) (VObject f) parent key index st0
        = (Returned tt,
           State h (counts st0) (mapObjToJSON st0) (logNum st0)
                 (emitted st0 ++ [message_function (function_name h (VObject f))])
                 (invoked st0)))
    /\ function_part o = function_part (obj_at h f)
    /\ map_has (counts st) (VObject f) = false
    /\ map_get names (VObject f) = None
    /\ (forall (n : nat) (texts : list jsstring),
          truthy (get_toJSON o) = false -> proto o <> NullPrototype ->
          Forall2 (fun (p : jsstring * value) s =>
                     stringify JSON_parse names n (st_heap st) (snd p) = Returned s)
                  (properties o) texts ->
          stringify JSON_parse names (S n) (st_heap st) (VObject f)
          = Returned (record_literal (properties o) texts))
    /\ (forall n : nat,
          truthy (get_toJSON o) = false -> properties o = [] ->
          stringify JSON_parse names (S n) (st_heap st) (VObject f)
          = Returned (shell_of (proto o)))
    /\ (forall n : nat,
          truthy (get_toJSON (obj_at h f)) = false -> properties (obj_at h f) = [] ->
          devalue logLimit JSON_parse (S n) h (VObject f)
          = (Returned (shell_of (proto (obj_at h f))),
             State h [] [] 0 [message_function (function_name h (VObject f))] [])).
Proof.
  intros logLimit JSON_parse fuel h root f Hreturns Hf st names o.
  assert (Hfree : function_free h st).
  { subst st. rewrite devalue_state.
    apply (walk_functions logLimit JSON_parse h Hreturns fuel root None None None
             (initial_state h)).
    split; [reflexivity|]. split; intros ? ? []. }
  destruct (function_free_unnamed h st f Hfree Hf) as [Hcount Hname].
  assert (Hpart : function_part o = function_part (obj_at h f)) by apply Hfree.
  assert (Hcase : default_case o = true).
  { rewrite typeof_function_part, <- Hpart in Hf. unfold function_part in Hf.
    unfold default_case. now destruct (cls o). }
  assert (Hempty : forall names' n H,
            map_get names' (VObject f) = None ->
            default_case (obj_at H f) = true ->
            truthy (get_toJSON (obj_at H f)) = false -> properties (obj_at H f) = [] ->
            stringify JSON_parse names' (S n) H (VObject f)
            = Returned (shell_of (proto (obj_at H f)))).
  { intros names' n H Hn Hc Htj Hp. cbn [stringify]. rewrite Hn.
    unfold default_case in Hc.
    destruct (cls (obj_at H f)); try discriminate; rewrite Htj, Hp;
      now destruct (proto (obj_at H f)). }
  split.
  { intros n st0 parent key index Hheap.
    rewrite walk_function by (now rewrite Hheap).
    unfold add_emitted. rewrite Hheap. reflexivity. }
  split; [exact Hpart|]. split; [exact Hcount|]. split; [exact Hname|].
  split; [intros n texts Htj Hproto; now apply stringify_members|].
  split; [intros n Htj Hp; now apply Hempty|].
  intros n Htj Hp. unfold devalue.
  rewrite walk_function by exact Hf.
  cbn [add_emitted initial_state st_heap counts mapObjToJSON logNum emitted invoked app].
  f_equal. change (assign_names []) with (@nil (value * jsstring)).
  unfold assemble. rewrite Hempty; auto.
  rewrite typeof_function_part in Hf. unfold function_part in Hf.
  unfold default_case. now destruct (cls (obj_at h f)).
Qed.

Lemma C4_function_is_written_as_a_record_witness :
  let h := [plain [(js "a", VObject 1)]; function_object (js "f") None] in
  let st := snd (devalue 99 (fun _ => None) 3 h (VObject 0)) in
  map_has (counts st) (VObject 1) = false
  /\ stringify (fun _ => None) (assign_names (counts st)) 1 (st_heap st) (VObject 1)
     = Returned (js "{}").
Proof.
  intros h st.
  pose proof (C4_function_is_written_as_a_record 99 (fun _ => None) 3 h (VObject 0) 1
                eq_refl eq_refl) as (_ & _ & Hcount & _ & _ & Hempty & _).
  split; [exact Hcount|]. exact (Hempty 0 eq_refl eq_refl).
Defined.

(** The three places of the specification, and the texts of the call. *)
Example functions_in_three_places :
  forall (logLimit : Z) (JSON_parse : jsstring -> option json) (fuel : nat)
         (name : jsstring) (call : option value) (rest : heap),
    let f := function_object name call in
    let in_record := plain [(js "a", VObject 1)] :: f :: rest in
    let in_array := array [Some (VObject 1)] :: f :: rest in
    devalue logLimit JSON_parse (2 + fuel) in_record (VObject 0)
    = (Returned (js "{a:{}}"),
       State in_record [(VObject 0, Some 1)] [] 0 [message_function name] [])
    /\ devalue logLimit JSON_parse (2 + fuel) in_array (VObject 0)
       = (Returned (js "[{}]"),
          State in_array [(VObject 0, Some 1)] [] 0 [message_function name] [])
    /\ devalue logLimit JSON_parse (1 + fuel) (f :: rest) (VObject 0)
       = (Returned (js "{}"),
          State (f :: rest) [] [] 0 [message_function name] []).
Proof.
  intros logLimit JSON_parse fuel name call rest. vm_compute. auto.
Qed.

(** Where the law above stops: a function that a [toJSON] returns is
    counted as the conversion it is, and named when it is met twice; a
    function that holds itself has no text. *)
Example function_returned_by_toJSON_is_named :
  serialize 99 (fun _ => None) 4
            (converted_twice_heap (function_object (js "g") None) []) (VObject 0)
  = Returned (js "(function(a){return {a:a,b:a}}({}))").
Proof. vm_compute. reflexivity. Qed.

Example function_holding_itself_has_no_text :
  forall (logLimit : Z) (JSON_parse : jsstring -> option json) (fuel : nat)
         (text : jsstring),
    serialize logLimit JSON_parse fuel
              [Object (Function (js "f") None) function_prototype
                      [(js "me", VObject 0)] []]
              (VObject 0)
    <> Returned text.
Proof.
  intros logLimit JSON_parse fuel text. unfold serialize, devalue.
  destruct fuel as [|fuel]; [discriminate|].
  rewrite walk_function by reflexivity. cbn [fst add_emitted st_heap counts initial_state].
  change (assign_names []) with (@nil (value * jsstring)).
  unfold assemble.
  destruct (stringify JSON_parse [] (S fuel) _ (VObject 0)) as [s| |] eqn:E;
    try discriminate.
  exfalso. revert E.
  apply (stringify_holding_itself JSON_parse [] _ 0 (js "me")); try reflexivity.
  now left.
Qed.

(** ** A record that holds itself, in general *)







(** The record with [self] alone, and a record that holds itself below
    the root: the texts of the call. *)
Example self_reference_alone :
  forall (logLimit : Z) (JSON_parse : jsstring -> option json) (fuel : nat)
         (rest : heap),
    serialize logLimit JSON_parse (2 + fuel)
              (plain [(js "self", VObject 0)] :: rest) (VObject 0)
    = Returned (js "(function(a){a.self=a;return a}({}))").
Proof. intros logLimit JSON_parse fuel rest. vm_compute. reflexivity. Qed.

Example self_reference_below_the_root :
  serialize 99 (fun _ => None) 5
            [ plain [(js "child", VObject 1)];
              plain [(js "self", VObject 1); (js "n", num 1)] ]
            (VObject 0)
  = Returned (js "(function(a){a.self=a;a.n=1;return {child:a}}({}))").
Proof. vm_compute. reflexivity. Qed.
